(** * simple-vpn: the packet-switching core, the in-band command protocol
      and the server's address pool

    A shallow embedding of [shared/util.go], [shared/socketHandler.go] (both
    revisions of [Serve]) and of [pickIP] / the pool initialisation of
    [cmd_server.go], followed by the properties of these functions. *)

From Stdlib Require Import ZArith NArith List Bool Lia.
From Stdlib Require Import Strings.Byte Strings.Ascii Strings.String DecimalString.
From stdpp Require Import base option list gmap sets strings.

Local Open Scope nat_scope.

(* ===================================================================== *)
(** ** Bytes and Go slices *)
(* ===================================================================== *)

#[global] Instance byte_eq_decision : EqDecision byte := Byte.byte_eq_dec.

#[global] Instance byte_countable : Countable byte :=
  inj_countable Byte.to_N Byte.of_N Byte.of_to_N.

(** A [[]byte] value: the [sl_data] are the [len] visible elements, the
    [sl_spare] are the elements of the backing array between [len] and
    [cap].  A slice expression may reach into the spare part; indexing may
    not. *)
Record slice := MkSlice { sl_data : list byte; sl_spare : list byte }.

Definition len (s : slice) : nat := length (sl_data s).
Definition cap (s : slice) : nat := length (sl_data s) + length (sl_spare s).

(** A slice whose capacity equals its length. *)
Definition bytes (l : list byte) : slice := MkSlice l [].

(** [s[lo:hi]]: a run-time panic ([None]) unless [lo <= hi <= cap(s)]. *)
Definition subslice (s : slice) (lo hi : nat) : option slice :=
  if (lo <=? hi) && (hi <=? cap s)
  then Some (MkSlice (take (hi - lo) (drop lo (sl_data s ++ sl_spare s)))
                     (drop hi (sl_data s ++ sl_spare s)))
  else None.

(** [copy(dst[:], src)] into a zeroed array of [n] bytes: the first
    [min n (len src)] elements are taken from [src], the rest stay zero. *)
Definition copy_into_zeroed (n : nat) (src : slice) : list byte :=
  take n (sl_data src) ++ replicate (n - len src) x00.

(* ===================================================================== *)
(** ** shared/util.go *)
(* ===================================================================== *)

(** [type MacAddr [6]byte] *)
Abbreviation MacAddr := (list byte) (only parsing).

Module Util.

(** [GetSrcMAC]: [copy(mac[:], packet[6:12])]. *)
Definition GetSrcMAC (packet : slice) : option MacAddr :=
  sub ← subslice packet 6 12; Some (copy_into_zeroed 6 sub).

(** [GetDestMAC]: [copy(mac[:], packet[0:6])]. *)
Definition GetDestMAC (packet : slice) : option MacAddr :=
  sub ← subslice packet 0 6; Some (copy_into_zeroed 6 sub).

End Util.

(** The revision of [util.go] that reads the offsets of an IPv6 header. *)
Module Util6.

(** [GetSrcMAC]: [copy(mac[:], packet[16:32])]. *)
Definition GetSrcMAC (packet : slice) : option MacAddr :=
  sub ← subslice packet 16 32; Some (copy_into_zeroed 6 sub).

(** [GetDestMAC]: [copy(mac[:], packet[0:16])]. *)
Definition GetDestMAC (packet : slice) : option MacAddr :=
  sub ← subslice packet 0 16; Some (copy_into_zeroed 6 sub).

End Util6.

(** [MACIsUnicast]: [(mac[0] & 1) == 0]; the same in both revisions. *)
Definition MACIsUnicast (mac : MacAddr) : bool :=
  match mac with
  | b :: _ => N.eqb (N.land (Byte.to_N b) 1) 0
  | [] => true
  end.

(** [var defaultMac = [6]byte{0xFF, 0xFF, 0xFF, 0xFF, 0xFF, 0xFF}] *)
Definition defaultMac : MacAddr := [xff; xff; xff; xff; xff; xff].

(* ===================================================================== *)
(** ** The shared state of package [shared] *)
(* ===================================================================== *)

(** A [*Socket]: the identity of an Endpoint. *)
Abbreviation sockid := nat (only parsing).

(** gorilla/websocket message types. *)
Inductive msgtype :=
  | TextMessage | BinaryMessage | CloseMessage | PingMessage | PongMessage.

#[global] Instance msgtype_eq_decision : EqDecision msgtype.
Proof. solve_decision. Defined.

(** A Go [error] value; [None] is [nil]. *)
Abbreviation error := (option string) (only parsing).

(** The transport connection as far as the Endpoint observes it: whether the
    peer still accepts writes, and whether [conn.Close()] was called. *)
Record Conn := MkConn { conn_up : bool; conn_closed : bool }.

(** The tunnel device behind a non-nil [*water.Interface]. *)
Record Interface := MkInterface { if_closed : bool }.

Inductive chan_state := ChanOpen | ChanClosed.

(** [type Socket struct]; [writeLock] is left out (one call runs at a
    time in the sequential semantics), [handlers] are kept apart (see
    [Handlers] below), [reaper] records whether the callback is non-nil. *)
Record Socket := MkSocket {
  clientIP : string;
  conn : Conn;
  iface : option Interface;
  wg : nat;
  closechan : chan_state;
  closechanopen : bool;
  mac : MacAddr;
  reaper : bool;
  reaped : bool
}.

(** What the code does to the outside, in the order it does it. *)
Inductive logline :=
  | LogWriteError | LogTunReadError | LogWsReadError
  | LogInvalidCommand
  | LogReply (commandID result : string)
  | LogCommandError (commandName : string)
  | LogPingTimeout.

Inductive Event :=
  | ConnWrite (s : sockid) (ty : msgtype) (data : list byte)
  | ConnClose (s : sockid)
  | IfaceWrite (s : sockid) (data : list byte)
  | IfaceClose (s : sockid)
  | ChanClose (s : sockid)
  | Reap (s : sockid) (ip : string)
  | Log (s : sockid) (l : logline).

(** The package-level variables, and the structs the [*Socket]s point to. *)
Record World := MkWorld {
  socks : gmap nat Socket;
  macTable : gmap (list byte) nat;
  allSockets : gset nat;
  lastCommandID : N
}.

(** [MakeSocket(clientIP, conn, iface, fn)] *)
Definition MakeSocket (ip : string) (c : Conn) (i : option Interface)
    (fn : bool) : Socket :=
  {| clientIP := ip; conn := c; iface := i; wg := 0;
     closechan := ChanOpen; closechanopen := true;
     mac := defaultMac; reaper := fn; reaped := false |}.

(** A pointer always points to a struct: reading an identity the store does
    not list yields a freshly made socket. *)
#[global] Instance Socket_inhabited : Inhabited Socket :=
  populate (MakeSocket "" (MkConn true false) None false).

Definition emptyWorld : World :=
  {| socks := ∅; macTable := ∅; allSockets := ∅; lastCommandID := 0%N |}.

Definition sock (w : World) (s : sockid) : Socket := socks w !!! s.

Definition set_sock (s : sockid) (f : Socket → Socket) (w : World) : World :=
  {| socks := <[s := f (sock w s)]> (socks w);
     macTable := macTable w; allSockets := allSockets w;
     lastCommandID := lastCommandID w |}.

Definition set_macTable (f : gmap (list byte) nat → gmap (list byte) nat)
    (w : World) : World :=
  {| socks := socks w; macTable := f (macTable w);
     allSockets := allSockets w; lastCommandID := lastCommandID w |}.

Definition set_allSockets (f : gset nat → gset nat) (w : World) : World :=
  {| socks := socks w; macTable := macTable w;
     allSockets := f (allSockets w); lastCommandID := lastCommandID w |}.

Definition set_lastCommandID (n : N) (w : World) : World :=
  {| socks := socks w; macTable := macTable w;
     allSockets := allSockets w; lastCommandID := n |}.

(* ===================================================================== *)
(** ** A state, trace and panic monad *)
(* ===================================================================== *)

Inductive Res (A : Type) :=
  | Panic
  | Ok (a : A) (w : World) (tr : list Event).
Arguments Panic {A}.
Arguments Ok {A} a w tr.

Definition M (A : Type) : Type := World → Res A.

Definition ret {A} (a : A) : M A := λ w, Ok a w [].

(** The result [r] of a continuation, after the events [tr]. *)
Definition addTrace {A} (tr : list Event) (r : Res A) : Res A :=
  match r with
  | Panic => Panic
  | Ok a w tr' => Ok a w (tr ++ tr')
  end.

Definition bind {A B} (m : M A) (k : A → M B) : M B := λ w,
  match m w with
  | Panic => Panic
  | Ok a w1 tr1 => addTrace tr1 (k a w1)
  end.

Notation "'do' x <- m ; k" := (bind m (λ x, k))
  (at level 10, x name, m at level 100, k at level 200).
Notation "m ;; k" := (bind m (λ _, k))
  (at level 100, k at level 200, right associativity).

Definition panic {A} : M A := λ _, Panic.
Definition emit (e : Event) : M unit := λ w, Ok tt w [e].
Definition get : M World := λ w, Ok w w [].
Definition modify (f : World → World) : M unit := λ w, Ok tt (f w) [].
Definition when (b : bool) (m : M unit) : M unit := if b then m else ret tt.

(** [for _, v := range l { body(v) }] *)
Fixpoint forEach {A} (l : list A) (body : A → M unit) : M unit :=
  match l with
  | [] => ret tt
  | v :: l' => body v ;; forEach l' body
  end.

(* ===================================================================== *)
(** ** shared/socketHandler.go *)
(* ===================================================================== *)

Definition with_conn (c : Conn) (k : Socket) : Socket :=
  {| clientIP := clientIP k; conn := c; iface := iface k; wg := wg k;
     closechan := closechan k; closechanopen := closechanopen k;
     mac := mac k; reaper := reaper k; reaped := reaped k |}.

Definition with_iface (i : option Interface) (k : Socket) : Socket :=
  {| clientIP := clientIP k; conn := conn k; iface := i; wg := wg k;
     closechan := closechan k; closechanopen := closechanopen k;
     mac := mac k; reaper := reaper k; reaped := reaped k |}.

Definition with_wg (n : nat) (k : Socket) : Socket :=
  {| clientIP := clientIP k; conn := conn k; iface := iface k; wg := n;
     closechan := closechan k; closechanopen := closechanopen k;
     mac := mac k; reaper := reaper k; reaped := reaped k |}.

Definition with_closechan (c : chan_state) (k : Socket) : Socket :=
  {| clientIP := clientIP k; conn := conn k; iface := iface k; wg := wg k;
     closechan := c; closechanopen := closechanopen k;
     mac := mac k; reaper := reaper k; reaped := reaped k |}.

Definition with_closechanopen (b : bool) (k : Socket) : Socket :=
  {| clientIP := clientIP k; conn := conn k; iface := iface k; wg := wg k;
     closechan := closechan k; closechanopen := b;
     mac := mac k; reaper := reaper k; reaped := reaped k |}.

Definition with_mac (m : MacAddr) (k : Socket) : Socket :=
  {| clientIP := clientIP k; conn := conn k; iface := iface k; wg := wg k;
     closechan := closechan k; closechanopen := closechanopen k;
     mac := m; reaper := reaper k; reaped := reaped k |}.

Definition with_reaped (b : bool) (k : Socket) : Socket :=
  {| clientIP := clientIP k; conn := conn k; iface := iface k; wg := wg k;
     closechan := closechan k; closechanopen := closechanopen k;
     mac := mac k; reaper := reaper k; reaped := b |}.

(** [FindSocketByMAC]: [macTable[mac]], [nil] when there is no entry. *)
Definition FindSocketByMAC (m : MacAddr) : M (option sockid) :=
  do w <- get; ret (macTable w !! m).

(** [s.conn.Close()] *)
Definition conn_Close (s : sockid) : M unit :=
  emit (ConnClose s) ;;
  modify (set_sock s (λ k, with_conn (MkConn (conn_up (conn k)) true) k)).

(** [close(s.closechan)]: closing a closed channel panics. *)
Definition close_chan (s : sockid) : M unit :=
  do w <- get;
  match closechan (sock w s) with
  | ChanClosed => panic
  | ChanOpen =>
      emit (ChanClose s) ;; modify (set_sock s (with_closechan ChanClosed))
  end.

(** [func (s *Socket) Close()] *)
Definition Close (s : sockid) : M unit :=
  conn_Close s ;;
  (do w <- get;
   match iface (sock w s) with
   | Some _ =>
       emit (IfaceClose s) ;;
       modify (set_sock s (with_iface (Some (MkInterface true))))
   | None => ret tt
   end) ;;
  (do w <- get;
   if closechanopen (sock w s)
   then modify (set_sock s (with_closechanopen false)) ;; close_chan s
   else ret tt) ;;
  (do w <- get;
   if decide (mac (sock w s) ≠ defaultMac)
   then modify (set_macTable (delete (mac (sock w s)))) ;;
        modify (set_sock s (with_mac defaultMac))
   else ret tt) ;;
  modify (set_allSockets (λ X, X ∖ {[s]})).

(** [func (s *Socket) WriteMessage(msgType int, data []byte) error] *)
Definition WriteMessage (s : sockid) (ty : msgtype) (data : list byte)
    : M error :=
  emit (ConnWrite s ty data) ;;
  do w <- get;
  if conn_up (conn (sock w s)) && negb (conn_closed (conn (sock w s)))
  then ret None
  else emit (Log s LogWriteError) ;; Close s ;; ret (Some "write failed"%string).

(** [func BroadcastMessage(msgType int, data []byte, skip *Socket)]: the
    targets are collected first, then written to. *)
Definition BroadcastMessage (ty : msgtype) (data : list byte) (skip : sockid)
    : M unit :=
  do w <- get;
  let targetList := filter (λ v, v ≠ skip) (elements (allSockets w)) in
  forEach targetList (λ v, WriteMessage v ty data ;; ret tt).

(** The body of [setMACFrom] once the source address is known: nothing for
    a multicast source or the address already learned; otherwise the entry
    under the old address goes, the new address is recorded and entered. *)
Definition learnMAC (s : sockid) (srcMac : MacAddr) (w : World) : World :=
  if negb (MACIsUnicast srcMac) || bool_decide (srcMac = mac (sock w s))
  then w
  else
    let w1 := if decide (mac (sock w s) ≠ defaultMac)
              then set_macTable (delete (mac (sock w s))) w else w in
    let w2 := set_sock s (with_mac srcMac) w1 in
    set_macTable (<[srcMac := s]>) w2.

(** [func (s *Socket) setMACFrom(msg []byte)] *)
Definition setMACFrom (s : sockid) (msg : slice) : M unit :=
  match Util.GetSrcMAC msg with
  | None => panic
  | Some srcMac => modify (learnMAC s srcMac)
  end.

(** [setMACFrom] as it runs when the package is built with the revision of
    [util.go] that has the IPv6 offsets. *)
Definition setMACFrom6 (s : sockid) (msg : slice) : M unit :=
  match Util6.GetSrcMAC msg with
  | None => panic
  | Some srcMac => modify (learnMAC s srcMac)
  end.

(** [s.wg.Done()]: a counter that would go negative panics. *)
Definition wg_Done (s : sockid) : M unit :=
  do w <- get;
  match wg (sock w s) with
  | O => panic
  | S n => modify (set_sock s (with_wg n))
  end.

Definition wg_Add (s : sockid) (n : nat) : M unit :=
  modify (set_sock s (λ k, with_wg (wg k + n) k)).

(** [func (s *Socket) closeDone()] *)
Definition closeDone (s : sockid) : M unit :=
  wg_Done s ;;
  Close s ;;
  do w <- get;
  if reaper (sock w s) && bool_decide (reaped (sock w s) = false)
  then emit (Reap s (clientIP (sock w s))) ;;
       modify (set_sock s (with_reaped true))
  else ret tt.

(** *** The in-band command protocol *)

(** [strings.Split(s, "|")] for the one-byte separator the code uses. *)
Fixpoint Split (s : string) (sep : ascii) : list string :=
  match s with
  | EmptyString => [EmptyString]
  | String c s' =>
      if Ascii.eqb c sep then EmptyString :: Split s' sep
      else match Split s' sep with
           | f :: fs => String c f :: fs
           | [] => [String c EmptyString]
           end
  end.

(** [strings.IndexByte(s, c) >= 0] *)
Fixpoint containsByte (c : ascii) (s : string) : bool :=
  match s with
  | EmptyString => false
  | String a s' => Ascii.eqb a c || containsByte c s'
  end.

(** [strings.Join(args, sep)] *)
Fixpoint Join (args : list string) (sep : string) : string :=
  match args with
  | [] => EmptyString
  | [a] => a
  | a :: rest => a +:+ sep +:+ Join rest sep
  end.

(** [fmt.Sprintf("%s|%s|%s", commandId, command, strings.Join(args, "|"))] *)
Definition encodeCommand (commandId command : string) (args : list string)
    : string :=
  commandId +:+ "|" +:+ command +:+ "|" +:+ Join args "|".

(** [func (s *Socket) rawSendCommand(commandId, command string, args ...string)] *)
Definition rawSendCommand (s : sockid) (commandId command : string)
    (args : list string) : M error :=
  WriteMessage s TextMessage
    (list_byte_of_string (encodeCommand commandId command args)).

(** [fmt.Sprintf("%d", n)] for an unsigned [n]. *)
Definition Sprintf_d (n : N) : string := NilZero.string_of_uint (N.to_uint n).

(** [atomic.AddUint64(&lastCommandId, 1)]: the new value, modulo 2^64. *)
Definition nextCommandID : M N :=
  do w <- get;
  let n := ((lastCommandID w + 1) mod 2 ^ 64)%N in
  modify (set_lastCommandID n) ;; ret n.

(** [func (s *Socket) SendCommand(command string, args ...string) error] *)
Definition SendCommand (s : sockid) (command : string) (args : list string)
    : M error :=
  do n <- nextCommandID;
  rawSendCommand s (Sprintf_d n) command args.

(** [func (s *Socket) BroadcastCommand(command string, args []string) error] *)
Definition BroadcastCommand (command : string) (args : list string)
    : M error :=
  do w <- get;
  let targetList := elements (allSockets w) in
  forEach targetList (λ v, SendCommand v command args ;; ret tt) ;;
  ret None.

(** [s.handlers]: fixed while the Endpoint serves.  A handler receives the
    arguments and may act on the shared state. *)
Definition Handlers : Type := sockid → string → option (list string → M error).

(** [fmt.Sprintf("%v", err == nil)] *)
Definition Sprintf_v_isnil (err : error) : string :=
  match err with None => "true" | Some _ => "false" end.

(** *** The transport-read pump *)

(** What [s.conn.ReadMessage()] returns; an error is either the expected
    going-away close or an unexpected one. *)
Inductive ReadResult :=
  | ReadErr (unexpected : bool)
  | ReadOk (ty : msgtype) (msg : slice).

(** What an iteration of the [for] loop ends with. *)
Inductive loopctl := Continue | Return.

(** [s.iface.Write(msg)], after the [s.iface == nil] test. *)
Definition writeOwnIface (s : sockid) (msg : slice) : M unit :=
  do w <- get;
  match iface (sock w s) with
  | None => ret tt
  | Some _ => emit (IfaceWrite s (sl_data msg))
  end.

(** The [msgType == websocket.BinaryMessage] branch of [Serve()] in
    [shared/socketHandler.go].  The inner computation yields [true] where
    the code says [continue] before the tunnel write. *)
Definition serveBinary (s : sockid) (msg : slice) : M unit :=
  do skip <-
    (if 14 <=? len msg then
       setMACFrom s msg ;;
       match Util.GetDestMAC msg with
       | None => panic
       | Some dest =>
           if MACIsUnicast dest then
             do sd <- FindSocketByMAC dest;
             match sd with
             | Some sd => WriteMessage sd BinaryMessage (sl_data msg) ;; ret true
             | None => ret false
             end
           else BroadcastMessage BinaryMessage (sl_data msg) s ;; ret false
       end
     else ret false);
  if skip : bool then ret tt else writeOwnIface s msg.

(** The same branch in the revision [Serve(ipv6 bool)]. *)
Definition serveBinary6 (ipv6 : bool) (s : sockid) (msg : slice) : M unit :=
  do skip <-
    (if 14 <=? len msg then
       if negb ipv6 then
         setMACFrom s msg ;;
         match Util.GetDestMAC msg with
         | None => panic
         | Some dest =>
             if MACIsUnicast dest then
               do sd <- FindSocketByMAC dest;
               match sd with
               | Some sd =>
                   WriteMessage sd BinaryMessage (sl_data msg) ;; ret true
               | None => ret false
               end
             else BroadcastMessage BinaryMessage (sl_data msg) s ;; ret false
         end
       else BroadcastMessage BinaryMessage (sl_data msg) s ;; ret false
     else ret false);
  if skip : bool then ret tt else writeOwnIface s msg.

(** The end of the text branch: the error is logged if there is one, and
    the [reply] goes out:
    [s.rawSendCommand(commandId, "reply", fmt.Sprintf("%v", err == nil))]. *)
Definition replyTo (s : sockid) (commandId commandName : string) (err : error)
    : M unit :=
  when (bool_decide (err ≠ None)) (emit (Log s (LogCommandError commandName))) ;;
  rawSendCommand s commandId "reply" [Sprintf_v_isnil err] ;;
  ret tt.

(** The [msgType == websocket.TextMessage] branch of [Serve]. *)
Definition serveText (hs : Handlers) (s : sockid) (msg : slice) : M unit :=
  let str := Split (string_of_list_byte (sl_data msg)) "|" in
  if length str <? 2 then emit (Log s LogInvalidCommand)
  else
    let commandId := nth 0 str EmptyString in
    let commandName := nth 1 str EmptyString in
    if String.eqb commandName "reply" then
      let commandResult :=
        if 2 <? length str then nth 2 str EmptyString else "N/A"%string in
      emit (Log s (LogReply commandId commandResult))
    else
      do err <-
        match hs s commandName with
        | None => ret (Some "Unknown command"%string)
        | Some handler => handler (drop 2 str)
        end;
      replyTo s commandId commandName err.

(** One iteration of the read loop of [Serve]. *)
Definition serveStep (hs : Handlers) (s : sockid) (r : ReadResult)
    : M loopctl :=
  match r with
  | ReadErr unexpected =>
      when unexpected (emit (Log s LogWsReadError)) ;; ret Return
  | ReadOk BinaryMessage msg => serveBinary s msg ;; ret Continue
  | ReadOk TextMessage msg => serveText hs s msg ;; ret Continue
  | ReadOk _ _ => ret Continue
  end.

(** The read loop over the successive results of [ReadMessage]; it ends
    with [Continue] when it is left waiting for the next message. *)
Fixpoint serveLoop (hs : Handlers) (s : sockid) (reads : list ReadResult)
    : M loopctl :=
  match reads with
  | [] => ret Continue
  | r :: reads' =>
      do c <- serveStep hs s r;
      match c with
      | Return => ret Return
      | Continue => serveLoop hs s reads'
      end
  end.

(** The goroutine: the loop, and the deferred [closeDone] once it returns. *)
Definition readPump (hs : Handlers) (s : sockid) (reads : list ReadResult)
    : M loopctl :=
  do c <- serveLoop hs s reads;
  match c with
  | Return => closeDone s ;; ret Return
  | Continue => ret Continue
  end.

(** The part of [Serve] that runs in the caller: the wait-group counts for
    the goroutines it starts and the entry in [allSockets]. *)
Definition Serve (s : sockid) : M unit :=
  (do w <- get;
   match iface (sock w s) with
   | None => ret tt
   | Some _ => wg_Add s 1
   end) ;;
  modify (set_allSockets (λ X, {[s]} ∪ X)) ;;
  wg_Add s 1 ;;
  wg_Add s 1.

(** *** [closeDone] at the grain of its statements

    Up to three goroutines of one Endpoint end with a deferred
    [closeDone()].  [s.reaped] is read and written without a lock, so the
    statements of different goroutines interleave.  [Close] runs under
    [writeLock] and is one step. *)

Inductive pc := PcDone | PcClose | PcCheck | PcReap | PcMark | PcEnd.

(** One statement of [closeDone], from the program point [p]. *)
Definition stepCloseDone (s : sockid) (p : pc) : M pc :=
  match p with
  | PcDone => wg_Done s ;; ret PcClose
  | PcClose => Close s ;; ret PcCheck
  | PcCheck =>
      do w <- get;
      if reaper (sock w s) && bool_decide (reaped (sock w s) = false)
      then ret PcReap else ret PcEnd
  | PcReap => (do w <- get; emit (Reap s (clientIP (sock w s)))) ;; ret PcMark
  | PcMark => modify (set_sock s (with_reaped true)) ;; ret PcEnd
  | PcEnd => ret PcEnd
  end.

(** The goroutines of [s] that have reached [closeDone] are a list of
    program points; a schedule names, step by step, the goroutine that
    moves. *)
Fixpoint runSchedule (s : sockid) (sched : list nat) (pcs : list pc)
    : M (list pc) :=
  match sched with
  | [] => ret pcs
  | t :: sched' =>
      match pcs !! t with
      | None => runSchedule s sched' pcs
      | Some p =>
          do p' <- stepCloseDone s p;
          runSchedule s sched' (<[t := p']> pcs)
      end
  end.

(** How often the reap callback of [s] was invoked in a trace. *)
Definition isReap (s : sockid) (e : Event) : bool :=
  match e with Reap s' _ => bool_decide (s' = s) | _ => false end.

Definition reapCount (s : sockid) (tr : list Event) : nat :=
  length (List.filter (isReap s) tr).

(** The messages written to the transport of [v], and the frames written
    to the tunnel interface of [v], in a trace, in order. *)
Definition connWrites (v : sockid) (tr : list Event)
    : list (msgtype * list byte) :=
  flat_map (λ e, match e with
                 | ConnWrite s ty d => if decide (s = v) then [(ty, d)] else []
                 | _ => []
                 end) tr.

Definition ifaceWrites (v : sockid) (tr : list Event) : list (list byte) :=
  flat_map (λ e, match e with
                 | IfaceWrite s d => if decide (s = v) then [d] else []
                 | _ => []
                 end) tr.

(** How often the closing signal of [s] was given in a trace. *)
Definition isChanClose (s : sockid) (e : Event) : bool :=
  match e with ChanClose s' => bool_decide (s' = s) | _ => false end.

Definition chanCloseCount (s : sockid) (tr : list Event) : nat :=
  length (List.filter (isChanClose s) tr).

(* ===================================================================== *)
(** ** cmd_server.go: the address pool *)
(* ===================================================================== *)

Module Server.

(** [type connection struct] *)
Record connection := MkConnection {
  localIP : string; remoteIP : string; name : string
}.

(** [net.IPNet] *)
Record IPNet := MkIPNet { IP : list byte; Mask : list byte }.

(** The fields of [serverCmd] the pool uses, and the package variables
    [ip] and [subnet] that [net.ParseCIDR] filled in.  A key of
    [assigned] bound to [None] is a key holding a nil pointer. *)
Record serverCmd := MkServerCmd {
  assigned : gmap string (option connection);
  Config : gmap string string;
  serverIP : string;
  ip : list byte;
  subnet : IPNet
}.

Definition byte_and (a b : byte) : byte :=
  default x00 (Byte.of_N (N.land (Byte.to_N a) (Byte.to_N b))).

(** [b++] on a [byte]: wraps from 255 to 0. *)
Definition byte_inc (b : byte) : byte :=
  default x00 (Byte.of_N ((Byte.to_N b + 1) mod 256)).

Definition v4InV6Prefix : list byte :=
  [x00;x00;x00;x00;x00;x00;x00;x00;x00;x00;xff;xff].

(** [ip.To4()] as [Contains] uses it: the 4-byte form when there is one. *)
Definition To4 (a : list byte) : list byte :=
  if bool_decide (length a = 16 ∧ take 12 a = v4InV6Prefix) then drop 12 a
  else a.

(** [func (ip IP) Mask(mask IPMask) IP]; [None] is the nil result. *)
Definition IPMask (a mask : list byte) : option (list byte) :=
  let mask := if bool_decide (length mask = 16 ∧ length a = 4 ∧
                              take 12 mask = replicate 12 xff)
              then drop 12 mask else mask in
  let a := if bool_decide (length mask = 4 ∧ length a = 16 ∧
                           take 12 a = v4InV6Prefix)
           then drop 12 a else a in
  if bool_decide (length a = length mask)
  then Some (zip_with byte_and a mask) else None.

(** [func (n *IPNet) Contains(ip IP) bool], for a network whose address
    and mask have the same length, as [net.ParseCIDR] returns them. *)
Definition Contains (n : IPNet) (a : list byte) : bool :=
  let a := To4 a in
  bool_decide (length a = length (IP n)) &&
  bool_decide (zip_with byte_and (IP n) (Mask n) = zip_with byte_and a (Mask n)).

(** [func incIP(ip net.IP)]: from the last byte down, increment and stop
    at the first byte that did not wrap. *)
Fixpoint incIP_from_last (r : list byte) : list byte :=
  match r with
  | [] => []
  | b :: r' =>
      if bool_decide (byte_inc b = x00) then x00 :: incIP_from_last r'
      else byte_inc b :: r'
  end.

Definition incIP (a : list byte) : list byte :=
  rev (incIP_from_last (rev a)).

(** [ip.String()] of a 4-byte address. *)
Definition IPString (a : list byte) : string :=
  Join (map (λ b, Sprintf_d (Byte.to_N b)) a) ".".

(** [strings.HasSuffix(s, suffix)] *)
Definition HasSuffix (s suffix : string) : bool :=
  let n := String.length s in
  let m := String.length suffix in
  (m <=? n) && String.eqb (substring (n - m) m s) suffix.

(** [p.Config.Get(name)]: the empty string when the key is absent. *)
Definition ConfigGet (p : serverCmd) (key : string) : string :=
  default EmptyString (Config p !! key).

(** [p.assigned[k]]: [nil] for an absent key as for a nil entry. *)
Definition assignedAt (p : serverCmd) (k : string) : option connection :=
  default None (assigned p !! k).

Definition set_assigned (k : string) (c : option connection)
    (p : serverCmd) : serverCmd :=
  {| assigned := <[k := c]> (assigned p); Config := Config p;
     serverIP := serverIP p; ip := ip p; subnet := subnet p |}.

Definition set_serverIP (s : string) (p : serverCmd) : serverCmd :=
  {| assigned := assigned p; Config := Config p;
     serverIP := s; ip := ip p; subnet := subnet p |}.

(** An upper bound on the addresses of a subnet: two to the number of
    zero bits of its mask.  A loop that walks the subnet from its first
    address leaves it within that many increments. *)
Definition zeroBits (b : byte) : nat :=
  length (List.filter (λ i, negb (N.testbit (Byte.to_N b) i))
            [0;1;2;3;4;5;6;7]%N).

Definition subnetSize (n : IPNet) : nat :=
  2 ^ list_sum (map zeroBits (Mask n)).

(** What [pickIP] returns: the address, or the error. *)
Inductive picked := Picked (addr : string) | OutOfAddresses.

(** The loop of [pickIP]:
    [for ip := ...; subnet.Contains(ip); incIP(ip)].  [None] when the
    loop is still running after [fuel] iterations. *)
Fixpoint pickLoop (fuel : nat) (nm remote : string) (a : list byte)
    (p : serverCmd) : option (picked * serverCmd) :=
  if Contains (subnet p) a then
    match fuel with
    | O => None
    | S fuel' =>
        let s := IPString a in
        if HasSuffix s ".0" then pickLoop fuel' nm remote (incIP a) p
        else if bool_decide (assignedAt p s = None) then
          Some (Picked s,
                set_assigned s (Some (MkConnection s remote nm)) p)
        else pickLoop fuel' nm remote (incIP a) p
    end
  else Some (OutOfAddresses, p).

(** [func (p *serverCmd) pickIP(name string, remote string) (string, error)] *)
Definition pickIP (nm remote : string) (p : serverCmd)
    : option (picked * serverCmd) :=
  let fixed := ConfigGet p ("host_" +:+ nm) in
  if negb (String.eqb fixed EmptyString)
     && bool_decide (assignedAt p fixed = None)
  then Some (Picked fixed,
             set_assigned fixed (Some (MkConnection fixed remote nm)) p)
  else
    match IPMask (ip p) (Mask (subnet p)) with
    | None => Some (OutOfAddresses, p)
    | Some a => pickLoop (subnetSize (subnet p)) nm remote a p
    end.

(** The loop of [Execute] that marks every address of the range as free
    and binds the first one to the server. *)
Fixpoint initLoop (fuel : nat) (a : list byte) (p : serverCmd)
    : option serverCmd :=
  if Contains (subnet p) a then
    match fuel with
    | O => None
    | S fuel' =>
        let s := IPString a in
        if HasSuffix s ".0" then initLoop fuel' (incIP a) p
        else
          let p := set_assigned s None p in
          let p :=
            if String.eqb (serverIP p) EmptyString
            then set_assigned s
                   (Some (MkConnection s s "vpn-server"))
                   (set_serverIP s p)
            else p in
          initLoop fuel' (incIP a) p
    end
  else Some p.

(** [p.assigned = make(map[string]*connection)] and the loop. *)
Definition initPool (p : serverCmd) : option serverCmd :=
  let p := {| assigned := ∅; Config := Config p; serverIP := serverIP p;
              ip := ip p; subnet := subnet p |} in
  match IPMask (ip p) (Mask (subnet p)) with
  | None => Some p
  | Some a => initLoop (subnetSize (subnet p)) a p
  end.

(** The reaper that [serveWs] hands to [MakeSocket], up to the call of
    [refreshPeers]: [if p.assigned[x] != nil { p.assigned[x] = nil }]. *)
Definition release (x : string) (p : serverCmd) : serverCmd :=
  if bool_decide (assignedAt p x ≠ None) then set_assigned x None p else p.

(** What [net.ParseCIDR("10.0.0.0/30")] yields: the address in 16-byte
    form, the network with a 4-byte address and mask. *)
Definition cidr_10_0_0_0_30 : list byte * IPNet :=
  (v4InV6Prefix ++ [x0a; x00; x00; x00],
   MkIPNet [x0a; x00; x00; x00] [xff; xff; xff; xfc]).

(** The server as [Execute] has it before the pool is set up, for the
    subnet 10.0.0.0/30 and a configuration [cfg]. *)
Definition server30 (cfg : gmap string string) : serverCmd :=
  {| assigned := ∅; Config := cfg; serverIP := EmptyString;
     ip := fst cidr_10_0_0_0_30; subnet := snd cidr_10_0_0_0_30 |}.

End Server.

(* ===================================================================== *)
(** ** Invariants and summaries *)
(* ===================================================================== *)

(** [closechanopen] guards [close(s.closechan)]: the flag is set exactly
    while the channel is open.  [MakeSocket] establishes this, every method
    keeps it. *)
Definition chanGuard (k : Socket) : Prop :=
  closechanopen k = true ↔ closechan k = ChanOpen.

(** [w'] has a tunnel interface bound exactly where [w] has. *)
Definition sameIfaces (w w' : World) : Prop :=
  ∀ v, iface (sock w' v) = None ↔ iface (sock w v) = None.

(** What [WriteMessage] returns and leaves behind (see [WriteMessage_eq]). *)
Definition writable (k : Socket) : bool :=
  conn_up (conn k) && negb (conn_closed (conn k)).

Definition chanGuarded (w : World) : Prop := ∀ v, chanGuard (sock w v).

(** Every entry of the switching table is filed under the address its
    Endpoint has learned, and never under the unlearned value. *)
Definition tableOwned (w : World) : Prop :=
  ∀ m v, macTable w !! m = Some v → mac (sock w v) = m ∧ m ≠ defaultMac.

(** The socket, the shared state and the trace that [Close] leaves behind
    (see [Close_eq]). *)
Definition closedSocket (k : Socket) : Socket :=
  {| clientIP := clientIP k;
     conn := MkConn (conn_up (conn k)) true;
     iface := match iface k with
              | Some _ => Some (MkInterface true) | None => None end;
     wg := wg k;
     closechan := if closechanopen k then ChanClosed else closechan k;
     closechanopen := false;
     mac := defaultMac; reaper := reaper k; reaped := reaped k |}.

Definition closedWorld (s : sockid) (w : World) : World :=
  {| socks := <[s := closedSocket (sock w s)]> (socks w);
     macTable := if decide (mac (sock w s) ≠ defaultMac)
                 then delete (mac (sock w s)) (macTable w) else macTable w;
     allSockets := allSockets w ∖ {[s]};
     lastCommandID := lastCommandID w |}.

Definition closeTrace (s : sockid) (w : World) : list Event :=
  ConnClose s ::
  (match iface (sock w s) with Some _ => [IfaceClose s] | None => [] end) ++
  (if closechanopen (sock w s) then [ChanClose s] else []).

(* ===================================================================== *)
(** ** Concrete scenarios *)
(* ===================================================================== *)

(** No command handlers registered. *)
Definition noHandlers : Handlers := λ _ _, None.

Definition macA : MacAddr := [x02; x00; x00; x00; x00; x01].
Definition macB : MacAddr := [x02; x00; x00; x00; x00; x02].
Definition macC : MacAddr := [x02; x00; x00; x00; x00; x09].

(** An Ethernet frame of 14 bytes: destination, source, EtherType 0x0800. *)
Definition frame (dest src : MacAddr) : slice :=
  bytes (dest ++ src ++ [x08; x00]).

(** A relay with two serving Endpoints, both with a live transport and a
    tunnel interface; Endpoint 1 has learned [macA], Endpoint 2 [macB]. *)
Definition twoEndpoints : World :=
  {| socks :=
       <[1 := with_mac macA
                (with_wg 3 (MakeSocket "10.0.0.2" (MkConn true false)
                              (Some (MkInterface false)) true))]>
       (<[2 := with_mac macB
                (with_wg 3 (MakeSocket "10.0.0.3" (MkConn true false)
                              (Some (MkInterface false)) true))]> ∅);
     macTable := <[macA := 1]> (<[macB := 2]> ∅);
     allSockets := {[1; 2]};
     lastCommandID := 0%N |}.

(* ===================================================================== *)
(** ** The rest of the Endpoint: construction, binding, the other pumps *)
(* ===================================================================== *)

(** [MakeSocket] as a step on the shared state: the new struct lives at an
    address nothing points to yet. *)
Definition newSocket (ip : string) (c : Conn) (i : option Interface)
    (fn : bool) : M sockid :=
  do w <- get;
  let s := fresh (dom (socks w)) in
  modify (λ w, {| socks := <[s := MakeSocket ip c i fn]> (socks w);
                  macTable := macTable w; allSockets := allSockets w;
                  lastCommandID := lastCommandID w |}) ;;
  ret s.

(** [func (s *Socket) tryServeIfaceRead()], the part that runs in the
    caller: one more goroutine to wait for when an interface is bound. *)
Definition tryServeIfaceRead (s : sockid) : M unit :=
  do w <- get;
  match iface (sock w s) with
  | None => ret tt
  | Some _ => wg_Add s 1
  end.

(** [func (s *Socket) SetInterface(iface *water.Interface) error] *)
Definition SetInterface (s : sockid) (i : Interface) : M error :=
  do w <- get;
  match iface (sock w s) with
  | Some _ => ret (Some "cannot re-define interface. Already set"%string)
  | None =>
      modify (set_sock s (with_iface (Some i))) ;;
      tryServeIfaceRead s ;;
      ret None
  end.

(** [func (s *Socket) Wait()] returns once the counter is zero. *)
Definition waitReturns (w : World) (s : sockid) : bool :=
  bool_decide (wg (sock w s) = 0).

(** What [s.iface.Read(packet)] returns: an error, or the [n] bytes it put
    at the start of the 2000-byte buffer, [packet[:n]]. *)
Inductive IfaceRead :=
  | IfaceReadErr
  | IfaceReadOk (data : list byte).

(** The loop of the goroutine of [tryServeIfaceRead] over the successive
    results of [s.iface.Read]. *)
Fixpoint ifaceLoop (s : sockid) (reads : list IfaceRead) : M loopctl :=
  match reads with
  | [] => ret Continue
  | IfaceReadErr :: _ => emit (Log s LogTunReadError) ;; ret Return
  | IfaceReadOk data :: reads' =>
      do err <- WriteMessage s BinaryMessage data;
      match err with
      | Some _ => ret Return
      | None => ifaceLoop s reads'
      end
  end.

(** The goroutine: the loop, and the deferred [closeDone]. *)
Definition ifacePump (s : sockid) (reads : list IfaceRead) : M loopctl :=
  do c <- ifaceLoop s reads;
  match c with
  | Return => closeDone s ;; ret Return
  | Continue => ret Continue
  end.

(** What the [select] of the keepalive goroutine takes next: the timer,
    at a reading of the clock in nanoseconds, or the closed [closechan].
    The pong handler, which runs between two of them, moves
    [lastResponse]. *)
Inductive KeepaliveEvent :=
  | Tick (now : Z)
  | Pong (now : Z)
  | Closing.

(** [timeout := time.Duration(30) * time.Second] *)
Definition keepaliveTimeout : Z := 30 * 1000000000.

(** The loop of the keepalive goroutine of [Serve]. *)
Fixpoint keepaliveLoop (s : sockid) (lastResponse : Z)
    (events : list KeepaliveEvent) : M loopctl :=
  match events with
  | [] => ret Continue
  | Pong now :: events' => keepaliveLoop s now events'
  | Closing :: _ => ret Return
  | Tick now :: events' =>
      if (keepaliveTimeout <? now - lastResponse)%Z
      then emit (Log s LogPingTimeout) ;; ret Return
      else
        do err <- WriteMessage s PingMessage [];
        match err with
        | Some _ => ret Return
        | None => keepaliveLoop s lastResponse events'
        end
  end.

Definition keepalivePump (s : sockid) (lastResponse : Z)
    (events : list KeepaliveEvent) : M loopctl :=
  do c <- keepaliveLoop s lastResponse events;
  match c with
  | Return => closeDone s ;; ret Return
  | Continue => ret Continue
  end.

(** ** cmd_server.go: peers *)

(** The tab between address and name in a peer entry. *)
Definition tab : ascii := "009"%char.

(** [fmt.Sprintf("%s\t%s", client.localIP, client.name)] *)
Definition peerEntry (c : Server.connection) : string :=
  Server.localIP c +:+ String tab (Server.name c).

(** The [connected] list of [refreshPeers]: an entry for every record of
    [p.assigned] that is not nil, in the order the map is ranged over. *)
Definition connectedPeers (p : Server.serverCmd) : list string :=
  omap (λ kv, peerEntry <$> snd kv) (map_to_list (Server.assigned p)).

(** [func (p *serverCmd) refreshPeers(socket shared.Socket) error] *)
Definition refreshPeers (p : Server.serverCmd) : M error :=
  BroadcastCommand "update-peers" (connectedPeers p) ;; ret None.

(** The handlers [serveWs] registers on a socket: [refresh-peers] alone. *)
Definition serverHandlers (p : Server.serverCmd) : Handlers :=
  λ _ command,
    if String.eqb command "refresh-peers"
    then Some (λ _, refreshPeers p) else None.

(** The fields the [update-peers] handler of the client takes from one
    entry: [out := strings.Split(ent, "\t")], then [out[1]] and [out[0]];
    [None] where [out[1]] is out of range. *)
Definition parsePeer (ent : string) : option (string * string) :=
  match Split ent tab with
  | ip :: name :: _ => Some (name, ip)
  | _ => None
  end.

(** ** Observations used by the further properties *)

(** An event that writes, writes the frame [d]: as a binary message when it
    goes to a transport. *)
Definition carriesFrame (d : list byte) (e : Event) : Prop :=
  match e with
  | ConnWrite _ ty d' => ty = BinaryMessage ∧ d' = d
  | IfaceWrite _ d' => d' = d
  | _ => True
  end.

(** An event that writes nothing, neither to a transport nor to a tunnel
    interface. *)
Definition writesNothing (e : Event) : Prop :=
  match e with
  | ConnWrite _ _ _ | IfaceWrite _ _ => False
  | _ => True
  end.

(** Every timer tick of the list comes no later than 30 seconds after the
    acknowledgement before it, and [closechan] is never taken. *)
Fixpoint ticksInTime (lastResponse : Z) (events : list KeepaliveEvent)
    : bool :=
  match events with
  | [] => true
  | Pong now :: events' => ticksInTime now events'
  | Tick now :: events' =>
      (now - lastResponse <=? keepaliveTimeout)%Z
      && ticksInTime lastResponse events'
  | Closing :: _ => false
  end.

Definition isTick (e : KeepaliveEvent) : bool :=
  match e with Tick _ => true | _ => false end.

(** How often the byte [c] occurs in [s]. *)
Fixpoint countByte (c : ascii) (s : string) : nat :=
  match s with
  | EmptyString => 0
  | String a s' => (if Ascii.eqb a c then 1 else 0) + countByte c s'
  end.

(** ** Observations on addresses *)

(** The number a list of bytes stands for, least significant byte first,
    and an address as a number, most significant byte first. *)
Fixpoint leValue (r : list byte) : N :=
  match r with
  | [] => 0
  | b :: r' => Byte.to_N b + 256 * leValue r'
  end.

Definition ipValue (a : list byte) : N := leValue (rev a).

(** ** Every way the shared state can change *)

(** The invariants together; the command counter is a [uint64]. *)
Definition invariants (w : World) : Prop :=
  chanGuarded w ∧ tableOwned w ∧ (lastCommandID w < 2 ^ 64)%N.

(** A computation that, when it returns, returns in a state that satisfies
    the invariants if it started in one. *)
Definition preserves {A} (m : M A) : Prop :=
  ∀ w a w' tr, invariants w → m w = Ok a w' tr → invariants w'.

Definition handlersPreserve (hs : Handlers) : Prop :=
  ∀ s command handler args,
    hs s command = Some handler → preserves (handler args).

(** What can happen to the shared state: the exported functions of the
    package, the three goroutines of an Endpoint fed with what they read,
    and a transport that goes down. *)
Inductive Op :=
  | OpMakeSocket (ip : string) (c : Conn) (i : option Interface) (fn : bool)
  | OpServe (s : sockid)
  | OpSetInterface (s : sockid) (i : Interface)
  | OpClose (s : sockid)
  | OpWriteMessage (s : sockid) (ty : msgtype) (data : list byte)
  | OpBroadcastMessage (ty : msgtype) (data : list byte) (skip : sockid)
  | OpSendCommand (s : sockid) (command : string) (args : list string)
  | OpBroadcastCommand (command : string) (args : list string)
  | OpReadPump (s : sockid) (reads : list ReadResult)
  | OpIfacePump (s : sockid) (reads : list IfaceRead)
  | OpKeepalivePump (s : sockid) (lastResponse : Z)
      (events : list KeepaliveEvent)
  | OpConnDown (s : sockid).

Definition runOp (hs : Handlers) (o : Op) : M unit :=
  match o with
  | OpMakeSocket ip c i fn => newSocket ip c i fn ;; ret tt
  | OpServe s => Serve s
  | OpSetInterface s i => SetInterface s i ;; ret tt
  | OpClose s => Close s
  | OpWriteMessage s ty data => WriteMessage s ty data ;; ret tt
  | OpBroadcastMessage ty data skip => BroadcastMessage ty data skip
  | OpSendCommand s command args => SendCommand s command args ;; ret tt
  | OpBroadcastCommand command args => BroadcastCommand command args ;; ret tt
  | OpReadPump s reads => readPump hs s reads ;; ret tt
  | OpIfacePump s reads => ifacePump s reads ;; ret tt
  | OpKeepalivePump s lastResponse events =>
      keepalivePump s lastResponse events ;; ret tt
  | OpConnDown s =>
      modify (set_sock s (λ k, with_conn (MkConn false (conn_closed (conn k))) k))
  end.

Definition runOps (hs : Handlers) (ops : list Op) : M unit :=
  forEach ops (runOp hs).

(** ** Walking a subnet *)

(** Every value of a byte, for properties settled by running through them. *)
Definition allBytes : list byte :=
  map (λ n, default x00 (Byte.of_N (N.of_nat n))) (seq 0 256).

(** The value of the lowest bit that is set in a byte of a mask. *)
Definition lowestBit (m : byte) : nat :=
  match find (λ i, N.testbit (Byte.to_N m) (N.of_nat i)) (seq 0 8) with
  | Some t => 2 ^ t
  | None => 0
  end.

(** ** [closeDone] with the callback *)

(** [type reap func(Socket, string)], the callback handed to [MakeSocket]
    ([func(string)] in the earlier revision): it is called with the
    Endpoint and its [clientIP], and may act on the shared state, as the
    one of the server does, which tells every peer. *)
Definition Reaper : Type := sockid → string → M unit.

(** The [if] of [closeDone]: the callback is invoked when there is one
    and it was not invoked before; [s.reaped] is set once it has
    returned. *)
Definition invokeReaper (reap : Reaper) (s : sockid) : M unit :=
  do w <- get;
  if reaper (sock w s) && bool_decide (reaped (sock w s) = false)
  then emit (Reap s (clientIP (sock w s))) ;;
       reap s (clientIP (sock w s)) ;;
       modify (set_sock s (with_reaped true))
  else ret tt.

(** [func (s *Socket) closeDone()], the callback run where it is invoked.
    [closeDone] above is the case of a callback that leaves the shared
    state alone. *)
Definition closeDoneWith (reap : Reaper) (s : sockid) : M unit :=
  wg_Done s ;;
  Close s ;;
  invokeReaper reap s.

(** The three goroutines of an Endpoint, each with its deferred
    [closeDone]. *)
Definition readPumpWith (reap : Reaper) (hs : Handlers) (s : sockid)
    (reads : list ReadResult) : M loopctl :=
  do c <- serveLoop hs s reads;
  match c with
  | Return => closeDoneWith reap s ;; ret Return
  | Continue => ret Continue
  end.

Definition ifacePumpWith (reap : Reaper) (s : sockid)
    (reads : list IfaceRead) : M loopctl :=
  do c <- ifaceLoop s reads;
  match c with
  | Return => closeDoneWith reap s ;; ret Return
  | Continue => ret Continue
  end.

Definition keepalivePumpWith (reap : Reaper) (s : sockid) (lastResponse : Z)
    (events : list KeepaliveEvent) : M loopctl :=
  do c <- keepaliveLoop s lastResponse events;
  match c with
  | Return => closeDoneWith reap s ;; ret Return
  | Continue => ret Continue
  end.

(** ** Ranging over a map in the order the runtime picks *)

(** Go fixes no order for [range] over a map.  [BroadcastCommand] for the
    order [targetList] in which its first loop has collected the
    Endpoints of [allSockets]: the second loop. *)
Definition BroadcastCommandIn (targetList : list sockid) (command : string)
    (args : list string) : M error :=
  forEach targetList (λ v, SendCommand v command args ;; ret tt) ;;
  ret None.

(** The [connected] list of [refreshPeers] for the order [clients] in
    which the range over [p.assigned] yields the records: an entry for
    every record that is not nil. *)
Definition connectedFrom (clients : list (option Server.connection))
    : list string :=
  omap (λ client, peerEntry <$> client) clients.

(** [refreshPeers] and the handler of [refresh-peers] for these orders. *)
Definition refreshPeersIn (clients : list (option Server.connection))
    (targetList : list sockid) : M error :=
  BroadcastCommandIn targetList "update-peers" (connectedFrom clients) ;;
  ret None.

Definition serverHandlersIn (clients : list (option Server.connection))
    (targetList : list sockid) : Handlers :=
  λ _ command,
    if String.eqb command "refresh-peers"
    then Some (λ _, refreshPeersIn clients targetList) else None.

(** A pool with two bound records and a free one. *)
Definition poolOfTwo : Server.serverCmd :=
  Server.set_assigned "10.0.0.3" None
    (Server.set_assigned "10.0.0.2"
       (Some (Server.MkConnection "10.0.0.2" "198.51.100.1" "alice"))
       (Server.set_assigned "10.0.0.1"
          (Some (Server.MkConnection "10.0.0.1" "10.0.0.1" "vpn-server"))
          (Server.server30 ∅))).

(* ===================================================================== *)
(** * Properties *)
(* ===================================================================== *)

(** ** The frame classifier *)

Example GetSrcMAC_ex :
  Util.GetSrcMAC (bytes [x01;x02;x03;x04;x05;x06;x0a;x0b;x0c;x0d;x0e;x0f;x08;x00])
  = Some [x0a;x0b;x0c;x0d;x0e;x0f].
Proof. reflexivity. Qed.

Example GetDestMAC_ex :
  Util.GetDestMAC (bytes [x01;x02;x03;x04;x05;x06;x0a;x0b;x0c;x0d;x0e;x0f;x08;x00])
  = Some [x01;x02;x03;x04;x05;x06].
Proof. reflexivity. Qed.

Example MACIsUnicast_ex :
  MACIsUnicast [x02;x00;x00;x00;x00;x01] = true ∧ MACIsUnicast defaultMac = false.
Proof. split; reflexivity. Qed.

Lemma subslice_within (p : slice) (lo hi : nat) :
  lo ≤ hi → hi ≤ len p →
  subslice p lo hi
  = Some (MkSlice (take (hi - lo) (drop lo (sl_data p)))
                  (drop hi (sl_data p ++ sl_spare p))).
Proof.
  intros Hlo Hhi. unfold subslice, cap, len in *.
  assert (Hb : (lo <=? hi) && (hi <=? length (sl_data p) + length (sl_spare p)) = true).
  { apply andb_true_iff; split; apply Nat.leb_le; lia. }
  rewrite Hb. f_equal. f_equal.
  rewrite drop_app_le by lia.
  rewrite take_app_le; [done|]. rewrite length_drop. lia.
Qed.

Lemma copy_into_zeroed_full (n : nat) (d sp : list byte) :
  length d = n → copy_into_zeroed n (MkSlice d sp) = d.
Proof.
  intros Hn. unfold copy_into_zeroed, len. simpl.
  rewrite take_ge by lia. rewrite Hn, Nat.sub_diag. simpl.
  by rewrite app_nil_r.
Qed.

(** In the IPv4 layout a frame of at least 14 bytes yields its bytes 6..11
    as source and 0..5 as destination; no slice expression fails. *)
Lemma GetSrcMAC_in_bounds (p : slice) :
  14 ≤ len p → Util.GetSrcMAC p = Some (take 6 (drop 6 (sl_data p))).
Proof.
  intros H. unfold Util.GetSrcMAC.
  rewrite subslice_within by lia. simpl.
  rewrite copy_into_zeroed_full; [done|].
  rewrite length_take, length_drop. unfold len in H. lia.
Qed.

Lemma GetDestMAC_in_bounds (p : slice) :
  14 ≤ len p → Util.GetDestMAC p = Some (take 6 (sl_data p)).
Proof.
  intros H. unfold Util.GetDestMAC.
  rewrite subslice_within by lia. simpl. rewrite drop_0.
  rewrite copy_into_zeroed_full; [done|].
  rewrite length_take. unfold len in H. lia.
Qed.

(** Both addresses are functions of the first 14 bytes of the frame alone:
    neither the rest of the frame nor the spare capacity behind it is read. *)
Lemma GetMAC_reads_header_only (hdr rest rest' sp sp' : list byte) :
  length hdr = 14 →
  Util.GetSrcMAC (MkSlice (hdr ++ rest) sp)
    = Util.GetSrcMAC (MkSlice (hdr ++ rest') sp') ∧
  Util.GetDestMAC (MkSlice (hdr ++ rest) sp)
    = Util.GetDestMAC (MkSlice (hdr ++ rest') sp').
Proof.
  intros Hh.
  rewrite !GetSrcMAC_in_bounds, !GetDestMAC_in_bounds
    by (unfold len; simpl; rewrite length_app; lia).
  simpl. rewrite !drop_app_le by lia.
  rewrite !(take_app_le hdr) by lia.
  split; [|done].
  rewrite !take_app_le; [done| |]; rewrite length_drop; lia.
Qed.

Lemma MACIsUnicast_not_default (m : MacAddr) :
  MACIsUnicast m = true → m ≠ defaultMac.
Proof. intros H ->. discriminate H. Qed.

(** C4.  In the revision of [util.go] with the IPv6 offsets, a binary
    message of 14 bytes, which the guard [len(msg) >= 14] of [Serve] lets
    through, makes [packet[16:32]] and [packet[0:16]] go beyond the
    message: with no spare capacity behind the message both extractions
    panic, and so does the learning step of any Endpoint; with spare
    capacity the source address is made of bytes that are not part of the
    message. *)
Theorem GetSrcMAC6_reads_beyond_message :
  let msg := bytes (replicate 14 x00) in
  14 ≤ len msg ∧
  Util6.GetSrcMAC msg = None ∧
  Util6.GetDestMAC msg = None ∧
  (∀ s w, setMACFrom6 s msg w = Panic) ∧
  Util6.GetSrcMAC (MkSlice (replicate 14 x00) (replicate 18 x00))
    ≠ Util6.GetSrcMAC (MkSlice (replicate 14 x00) (replicate 18 x01)).
Proof.
  cbv zeta. split; [unfold len, bytes; simpl; lia|].
  split; [reflexivity|]. split; [reflexivity|].
  split; [intros s w; reflexivity|].
  vm_compute. discriminate.
Qed.

(** ** The store *)

Arguments sock : simpl never.
Arguments set_sock : simpl never.
Arguments set_macTable : simpl never.
Arguments set_allSockets : simpl never.
Arguments set_lastCommandID : simpl never.
Arguments closeTrace : simpl never.
Arguments closedWorld : simpl never.

Lemma sock_set_sock (s : sockid) (f : Socket → Socket) (w : World) :
  sock (set_sock s f w) s = f (sock w s).
Proof. unfold sock, set_sock. simpl. apply lookup_total_insert_eq. Qed.

Lemma sock_set_sock_ne (s v : sockid) (f : Socket → Socket) (w : World) :
  s ≠ v → sock (set_sock s f w) v = sock w v.
Proof. intros. unfold sock, set_sock. simpl. by apply lookup_total_insert_ne. Qed.

Lemma sock_set_macTable (f : gmap (list byte) nat → gmap (list byte) nat)
    (w : World) (v : sockid) :
  sock (set_macTable f w) v = sock w v.
Proof. reflexivity. Qed.

Lemma sock_set_allSockets (f : gset nat → gset nat) (w : World) (v : sockid) :
  sock (set_allSockets f w) v = sock w v.
Proof. reflexivity. Qed.

Lemma sock_closedWorld (s : sockid) (w : World) :
  sock (closedWorld s w) s = closedSocket (sock w s).
Proof. unfold sock, closedWorld. simpl. apply lookup_total_insert_eq. Qed.

Lemma sock_closedWorld_ne (s v : sockid) (w : World) :
  s ≠ v → sock (closedWorld s w) v = sock w v.
Proof. intros. unfold sock, closedWorld. simpl. by apply lookup_total_insert_ne. Qed.

(** ** The monad *)

Lemma addTrace_nil {A} (r : Res A) : addTrace [] r = r.
Proof. by destruct r. Qed.

Lemma addTrace_addTrace {A} (t1 t2 : list Event) (r : Res A) :
  addTrace t1 (addTrace t2 r) = addTrace (t1 ++ t2) r.
Proof. destruct r; simpl; [done|]. by rewrite app_assoc. Qed.

Lemma bind_ret {A B} (a : A) (k : A → M B) (w : World) :
  bind (ret a) k w = k a w.
Proof. unfold bind, ret. apply addTrace_nil. Qed.

Lemma bind_get {B} (k : World → M B) (w : World) :
  bind get k w = k w w.
Proof. unfold bind, get. apply addTrace_nil. Qed.

Lemma bind_modify {B} (f : World → World) (k : unit → M B) (w : World) :
  bind (modify f) k w = k tt (f w).
Proof. unfold bind, modify. apply addTrace_nil. Qed.

Lemma bind_emit {B} (e : Event) (k : unit → M B) (w : World) :
  bind (emit e) k w = addTrace [e] (k tt w).
Proof. reflexivity. Qed.

Lemma bind_panic {A B} (k : A → M B) (w : World) :
  bind (panic : M A) k w = Panic.
Proof. reflexivity. Qed.

Lemma bind_bind {A B C} (m : M A) (k : A → M B) (k' : B → M C) (w : World) :
  bind (bind m k) k' w = bind m (λ a, bind (k a) k') w.
Proof.
  unfold bind. destruct (m w) as [|a w1 tr1]; [done|].
  destruct (k a w1) as [|b w2 tr2]; simpl; [done|].
  by rewrite addTrace_addTrace.
Qed.

Lemma bind_Ok {A B} (m : M A) (k : A → M B) (w : World)
    (a : A) (w1 : World) (tr1 : list Event) :
  m w = Ok a w1 tr1 → bind m k w = addTrace tr1 (k a w1).
Proof. intros H. unfold bind. by rewrite H. Qed.

Lemma bind_ext {A B} (m : M A) (k k' : A → M B) (w : World) :
  (∀ a w1, k a w1 = k' a w1) → bind m k w = bind m k' w.
Proof. intros H. unfold bind. destruct (m w); [done|]. by rewrite H. Qed.

Lemma bind_if {A B} (b : bool) (m1 m2 : M A) (k : A → M B) (w : World) :
  bind (if b then m1 else m2) k w = if b then bind m1 k w else bind m2 k w.
Proof. by destruct b. Qed.

(** Runs the straight-line part of a computation. *)
Ltac mrun :=
  repeat first
    [ rewrite bind_bind | rewrite bind_ret | rewrite bind_get
    | rewrite bind_modify | rewrite bind_emit | rewrite bind_panic
    | rewrite sock_set_sock | rewrite addTrace_addTrace
    | progress simpl ].

(** ** [Close] *)

Lemma world_eq (w1 w2 : World) :
  socks w1 = socks w2 → macTable w1 = macTable w2 →
  allSockets w1 = allSockets w2 → lastCommandID w1 = lastCommandID w2 →
  w1 = w2.
Proof. destruct w1, w2. simpl. by intros -> -> -> ->. Qed.

(** [Close] never fails on a socket whose channel flag is sound, and
    does exactly what the summary says. *)
Lemma Close_eq (s : sockid) (w : World) :
  chanGuard (sock w s) →
  Close s w = Ok tt (closedWorld s w) (closeTrace s w).
Proof.
  intros [Hg _].
  unfold Close, conn_Close, close_chan, closeTrace.
  mrun.
  destruct (iface (sock w s)) as [i|] eqn:Hi; mrun.
  all: destruct (closechanopen (sock w s)) eqn:Ho; mrun.
  all: try (rewrite Hg by done; mrun).
  all: destruct (decide (mac (sock w s) ≠ defaultMac)) as [Hm|Hm]; mrun.
  all: unfold ret, modify; simpl; f_equal.
  all: apply world_eq; unfold closedWorld, set_allSockets, set_macTable,
         set_sock; simpl; rewrite ?insert_insert_eq;
         try destruct (decide (mac (sock w s) ≠ defaultMac)); try done.
  all: f_equal; unfold closedSocket; try apply dec_stable in Hm;
       unfold sock in *; rewrite ?lookup_total_insert_eq;
       destruct (socks w !!! s); simpl in *; subst;
       rewrite ?lookup_total_insert_eq; try rewrite Hg by done; try done.
Qed.

Lemma chanGuard_closedSocket (k : Socket) :
  chanGuard k → chanGuard (closedSocket k).
Proof.
  unfold chanGuard, closedSocket. simpl. intros [H1 H2].
  split; [done|]. destruct (closechanopen k); [done|].
  intros Hc. by apply H2.
Qed.

Lemma chanGuarded_closedWorld (s : sockid) (w : World) :
  chanGuarded w → chanGuarded (closedWorld s w).
Proof.
  intros Hg v. destruct (decide (s = v)) as [->|Hne].
  - rewrite sock_closedWorld. apply chanGuard_closedSocket, Hg.
  - rewrite sock_closedWorld_ne by done. apply Hg.
Qed.

Lemma tableOwned_closedWorld (s : sockid) (w : World) :
  tableOwned w → tableOwned (closedWorld s w).
Proof.
  intros Ht m v Hl. unfold closedWorld in Hl. simpl in Hl.
  assert (Hw : macTable w !! m = Some v ∧
               (mac (sock w s) ≠ defaultMac → m ≠ mac (sock w s))).
  { destruct (decide (mac (sock w s) ≠ defaultMac)) as [Hm|Hm].
    - apply lookup_delete_Some in Hl as [Hne Hl]. split; [done|]. by intros _ ->.
    - split; [done|]. by intros ?. }
  destruct Hw as [Hl' Hne]. destruct (Ht _ _ Hl') as [Hmac Hd].
  split; [|done].
  destruct (decide (s = v)) as [->|Hsv].
  - exfalso. rewrite Hmac in Hne. by apply Hne.
  - by rewrite sock_closedWorld_ne.
Qed.

Lemma sameIfaces_closedWorld (s : sockid) (w : World) :
  sameIfaces w (closedWorld s w).
Proof.
  intros v. destruct (decide (s = v)) as [->|Hne].
  - rewrite sock_closedWorld. unfold closedSocket. simpl.
    by destruct (iface (sock w v)).
  - by rewrite sock_closedWorld_ne.
Qed.

Lemma sameIfaces_refl (w : World) : sameIfaces w w.
Proof. by intros v. Qed.

Lemma sameIfaces_trans (w1 w2 w3 : World) :
  sameIfaces w1 w2 → sameIfaces w2 w3 → sameIfaces w1 w3.
Proof. intros H12 H23 v. etrans; [apply H23 | apply H12]. Qed.

(** A closed socket holds no table entry, has forgotten its address and
    has left the set of serving Endpoints. *)
Lemma closedWorld_released (s : sockid) (w : World) :
  tableOwned w →
  (∀ m, macTable (closedWorld s w) !! m ≠ Some s) ∧
  mac (sock (closedWorld s w) s) = defaultMac ∧
  s ∉ allSockets (closedWorld s w).
Proof.
  intros Ht. split; [|split].
  - intros m Hl.
    destruct (tableOwned_closedWorld s w Ht m s Hl) as [Hmac Hd].
    rewrite sock_closedWorld in Hmac. simpl in Hmac. congruence.
  - by rewrite sock_closedWorld.
  - change (s ∉ allSockets w ∖ {[s]}).
    rewrite elem_of_difference, elem_of_singleton. by intros [_ ?].
Qed.

Lemma socks_closedWorld (s : sockid) (w : World) :
  socks (closedWorld s w) = <[s := closedSocket (sock w s)]> (socks w).
Proof. reflexivity. Qed.

Lemma macTable_closedWorld (s : sockid) (w : World) :
  macTable (closedWorld s w)
  = if decide (mac (sock w s) ≠ defaultMac)
    then delete (mac (sock w s)) (macTable w) else macTable w.
Proof. reflexivity. Qed.

Lemma allSockets_closedWorld (s : sockid) (w : World) :
  allSockets (closedWorld s w) = allSockets w ∖ {[s]}.
Proof. reflexivity. Qed.

Lemma closedSocket_idemp (k : Socket) :
  closedSocket (closedSocket k) = closedSocket k.
Proof. unfold closedSocket. simpl. by destruct (iface k). Qed.

(** Closing what is closed changes nothing. *)
Lemma closedWorld_idemp (s : sockid) (w : World) :
  closedWorld s (closedWorld s w) = closedWorld s w.
Proof.
  apply world_eq.
  - rewrite (socks_closedWorld s (closedWorld s w)), sock_closedWorld.
    rewrite closedSocket_idemp, socks_closedWorld. apply insert_insert_eq.
  - rewrite (macTable_closedWorld s (closedWorld s w)), sock_closedWorld.
    simpl. by destruct (decide (defaultMac ≠ defaultMac)).
  - rewrite !allSockets_closedWorld. apply set_eq. intros v.
    rewrite !elem_of_difference. tauto.
  - reflexivity.
Qed.

(** ** Observations on traces *)

Lemma connWrites_app (v : sockid) (t1 t2 : list Event) :
  connWrites v (t1 ++ t2) = connWrites v t1 ++ connWrites v t2.
Proof. apply flat_map_app. Qed.

Lemma ifaceWrites_app (v : sockid) (t1 t2 : list Event) :
  ifaceWrites v (t1 ++ t2) = ifaceWrites v t1 ++ ifaceWrites v t2.
Proof. apply flat_map_app. Qed.

Lemma chanCloseCount_app (v : sockid) (t1 t2 : list Event) :
  chanCloseCount v (t1 ++ t2) = chanCloseCount v t1 + chanCloseCount v t2.
Proof. unfold chanCloseCount. by rewrite List.filter_app, length_app. Qed.

Lemma reapCount_app (v : sockid) (t1 t2 : list Event) :
  reapCount v (t1 ++ t2) = reapCount v t1 + reapCount v t2.
Proof. unfold reapCount. by rewrite List.filter_app, length_app. Qed.

Lemma closeTrace_no_writes (s v : sockid) (w : World) :
  connWrites v (closeTrace s w) = [] ∧ ifaceWrites v (closeTrace s w) = [].
Proof.
  unfold closeTrace.
  destruct (iface (sock w s)), (closechanopen (sock w s)); done.
Qed.

Lemma closeTrace_chanCloseCount (s : sockid) (w : World) :
  chanCloseCount s (closeTrace s w)
  = if closechanopen (sock w s) then 1 else 0.
Proof.
  unfold closeTrace, chanCloseCount.
  destruct (iface (sock w s)), (closechanopen (sock w s)); simpl;
    rewrite ?bool_decide_eq_true_2 by done; done.
Qed.

Lemma closeTrace_no_reap (s v : sockid) (w : World) :
  reapCount v (closeTrace s w) = 0.
Proof.
  unfold closeTrace, reapCount.
  destruct (iface (sock w s)), (closechanopen (sock w s)); done.
Qed.

(** ** [WriteMessage] and [BroadcastMessage] *)

(** One write to the transport; if it fails the Endpoint is closed. *)
Lemma WriteMessage_eq (s : sockid) (ty : msgtype) (data : list byte)
    (w : World) :
  chanGuard (sock w s) →
  WriteMessage s ty data w
  = if writable (sock w s)
    then Ok None w [ConnWrite s ty data]
    else Ok (Some "write failed"%string) (closedWorld s w)
            (ConnWrite s ty data :: Log s LogWriteError :: closeTrace s w).
Proof.
  intros Hg. unfold WriteMessage, writable. mrun.
  destruct (conn_up (conn (sock w s)) && negb (conn_closed (conn (sock w s)))).
  - reflexivity.
  - mrun. rewrite (bind_Ok _ _ _ _ _ _ (Close_eq s w Hg)). mrun.
    unfold ret. simpl. by rewrite app_nil_r.
Qed.

(** What a write leaves behind: the invariants, the interfaces, the set of
    serving Endpoints up to the written one, and in the trace the one
    message on the transport of [s]. *)
Lemma WriteMessage_spec (s : sockid) (ty : msgtype) (data : list byte)
    (w : World) :
  chanGuarded w →
  ∃ err w' tr,
    WriteMessage s ty data w = Ok err w' tr ∧
    chanGuarded w' ∧ (tableOwned w → tableOwned w') ∧ sameIfaces w w' ∧
    (∀ v, connWrites v tr = if decide (v = s) then [(ty, data)] else []) ∧
    (∀ v, ifaceWrites v tr = []).
Proof.
  intros Hg. rewrite WriteMessage_eq by apply Hg.
  destruct (writable (sock w s)).
  - eexists _, _, _. split; [reflexivity|].
    split; [done|]. split; [done|]. split; [apply sameIfaces_refl|].
    split; intros v; simpl; [|done].
    destruct (decide (s = v)) as [->|Hne]; [by rewrite decide_True|].
    by rewrite decide_False by done.
  - eexists _, _, _. split; [reflexivity|].
    split; [by apply chanGuarded_closedWorld|].
    split; [by apply tableOwned_closedWorld|].
    split; [apply sameIfaces_closedWorld|].
    destruct (iface (sock w s)) eqn:Hi, (closechanopen (sock w s)) eqn:Ho;
      unfold closeTrace; rewrite Hi, Ho; simpl.
    all: split; intros v; [|done].
    all: destruct (decide (s = v)) as [->|Hne];
           [by rewrite decide_True | by rewrite decide_False by done].
Qed.

(** Writing to each Endpoint of a duplicate-free list: every one of them
    gets the message once, nobody else gets anything. *)
Lemma forEach_WriteMessage (ty : msgtype) (data : list byte)
    (l : list sockid) (w : World) :
  chanGuarded w → NoDup l →
  ∃ w' tr,
    forEach l (λ v, WriteMessage v ty data ;; ret tt) w = Ok tt w' tr ∧
    chanGuarded w' ∧ (tableOwned w → tableOwned w') ∧ sameIfaces w w' ∧
    (∀ v, connWrites v tr = if decide (v ∈ l) then [(ty, data)] else []) ∧
    (∀ v, ifaceWrites v tr = []).
Proof.
  intros Hg Hnd. revert w Hg.
  induction l as [|x l IH]; intros w Hg.
  - exists w, []. split; [reflexivity|].
    split; [done|]. split; [done|]. split; [apply sameIfaces_refl|].
    split; intros v; [|done].
    rewrite decide_False; [done|]. apply not_elem_of_nil.
  - apply NoDup_cons in Hnd as [Hx Hnd].
    destruct (WriteMessage_spec x ty data w Hg)
      as (err & w1 & tr1 & Hw & Hg1 & Ht1 & Hi1 & Hc1 & Hf1).
    destruct (IH Hnd w1 Hg1) as (w2 & tr2 & Hr & Hg2 & Ht2 & Hi2 & Hc2 & Hf2).
    exists w2, (tr1 ++ tr2). simpl.
    split.
    { rewrite bind_bind. rewrite (bind_Ok _ _ _ _ _ _ Hw). mrun.
      by rewrite Hr. }
    split; [done|]. split; [auto|].
    split; [by eapply sameIfaces_trans|].
    split; intros v.
    + rewrite connWrites_app, Hc1, Hc2.
      destruct (decide (v = x)) as [->|Hne].
      * rewrite (decide_False (P := x ∈ l)) by done.
        rewrite decide_True; [done|]. by left.
      * destruct (decide (v ∈ l)) as [Hin|Hin].
        -- rewrite decide_True; [done|]. by right.
        -- rewrite decide_False; [done|].
           intros [?|?]%elem_of_cons; done.
    + by rewrite ifaceWrites_app, Hf1, Hf2.
Qed.

Lemma BroadcastMessage_spec (ty : msgtype) (data : list byte) (skip : sockid)
    (w : World) :
  chanGuarded w →
  ∃ w' tr,
    BroadcastMessage ty data skip w = Ok tt w' tr ∧
    chanGuarded w' ∧ (tableOwned w → tableOwned w') ∧ sameIfaces w w' ∧
    (∀ v, connWrites v tr
          = if decide (v ∈ allSockets w ∧ v ≠ skip) then [(ty, data)] else []) ∧
    (∀ v, ifaceWrites v tr = []).
Proof.
  intros Hg. unfold BroadcastMessage. rewrite bind_get.
  destruct (forEach_WriteMessage ty data
              (filter (λ v, v ≠ skip) (elements (allSockets w))) w Hg)
    as (w' & tr & Hr & Hg' & Ht' & Hi' & Hc & Hf).
  { apply NoDup_filter, NoDup_elements. }
  exists w', tr. split; [done|]. split; [done|]. split; [done|].
  split; [done|]. split; [|done].
  intros v. rewrite Hc.
  destruct (decide (v ∈ allSockets w ∧ v ≠ skip)) as [[Hin Hne]|Hn].
  - rewrite decide_True; [done|].
    apply list_elem_of_filter. split; [done|]. by apply elem_of_elements.
  - rewrite decide_False; [done|].
    intros [Hne Hin%elem_of_elements]%list_elem_of_filter. by apply Hn.
Qed.

(** ** MAC learning *)

Lemma setMACFrom_eq (s : sockid) (msg : slice) (src : MacAddr) (w : World) :
  Util.GetSrcMAC msg = Some src →
  setMACFrom s msg w = Ok tt (learnMAC s src w) [].
Proof. intros H. unfold setMACFrom. by rewrite H. Qed.

Lemma learnMAC_same (s : sockid) (src : MacAddr) (w : World) :
  src = mac (sock w s) → learnMAC s src w = w.
Proof.
  intros H. unfold learnMAC.
  rewrite (bool_decide_eq_true_2 _ H). by rewrite orb_true_r.
Qed.

(** The state after an address was learned anew. *)
Lemma learnMAC_new (s : sockid) (src : MacAddr) (w : World) :
  MACIsUnicast src = true → src ≠ mac (sock w s) →
  learnMAC s src w
  = set_macTable (<[src := s]>)
      (set_sock s (with_mac src)
         (if decide (mac (sock w s) ≠ defaultMac)
          then set_macTable (delete (mac (sock w s))) w else w)).
Proof.
  intros Hu Hne. unfold learnMAC.
  rewrite Hu. by rewrite (bool_decide_eq_false_2 _ Hne).
Qed.

Lemma sock_learnMAC_ne (s v : sockid) (src : MacAddr) (w : World) :
  s ≠ v → sock (learnMAC s src w) v = sock w v.
Proof.
  intros Hne. unfold learnMAC.
  destruct (negb (MACIsUnicast src) || bool_decide (src = mac (sock w s)));
    [done|].
  rewrite sock_set_macTable, sock_set_sock_ne by done.
  by destruct (decide (mac (sock w s) ≠ defaultMac)).
Qed.

Lemma sock_learnMAC (s : sockid) (src : MacAddr) (w : World) :
  ∃ m, sock (learnMAC s src w) s = with_mac m (sock w s).
Proof.
  unfold learnMAC.
  destruct (negb (MACIsUnicast src) || bool_decide (src = mac (sock w s))).
  - exists (mac (sock w s)). by destruct (sock w s).
  - exists src. rewrite sock_set_macTable, sock_set_sock.
    by destruct (decide (mac (sock w s) ≠ defaultMac)).
Qed.

Lemma allSockets_learnMAC (s : sockid) (src : MacAddr) (w : World) :
  allSockets (learnMAC s src w) = allSockets w.
Proof.
  unfold learnMAC.
  destruct (negb (MACIsUnicast src) || bool_decide (src = mac (sock w s)));
    [done|].
  by destruct (decide (mac (sock w s) ≠ defaultMac)).
Qed.

Lemma chanGuarded_learnMAC (s : sockid) (src : MacAddr) (w : World) :
  chanGuarded w → chanGuarded (learnMAC s src w).
Proof.
  intros Hg v. destruct (decide (s = v)) as [->|Hne].
  - destruct (sock_learnMAC v src w) as [m ->]. apply (Hg v).
  - rewrite sock_learnMAC_ne by done. apply Hg.
Qed.

Lemma iface_learnMAC (s v : sockid) (src : MacAddr) (w : World) :
  iface (sock (learnMAC s src w) v) = iface (sock w v).
Proof.
  destruct (decide (s = v)) as [->|Hne].
  - by destruct (sock_learnMAC v src w) as [m ->].
  - by rewrite sock_learnMAC_ne.
Qed.

Lemma tableOwned_learnMAC (s : sockid) (src : MacAddr) (w : World) :
  tableOwned w → tableOwned (learnMAC s src w).
Proof.
  intros Ht.
  destruct (MACIsUnicast src) eqn:Hu;
    [|unfold learnMAC; by rewrite Hu].
  destruct (decide (src = mac (sock w s))) as [He|Hne];
    [by rewrite learnMAC_same|].
  rewrite learnMAC_new by done.
  intros m v Hl.
  assert (Hsrc : src ≠ defaultMac) by by apply MACIsUnicast_not_default.
  change (<[src := s]>
            (macTable (if decide (mac (sock w s) ≠ defaultMac)
                       then set_macTable (delete (mac (sock w s))) w else w))
          !! m = Some v) in Hl.
  rewrite sock_set_macTable.
  destruct (decide (src = m)) as [<-|Hm].
  - rewrite lookup_insert_eq in Hl. injection Hl as <-.
    by rewrite sock_set_sock.
  - rewrite lookup_insert_ne in Hl by done.
    assert (Hw : macTable w !! m = Some v ∧ v ≠ s).
    { destruct (decide (mac (sock w s) ≠ defaultMac)) as [Hd|Hd].
      - change (delete (mac (sock w s)) (macTable w) !! m = Some v) in Hl.
        apply lookup_delete_Some in Hl as [Hneq Hl]. split; [done|].
        intros ->. by destruct (Ht _ _ Hl) as [? _].
      - split; [done|]. intros ->. apply Hd.
        destruct (Ht _ _ Hl) as [-> ?]. done. }
    destruct Hw as [Hl' Hvs]. destruct (Ht _ _ Hl') as [Hmac Hd].
    split; [|done].
    rewrite sock_set_sock_ne by done.
    by destruct (decide (mac (sock w s) ≠ defaultMac)).
Qed.

(** Under [tableOwned] no Endpoint owns two entries. *)
Lemma tableOwned_at_most_one (w : World) (v : sockid) (m1 m2 : MacAddr) :
  tableOwned w →
  macTable w !! m1 = Some v → macTable w !! m2 = Some v → m1 = m2.
Proof.
  intros Ht H1 H2.
  destruct (Ht _ _ H1) as [<- _]. by destruct (Ht _ _ H2) as [<- _].
Qed.

Lemma tableOwned_empty : tableOwned emptyWorld.
Proof. intros m v H. simpl in H. by rewrite lookup_empty in H. Qed.

(** C8.  MAC learning on a frame of at least 14 bytes with a unicast source
    address: when the source is the address the Endpoint has learned,
    nothing changes; when it is another one, the entry the Endpoint held
    is gone, the new address is the learned one, the table maps it to this
    Endpoint and maps nothing else to it.  In both cases no Endpoint owns
    two entries afterwards. *)
Theorem setMACFrom_learns_idempotently (s : sockid) (msg : slice)
    (src : MacAddr) (w : World) :
  tableOwned w →
  14 ≤ len msg →
  Util.GetSrcMAC msg = Some src →
  MACIsUnicast src = true →
  ∃ w',
    setMACFrom s msg w = Ok tt w' [] ∧
    (src = mac (sock w s) → w' = w) ∧
    (src ≠ mac (sock w s) →
       (∀ m, macTable w !! m = Some s → macTable w' !! m = None) ∧
       mac (sock w' s) = src ∧
       macTable w' !! src = Some s ∧
       (∀ m, macTable w' !! m = Some s → m = src)) ∧
    (∀ v m1 m2,
       macTable w' !! m1 = Some v → macTable w' !! m2 = Some v → m1 = m2).
Proof.
  intros Ht Hlen Hsrc Hu.
  exists (learnMAC s src w).
  pose proof (tableOwned_learnMAC s src w Ht) as Ht'.
  split; [by apply setMACFrom_eq|].
  split; [apply learnMAC_same|].
  split.
  - intros Hne.
    assert (Hmac : mac (sock (learnMAC s src w) s) = src).
    { rewrite learnMAC_new by done. by rewrite sock_set_macTable, sock_set_sock. }
    assert (Hin : macTable (learnMAC s src w) !! src = Some s).
    { rewrite learnMAC_new by done. apply lookup_insert_eq. }
    assert (Honly : ∀ m, macTable (learnMAC s src w) !! m = Some s → m = src).
    { intros m Hm. destruct (Ht' _ _ Hm) as [<- _]. by rewrite Hmac. }
    split; [|done].
    intros m Hm.
    destruct (macTable (learnMAC s src w) !! m) as [v|] eqn:Hl; [|done].
    exfalso.
    destruct (Ht _ _ Hm) as [Hold Hd].
    assert (Hms : m ≠ src) by congruence.
    rewrite learnMAC_new in Hl by done.
    change (<[src := s]>
              (macTable (if decide (mac (sock w s) ≠ defaultMac)
                         then set_macTable (delete (mac (sock w s))) w else w))
            !! m = Some v) in Hl.
    rewrite lookup_insert_ne in Hl by done.
    rewrite decide_True in Hl by congruence.
    change (delete (mac (sock w s)) (macTable w) !! m = Some v) in Hl.
    rewrite Hold, lookup_delete_eq in Hl. done.
  - intros v m1 m2. by apply tableOwned_at_most_one.
Qed.

(** ** The binary branch of [Serve] *)

Lemma writeOwnIface_eq (s : sockid) (msg : slice) (w : World) :
  writeOwnIface s msg w
  = Ok tt w (match iface (sock w s) with
             | Some _ => [IfaceWrite s (sl_data msg)] | None => [] end).
Proof.
  unfold writeOwnIface. rewrite bind_get. by destruct (iface (sock w s)).
Qed.

(** The two revisions of the binary branch agree when [ipv6] is off. *)
Lemma serveBinary6_false (s : sockid) (msg : slice) :
  serveBinary6 false s msg = serveBinary s msg.
Proof. reflexivity. Qed.

(** A frame of at least 14 bytes: learn, then route on the destination as
    the table stands after learning. *)
Lemma serveBinary_routes (s : sockid) (msg : slice) (src dest : MacAddr)
    (w : World) :
  14 ≤ len msg →
  Util.GetSrcMAC msg = Some src → Util.GetDestMAC msg = Some dest →
  serveBinary s msg w
  = if MACIsUnicast dest then
      match macTable (learnMAC s src w) !! dest with
      | Some sd =>
          bind (WriteMessage sd BinaryMessage (sl_data msg)) (λ _, ret tt)
            (learnMAC s src w)
      | None => writeOwnIface s msg (learnMAC s src w)
      end
    else
      bind (BroadcastMessage BinaryMessage (sl_data msg) s)
        (λ _, writeOwnIface s msg) (learnMAC s src w).
Proof.
  intros Hlen Hs Hd. unfold serveBinary.
  apply Nat.leb_le in Hlen. rewrite Hlen, Hd.
  rewrite !bind_bind. rewrite (bind_Ok _ _ _ _ _ _ (setMACFrom_eq s msg src w Hs)).
  rewrite addTrace_nil.
  destruct (MACIsUnicast dest).
  - unfold FindSocketByMAC. mrun.
    destruct (macTable (learnMAC s src w) !! dest) as [sd|]; mrun; [|done].
    unfold bind. destruct (WriteMessage _ _ _ _); [done|]. simpl.
    by rewrite !app_nil_r.
  - mrun. unfold bind.
    destruct (BroadcastMessage _ _ _ _) as [|[] w1 tr1]; [done|].
    simpl. by rewrite addTrace_nil.
Qed.

Lemma serveStep_binary (hs : Handlers) (s : sockid) (msg : slice)
    (w w' : World) (tr : list Event) :
  serveBinary s msg w = Ok tt w' tr →
  serveStep hs s (ReadOk BinaryMessage msg) w = Ok Continue w' tr.
Proof.
  intros H. simpl. rewrite (bind_Ok _ _ _ _ _ _ H). mrun.
  unfold ret. simpl. by rewrite app_nil_r.
Qed.

(** With [ipv6] on, every frame of at least 14 bytes is fanned out and then
    written to the own tunnel interface. *)
Lemma serveBinary6_true_spec (s : sockid) (msg : slice) (w : World) :
  chanGuarded w → 14 ≤ len msg →
  ∃ w' tr,
    serveBinary6 true s msg w = Ok tt w' tr ∧
    (∀ v, connWrites v tr
          = if decide (v ∈ allSockets w ∧ v ≠ s)
            then [(BinaryMessage, sl_data msg)] else []) ∧
    (∀ v, ifaceWrites v tr
          = if decide (v = s ∧ iface (sock w s) ≠ None)
            then [sl_data msg] else []).
Proof.
  intros Hg Hlen.
  destruct (BroadcastMessage_spec BinaryMessage (sl_data msg) s w Hg)
    as (w1 & tr1 & Hb & Hg1 & _ & Hi1 & Hc1 & Hf1).
  unfold serveBinary6. apply Nat.leb_le in Hlen. rewrite Hlen. simpl.
  rewrite !bind_bind, (bind_Ok _ _ _ _ _ _ Hb). mrun.
  rewrite writeOwnIface_eq. simpl.
  eexists _, _. split; [reflexivity|]. split; intros v.
  - rewrite connWrites_app, Hc1.
    destruct (iface (sock w1 s)); simpl; by rewrite app_nil_r.
  - rewrite ifaceWrites_app, Hf1. simpl.
    destruct (iface (sock w1 s)) as [i|] eqn:Hi.
    + assert (iface (sock w s) ≠ None) by (intros Hn; apply Hi1 in Hn; congruence).
      simpl. destruct (decide (s = v)) as [->|Hsv].
      * by rewrite decide_True.
      * rewrite decide_False; [done|]. intros [-> _]. done.
    + simpl. rewrite decide_False; [done|].
      intros [_ Hn]. apply Hn. by apply Hi1.
Qed.

(** C5, amended.  A binary frame of at least 14 bytes whose unicast
    destination has an entry in the switching table as it stands once the
    source of the frame has been learned (learning can delete the entry
    that was there when the frame arrived) is written to the transport of
    the entry's owner and to no other Endpoint, is not written to any
    tunnel interface, and the read loop goes on. *)
Theorem serve_known_unicast_forwards_to_owner (hs : Handlers)
    (s sd : sockid) (msg : slice) (src dest : MacAddr) (w : World) :
  chanGuarded w →
  14 ≤ len msg →
  Util.GetSrcMAC msg = Some src → Util.GetDestMAC msg = Some dest →
  MACIsUnicast dest = true →
  macTable (learnMAC s src w) !! dest = Some sd →
  ∃ w' tr,
    serveStep hs s (ReadOk BinaryMessage msg) w = Ok Continue w' tr ∧
    connWrites sd tr = [(BinaryMessage, sl_data msg)] ∧
    (∀ v, v ≠ sd → connWrites v tr = []) ∧
    (∀ v, ifaceWrites v tr = []).
Proof.
  intros Hg Hlen Hs Hd Hu Hl.
  destruct (WriteMessage_spec sd BinaryMessage (sl_data msg)
              (learnMAC s src w) (chanGuarded_learnMAC s src w Hg))
    as (err & w' & tr & Hw & _ & _ & _ & Hc & Hf).
  exists w', tr. split.
  - apply serveStep_binary.
    rewrite (serveBinary_routes s msg src dest w Hlen Hs Hd), Hu, Hl.
    rewrite (bind_Ok _ _ _ _ _ _ Hw). unfold ret. simpl. by rewrite app_nil_r.
  - split; [|split; [|done]].
    + by rewrite Hc, decide_True.
    + intros v Hv. by rewrite Hc, decide_False.
Qed.

(** C6.  A binary frame of at least 14 bytes whose destination is multicast
    or broadcast is written exactly once to the transport of every
    Endpoint of the Global Endpoint Set other than the receiving one, and
    to no other transport; in particular not to the sender's. *)
Theorem serve_multicast_fans_out_once (hs : Handlers) (s : sockid)
    (msg : slice) (src dest : MacAddr) (w : World) :
  chanGuarded w →
  14 ≤ len msg →
  Util.GetSrcMAC msg = Some src → Util.GetDestMAC msg = Some dest →
  MACIsUnicast dest = false →
  ∃ w' tr,
    serveStep hs s (ReadOk BinaryMessage msg) w = Ok Continue w' tr ∧
    (∀ v, v ∈ allSockets w → v ≠ s →
          connWrites v tr = [(BinaryMessage, sl_data msg)]) ∧
    (∀ v, v ∉ allSockets w → connWrites v tr = []) ∧
    connWrites s tr = [].
Proof.
  intros Hg Hlen Hs Hd Hu.
  destruct (BroadcastMessage_spec BinaryMessage (sl_data msg) s
              (learnMAC s src w) (chanGuarded_learnMAC s src w Hg))
    as (w1 & tr1 & Hb & _ & _ & _ & Hc1 & _).
  eexists _, _. split.
  - apply serveStep_binary.
    rewrite (serveBinary_routes s msg src dest w Hlen Hs Hd), Hu.
    rewrite (bind_Ok _ _ _ _ _ _ Hb), writeOwnIface_eq. simpl. reflexivity.
  - assert (Hc : ∀ v, connWrites v
       (tr1 ++ match iface (sock w1 s) with
               | Some _ => [IfaceWrite s (sl_data msg)] | None => [] end)
       = if decide (v ∈ allSockets w ∧ v ≠ s)
         then [(BinaryMessage, sl_data msg)] else []).
    { intros v. rewrite connWrites_app, Hc1, allSockets_learnMAC.
      destruct (iface (sock w1 s)); simpl; by rewrite app_nil_r. }
    split; [|split].
    + intros v Hin Hne. by rewrite Hc, decide_True.
    + intros v Hin. rewrite Hc, decide_False; [done|]. by intros [? _].
    + rewrite Hc, decide_False; [done|]. by intros [_ ?].
Qed.

(** C1, as stated, fails: Endpoint 1 receives a frame for the unicast
    address [macC], which has no table entry; Endpoint 2 is serving, yet
    nothing is written to its transport.  The frame only goes to the
    tunnel interface of Endpoint 1. *)
Lemma unknown_unicast_is_not_fanned_out :
  14 ≤ len (frame macC macA) ∧
  Util.GetDestMAC (frame macC macA) = Some macC ∧
  MACIsUnicast macC = true ∧
  macTable twoEndpoints !! macC = None ∧
  2 ∈ allSockets twoEndpoints ∧
  ∃ w' tr,
    serveStep noHandlers 1 (ReadOk BinaryMessage (frame macC macA)) twoEndpoints
      = Ok Continue w' tr ∧
    tr = [IfaceWrite 1 (sl_data (frame macC macA))] ∧
    connWrites 2 tr ≠ [(BinaryMessage, sl_data (frame macC macA))].
Proof.
  split; [unfold len, frame, bytes; simpl; lia|].
  split; [reflexivity|]. split; [reflexivity|].
  split; [by vm_compute|].
  split; [set_solver|].
  eexists _, _. split; [vm_compute; reflexivity|].
  split; [reflexivity|]. simpl. discriminate.
Qed.

(** C1, amended.  A binary frame of at least 14 bytes whose unicast
    destination has no entry in the switching table (as it stands once the
    source has been learned) is written to no transport at all; it is
    written to the tunnel interface of the receiving Endpoint if one is
    bound, and the read loop goes on.  The revision [Serve(ipv6)] does the
    same with [ipv6] off; with [ipv6] on it fans every such frame out to
    all other Endpoints of the Global Endpoint Set and then writes it to
    the own tunnel interface if one is bound. *)
Theorem serve_unknown_unicast_goes_to_own_iface (hs : Handlers) (s : sockid)
    (msg : slice) (src dest : MacAddr) (w : World) :
  chanGuarded w →
  14 ≤ len msg →
  Util.GetSrcMAC msg = Some src → Util.GetDestMAC msg = Some dest →
  MACIsUnicast dest = true →
  macTable (learnMAC s src w) !! dest = None →
  let own := match iface (sock w s) with
             | Some _ => [IfaceWrite s (sl_data msg)] | None => [] end in
  serveStep hs s (ReadOk BinaryMessage msg) w
    = Ok Continue (learnMAC s src w) own ∧
  (∀ v, connWrites v own = []) ∧
  serveBinary6 false s msg w = Ok tt (learnMAC s src w) own ∧
  ∃ w' tr,
    serveBinary6 true s msg w = Ok tt w' tr ∧
    (∀ v, connWrites v tr
          = if decide (v ∈ allSockets w ∧ v ≠ s)
            then [(BinaryMessage, sl_data msg)] else []) ∧
    (∀ v, ifaceWrites v tr
          = if decide (v = s ∧ iface (sock w s) ≠ None)
            then [sl_data msg] else []).
Proof.
  intros Hg Hlen Hs Hd Hu Hl own.
  assert (Hb : serveBinary s msg w = Ok tt (learnMAC s src w) own).
  { rewrite (serveBinary_routes s msg src dest w Hlen Hs Hd), Hu, Hl.
    rewrite writeOwnIface_eq. by rewrite iface_learnMAC. }
  split; [by apply serveStep_binary|].
  split; [intros v; subst own; by destruct (iface (sock w s))|].
  split; [by rewrite serveBinary6_false|].
  by apply serveBinary6_true_spec.
Qed.

(** ** [Close], twice *)

Lemma closechan_closedSocket (k : Socket) :
  chanGuard k → closechan (closedSocket k) = ChanClosed.
Proof.
  intros [H1 H2]. unfold closedSocket. simpl.
  destruct (closechanopen k); [done|].
  destruct (closechan k); [|done]. by discriminate H2.
Qed.

(** C7.  [Close] on a state that satisfies the invariants succeeds; a
    second [Close] succeeds too and leaves the state as the first one left
    it.  After the first call the Endpoint owns no entry of the switching
    table, its learned address is the broadcast value, it is not in the
    Global Endpoint Set, so that no later broadcast writes to it, and its
    closing channel is closed: the first call gave the signal if it had not
    been given before, the second call does not give it again. *)
Theorem Close_idempotent_and_releases (s : sockid) (w : World) :
  chanGuarded w → tableOwned w →
  ∃ w1 tr1 tr2,
    Close s w = Ok tt w1 tr1 ∧
    Close s w1 = Ok tt w1 tr2 ∧
    (∀ m, macTable w1 !! m ≠ Some s) ∧
    mac (sock w1 s) = defaultMac ∧
    (s ∉ allSockets w1) ∧
    (∀ ty data skip, ∃ w2 tr,
       BroadcastMessage ty data skip w1 = Ok tt w2 tr ∧ connWrites s tr = []) ∧
    closechan (sock w1 s) = ChanClosed ∧
    (chanCloseCount s tr1 = if closechanopen (sock w s) then 1 else 0) ∧
    chanCloseCount s tr2 = 0.
Proof.
  intros Hg Ht.
  pose proof (chanGuarded_closedWorld s w Hg) as Hg1.
  destruct (closedWorld_released s w Ht) as (Hrel & Hmac & Hout).
  exists (closedWorld s w), (closeTrace s w),
         (closeTrace s (closedWorld s w)).
  split; [apply Close_eq, Hg|].
  split; [rewrite (Close_eq s (closedWorld s w)) by apply Hg1;
          by rewrite closedWorld_idemp|].
  split; [done|]. split; [done|]. split; [done|].
  split.
  { intros ty data skip.
    destruct (BroadcastMessage_spec ty data skip (closedWorld s w) Hg1)
      as (w2 & tr & Hb & _ & _ & _ & Hc & _).
    exists w2, tr. split; [done|].
    rewrite Hc, decide_False; [done|]. by intros [? _]. }
  split; [rewrite sock_closedWorld; apply closechan_closedSocket, Hg|].
  split; [apply closeTrace_chanCloseCount|].
  rewrite closeTrace_chanCloseCount. by rewrite sock_closedWorld.
Qed.

(** ** The command protocol *)

Lemma Split_no_sep (sep : ascii) (s : string) :
  containsByte sep s = false → Split s sep = [s].
Proof.
  induction s as [|a s IH]; simpl; [done|].
  intros [Ha Hs]%orb_false_iff. rewrite Ha, IH by done. done.
Qed.

Lemma Split_app_sep (sep : ascii) (a b : string) :
  containsByte sep a = false →
  Split (a +:+ String sep b) sep = a :: Split b sep.
Proof.
  induction a as [|c a IH]; simpl.
  - intros _. by rewrite Ascii.eqb_refl.
  - intros [Hc Ha]%orb_false_iff. rewrite Hc, IH by done. done.
Qed.

Lemma Split_nonempty (sep : ascii) (s : string) : Split s sep ≠ [].
Proof.
  destruct s as [|a s]; simpl; [done|].
  destruct (Ascii.eqb a sep); [done|]. by destruct (Split s sep).
Qed.

(** The fields of an encoded command without arguments. *)
Lemma Split_encodeCommand_nil (commandId command : string) :
  containsByte "|" commandId = false → containsByte "|" command = false →
  Split (encodeCommand commandId command []) "|"
  = [commandId; command; EmptyString].
Proof.
  intros Hi Hc. unfold encodeCommand. simpl.
  change (commandId +:+ "|" +:+ command +:+ "|" +:+ "")%string
    with (commandId +:+ String "|" (command +:+ String "|" EmptyString)).
  rewrite Split_app_sep by done. by rewrite Split_app_sep by done.
Qed.

Lemma string_of_uint_digits (d : Decimal.uint) :
  containsByte "|" (NilEmpty.string_of_uint d) = false.
Proof. induction d; simpl; done. Qed.

(** A printed number holds no delimiter. *)
Lemma Sprintf_d_no_bar (n : N) : containsByte "|" (Sprintf_d n) = false.
Proof.
  unfold Sprintf_d, NilZero.string_of_uint.
  destruct (N.to_uint n) eqn:E; try apply string_of_uint_digits. done.
Qed.

Lemma rawSendCommand_spec (s : sockid) (commandId command : string)
    (args : list string) (w : World) :
  chanGuarded w →
  ∃ err w' tr,
    rawSendCommand s commandId command args w = Ok err w' tr ∧
    chanGuarded w' ∧
    (∀ v, connWrites v tr
          = if decide (v = s)
            then [(TextMessage,
                   list_byte_of_string (encodeCommand commandId command args))]
            else []).
Proof.
  intros Hg. unfold rawSendCommand.
  destruct (WriteMessage_spec s TextMessage
              (list_byte_of_string (encodeCommand commandId command args)) w Hg)
    as (err & w' & tr & Hw & Hg' & _ & _ & Hc & _).
  by exists err, w', tr.
Qed.

(** The reply: one text message [ID|reply|true] or [ID|reply|false] on the
    transport of the Endpoint. *)
Lemma replyTo_spec (s : sockid) (commandId commandName : string) (err : error)
    (w : World) :
  chanGuarded w →
  ∃ w' tr,
    replyTo s commandId commandName err w = Ok tt w' tr ∧
    chanGuarded w' ∧
    (∀ v, connWrites v tr
          = if decide (v = s)
            then [(TextMessage,
                   list_byte_of_string
                     (encodeCommand commandId "reply" [Sprintf_v_isnil err]))]
            else []).
Proof.
  intros Hg. unfold replyTo.
  destruct (rawSendCommand_spec s commandId "reply" [Sprintf_v_isnil err] w Hg)
    as (e & w' & tr & Hr & Hg' & Hc).
  destruct err as [msg|].
  - exists w', (Log s (LogCommandError commandName) :: tr).
    rewrite bool_decide_eq_true_2 by done. simpl. mrun.
    rewrite (bind_Ok _ _ _ _ _ _ Hr). mrun. unfold ret. simpl.
    rewrite app_nil_r. split; [done|]. split; [done|].
    intros v. apply (Hc v).
  - exists w', tr.
    rewrite bool_decide_eq_false_2 by (by intros ?). simpl. mrun.
    rewrite (bind_Ok _ _ _ _ _ _ Hr). mrun. unfold ret. simpl.
    rewrite app_nil_r. done.
Qed.

(** The text branch, for a message of at least two fields that is not a
    reply: the handler registered for the second field, if any, receives
    the fields after it, then the reply is sent. *)
Lemma serveText_dispatch (hs : Handlers) (s : sockid) (msg : slice)
    (commandId commandName : string) (args : list string) (w : World) :
  Split (string_of_list_byte (sl_data msg)) "|"
    = commandId :: commandName :: args →
  commandName ≠ "reply"%string →
  serveText hs s msg w
  = bind (match hs s commandName with
          | None => ret (Some "Unknown command"%string)
          | Some handler => handler args
          end) (replyTo s commandId commandName) w.
Proof.
  intros Hsp Hne. unfold serveText. rewrite Hsp. simpl.
  apply String.eqb_neq in Hne. by rewrite Hne.
Qed.

Lemma serveStep_text (hs : Handlers) (s : sockid) (msg : slice)
    (w w' : World) (tr : list Event) :
  serveText hs s msg w = Ok tt w' tr →
  serveStep hs s (ReadOk TextMessage msg) w = Ok Continue w' tr.
Proof.
  intros H. simpl. rewrite (bind_Ok _ _ _ _ _ _ H). mrun.
  unfold ret. simpl. by rewrite app_nil_r.
Qed.

(** C9, as stated, fails: a text message without a delimiter is a malformed
    command frame; it is logged, the loop goes on, and no reply, nor
    anything else, is written to the transport. *)
Lemma malformed_command_gets_no_reply :
  let msg := bytes (list_byte_of_string "hello") in
  length (Split (string_of_list_byte (sl_data msg)) "|") < 2 ∧
  serveStep noHandlers 1 (ReadOk TextMessage msg) twoEndpoints
    = Ok Continue twoEndpoints [Log 1 LogInvalidCommand] ∧
  connWrites 1 [Log 1 LogInvalidCommand] = [].
Proof.
  cbv zeta. split; [vm_compute; lia|]. split; reflexivity.
Qed.

(** C9, amended.  A text message is split at the delimiter.
    - Fewer than two fields: the message is logged as invalid, nothing is
      written, the state is unchanged, the loop goes on.
    - The second field is [reply]: the message is logged, whatever the
      registered handlers are; none of them runs, nothing is written, the
      loop goes on.
    - Otherwise, with no handler registered under the second field: one
      text message [ID|reply|false] with the first field as ID is written
      to the transport of the Endpoint, and the loop goes on.
    - Otherwise, with a handler that returns: after it, one text message
      [ID|reply|true] or [ID|reply|false], by whether the handler returned
      no error, is written to the transport of the Endpoint, and the loop
      goes on. *)
Theorem serve_text_replies (hs : Handlers) (s : sockid) (msg : slice)
    (w : World) :
  let str := Split (string_of_list_byte (sl_data msg)) "|" in
  let commandId := nth 0 str EmptyString in
  let commandName := nth 1 str EmptyString in
  (length str < 2 →
     serveStep hs s (ReadOk TextMessage msg) w
       = Ok Continue w [Log s LogInvalidCommand]) ∧
  (2 ≤ length str → commandName = "reply"%string →
     ∃ result,
       ∀ hs', serveStep hs' s (ReadOk TextMessage msg) w
                = Ok Continue w [Log s (LogReply commandId result)]) ∧
  (2 ≤ length str → commandName ≠ "reply"%string →
   hs s commandName = None → chanGuarded w →
     ∃ w' tr,
       serveStep hs s (ReadOk TextMessage msg) w = Ok Continue w' tr ∧
       connWrites s tr
         = [(TextMessage,
             list_byte_of_string (commandId +:+ "|reply|false"))]) ∧
  (∀ handler err w1 tr1,
     2 ≤ length str → commandName ≠ "reply"%string →
     hs s commandName = Some handler →
     handler (drop 2 str) w = Ok err w1 tr1 → chanGuarded w1 →
     ∃ w' tr2,
       serveStep hs s (ReadOk TextMessage msg) w = Ok Continue w' (tr1 ++ tr2) ∧
       connWrites s tr2
         = [(TextMessage,
             list_byte_of_string
               (commandId +:+ "|reply|" +:+ Sprintf_v_isnil err))]).
Proof.
  intros str commandId commandName.
  assert (Hshape : ∀ hs', 2 ≤ length str → commandName ≠ "reply"%string →
            serveText hs' s msg w
            = bind (match hs' s commandName with
                    | None => ret (Some "Unknown command"%string)
                    | Some handler => handler (drop 2 str)
                    end) (replyTo s commandId commandName) w).
  { intros hs' Hlen Hne. subst commandId commandName.
    destruct str as [|a [|b args]] eqn:Hstr; simpl in Hlen; try lia.
    by apply serveText_dispatch. }
  split; [|split; [|split]].
  - intros Hlen. apply serveStep_text. unfold serveText. fold str.
    apply Nat.ltb_lt in Hlen. by rewrite Hlen.
  - intros Hlen Hname.
    exists (if 2 <? length str then nth 2 str EmptyString else "N/A"%string).
    intros hs'. apply serveStep_text. unfold serveText. fold str.
    assert (Hl : (length str <? 2) = false) by (apply Nat.ltb_ge; lia).
    rewrite Hl. fold commandName. rewrite Hname. reflexivity.
  - intros Hlen Hne Hnone Hg.
    destruct (replyTo_spec s commandId commandName
                (Some "Unknown command"%string) w Hg)
      as (w' & tr & Hr & _ & Hc).
    exists w', tr. split.
    + apply serveStep_text. rewrite (Hshape hs Hlen Hne), Hnone.
      by rewrite bind_ret.
    + by rewrite Hc, decide_True.
  - intros handler err w1 tr1 Hlen Hne Hsome Hh Hg1.
    destruct (replyTo_spec s commandId commandName err w1 Hg1)
      as (w' & tr2 & Hr & _ & Hc).
    exists w', tr2. split.
    + apply serveStep_text. rewrite (Hshape hs Hlen Hne), Hsome.
      rewrite (bind_Ok _ _ _ _ _ _ Hh), Hr. reflexivity.
    + by rewrite Hc, decide_True.
Qed.

(** C10, as stated, fails for a command name that holds the delimiter:
    the text sent for ["a|b"] without arguments splits into four fields,
    and the third is not empty. *)
Lemma command_name_with_delimiter_splits_further :
  encodeCommand "1" "a|b" [] = "1|a|b|"%string ∧
  Split (encodeCommand "1" "a|b" []) "|"
    = ["1"; "a"; "b"; EmptyString]%string ∧
  length (Split (encodeCommand "1" "a|b" []) "|") ≠ 3 ∧
  nth 2 (Split (encodeCommand "1" "a|b" []) "|") EmptyString ≠ EmptyString.
Proof. repeat split; try reflexivity; vm_compute; discriminate. Qed.

(** C10, amended.  [SendCommand] with a command name free of the delimiter
    and no arguments moves the command counter on by one, modulo 2^64, and
    writes one text message [ID|NAME|], where ID is the new value of the
    counter in decimal.  Split at the delimiter this text has the three
    fields ID, NAME and the empty string.  An Endpoint that receives it
    and has a handler registered for NAME runs that handler on the
    one-element list holding the empty string, then replies, unless NAME
    is [reply]: a command of that name is logged as a reply with an empty
    result, and no handler runs. *)
Theorem SendCommand_no_args_yields_one_empty_arg (s : sockid)
    (command : string) (w : World) :
  containsByte "|" command = false →
  chanGuarded w →
  let commandId := Sprintf_d ((lastCommandID w + 1) mod 2 ^ 64)%N in
  ∃ err w' tr,
    SendCommand s command [] w = Ok err w' tr ∧
    lastCommandID w' = ((lastCommandID w + 1) mod 2 ^ 64)%N ∧
    connWrites s tr
      = [(TextMessage,
          list_byte_of_string (commandId +:+ "|" +:+ command +:+ "|"))] ∧
    Split (commandId +:+ "|" +:+ command +:+ "|") "|"
      = [commandId; command; EmptyString] ∧
    ∀ (hs : Handlers) (r : sockid) (msg : slice) handler (wr : World),
      sl_data msg
        = list_byte_of_string (commandId +:+ "|" +:+ command +:+ "|") →
      hs r command = Some handler →
      serveText hs r msg wr
        = if String.eqb command "reply"
          then emit (Log r (LogReply commandId EmptyString)) wr
          else bind (handler [EmptyString]) (replyTo r commandId command) wr.
Proof.
  intros Hc Hg. cbv zeta.
  set (n := ((lastCommandID w + 1) mod 2 ^ 64)%N).
  set (commandId := Sprintf_d n).
  assert (Hg1 : chanGuarded (set_lastCommandID n w)) by apply Hg.
  destruct (rawSendCommand_spec s commandId command [] _ Hg1)
    as (err & w' & tr & Hr & _ & Hw).
  assert (Hl : lastCommandID w' = n).
  { unfold rawSendCommand in Hr. rewrite WriteMessage_eq in Hr by apply Hg1.
    destruct (writable _); by injection Hr as _ <- _. }
  assert (Henc : encodeCommand commandId command []
                 = (commandId +:+ "|" +:+ command +:+ "|")%string).
  { unfold encodeCommand. simpl. reflexivity. }
  assert (Hsp : Split (commandId +:+ "|" +:+ command +:+ "|") "|"
                = [commandId; command; EmptyString]).
  { rewrite <- Henc.
    apply Split_encodeCommand_nil; [apply Sprintf_d_no_bar|done]. }
  exists err, w', tr.
  split; [|split; [done|split; [|split; [done|]]]].
  - unfold SendCommand, nextCommandID. mrun. fold n. fold commandId.
    by rewrite Hr.
  - by rewrite Hw, decide_True, Henc.
  - intros hs r msg handler wr Hdata Hh.
    assert (Hsp' : Split (string_of_list_byte (sl_data msg)) "|"
                   = [commandId; command; EmptyString])
      by (by rewrite Hdata, string_of_list_byte_of_string).
    destruct (String.eqb command "reply") eqn:Hrep.
    + unfold serveText. rewrite Hsp'. cbn [length nth Nat.ltb Nat.leb].
      by rewrite Hrep.
    + rewrite (serveText_dispatch hs r msg commandId command [EmptyString]);
        [by rewrite Hh|done|]. by apply String.eqb_neq.
Qed.

(** ** [closeDone] and the reap callback *)

(** One [closeDone] run from start to end without interference. *)
Lemma closeDone_spec (s : sockid) (n : nat) (w : World) :
  wg (sock w s) = S n → chanGuard (sock w s) →
  ∃ w' tr,
    closeDone s w = Ok tt w' tr ∧
    wg (sock w' s) = n ∧ chanGuard (sock w' s) ∧
    reaper (sock w' s) = reaper (sock w s) ∧
    reaped (sock w' s) = reaped (sock w s) || reaper (sock w s) ∧
    reapCount s tr
      = if reaper (sock w s) && negb (reaped (sock w s)) then 1 else 0.
Proof.
  intros Hwg Hg. unfold closeDone, wg_Done. mrun. rewrite Hwg.
  set (w1 := set_sock s (with_wg n) w).
  assert (Hk1 : sock w1 s = with_wg n (sock w s)) by apply sock_set_sock.
  assert (Hg1 : chanGuard (sock w1 s)) by (rewrite Hk1; apply Hg).
  mrun. fold w1. rewrite (bind_Ok _ _ _ _ _ _ (Close_eq s w1 Hg1)). mrun.
  rewrite sock_closedWorld, Hk1. simpl.
  destruct (reaper (sock w s)) eqn:Hr, (reaped (sock w s)) eqn:Hd; simpl; mrun.
  all: eexists _, _; split; [reflexivity|].
  all: rewrite ?sock_set_sock, ?sock_closedWorld, ?Hk1; simpl.
  all: rewrite ?Hr, ?Hd.
  all: repeat split; try done;
       try (apply (chanGuard_closedSocket (with_wg n (sock w s))); apply Hg).
  all: unfold reapCount;
       destruct (iface (sock w s)), (closechanopen (sock w s)); simpl;
       by rewrite ?bool_decide_eq_true_2.
Qed.

(** The statements of [closeDone], taken one by one by a single goroutine,
    are [closeDone]. *)
Lemma runSchedule_alone_is_closeDone (s : sockid) (w : World) :
  runSchedule s [0; 0; 0; 0; 0] [PcDone] w
  = bind (closeDone s) (λ _, ret [PcEnd]) w.
Proof.
  unfold closeDone. simpl. unfold wg_Done. mrun.
  destruct (wg (sock w s)) as [|n]; [done|]. mrun.
  apply bind_ext. intros [] w1. mrun.
  destruct (reaper (sock w1 s) && bool_decide (reaped (sock w1 s) = false));
    mrun; reflexivity.
Qed.

(** Any number of [closeDone] calls that run one after the other invoke a
    non-nil reaper once in all. *)
Lemma closeDone_in_sequence_reaps_once (s : sockid) (k : nat) (w : World) :
  k ≤ wg (sock w s) → chanGuard (sock w s) → reaper (sock w s) = true →
  ∃ w' tr,
    forEach (replicate k s) closeDone w = Ok tt w' tr ∧
    reapCount s tr
      = if reaped (sock w s) then 0 else if decide (k = 0) then 0 else 1.
Proof.
  revert w. induction k as [|k IH]; intros w Hwg Hg Hr.
  - exists w, []. split; [reflexivity|]. by destruct (reaped (sock w s)).
  - destruct (wg (sock w s)) as [|n] eqn:Hn; [lia|].
    destruct (closeDone_spec s n w Hn Hg)
      as (w1 & tr1 & Hc & Hwg1 & Hg1 & Hr1 & Hd1 & Hcount).
    destruct (IH w1) as (w2 & tr2 & Hf & Hcount2); [lia|done|congruence|].
    exists w2, (tr1 ++ tr2). split.
    + simpl. rewrite (bind_Ok _ _ _ _ _ _ Hc), Hf. reflexivity.
    + rewrite reapCount_app, Hcount, Hcount2, Hd1, Hr.
      rewrite orb_true_r. simpl. by destruct (reaped (sock w s)).
Qed.

(** C3.  Two goroutines of Endpoint 1 run [closeDone] at the same time.
    Both test [s.reaped] before either sets it, and the reap callback is
    invoked twice in one lifecycle. *)
Theorem closeDone_interleaved_reaps_twice :
  reaper (sock twoEndpoints 1) = true ∧
  reaped (sock twoEndpoints 1) = false ∧
  ∃ w' tr,
    runSchedule 1 [0; 0; 0; 1; 1; 1; 0; 0; 1; 1] [PcDone; PcDone] twoEndpoints
      = Ok [PcEnd; PcEnd] w' tr ∧
    reapCount 1 tr = 2.
Proof.
  split; [reflexivity|]. split; [reflexivity|].
  eexists _, _. split; [vm_compute; reflexivity|]. reflexivity.
Qed.

(** ** The address pool *)

Import Server.

(** Without a fixed address for the name, [pickIP] scans the subnet. *)
Lemma pickIP_no_fixed (nm remote : string) (p : serverCmd) :
  ConfigGet p ("host_" +:+ nm) = EmptyString →
  pickIP nm remote p
  = match IPMask (ip p) (Mask (subnet p)) with
    | None => Some (OutOfAddresses, p)
    | Some a => pickLoop (subnetSize (subnet p)) nm remote a p
    end.
Proof. intros H. unfold pickIP. by rewrite H. Qed.

(** The pool of 10.0.0.0/30 after start-up: three entries, the first of
    them bound to the server. *)
Lemma initPool_30 (cfg : gmap string string) :
  initPool (server30 cfg)
  = Some {| assigned :=
              <["10.0.0.3"%string := None]>
                (<["10.0.0.2"%string := None]>
                   (<["10.0.0.1"%string :=
                        Some (MkConnection "10.0.0.1" "10.0.0.1" "vpn-server")]>
                      ∅));
            Config := cfg; serverIP := "10.0.0.1";
            ip := fst cidr_10_0_0_0_30; subnet := snd cidr_10_0_0_0_30 |}.
Proof.
  unfold initPool. simpl.
  vm_compute. reflexivity.
Qed.

(** C2, as stated, fails: the first address of 10.0.0.0/30 that does not
    end in [.0] is bound to the server at start-up, so two addresses are
    left; the third allocation finds none. *)
Lemma pool_30_third_allocation_fails :
  ∃ p0 p1 p2,
    initPool (server30 ∅) = Some p0 ∧
    pickIP "alice" "198.51.100.1" p0 = Some (Picked "10.0.0.2", p1) ∧
    pickIP "bob" "198.51.100.2" p1 = Some (Picked "10.0.0.3", p2) ∧
    pickIP "carol" "198.51.100.3" p2 = Some (OutOfAddresses, p2).
Proof.
  eexists _, _, _.
  split; [vm_compute; reflexivity|].
  split; [vm_compute; reflexivity|].
  split; [vm_compute; reflexivity|].
  vm_compute; reflexivity.
Qed.

(** C2, amended.  With subnet 10.0.0.0/30 and no fixed address configured
    for the names involved, start-up binds 10.0.0.1 to the server; the
    first two allocations succeed with the distinct addresses 10.0.0.2 and
    10.0.0.3; the third fails for want of addresses and leaves the pool as
    it was; and once any one bound address is released, the next
    allocation succeeds with that address and the one after it fails. *)
Theorem pool_30_allocates_two_then_exhausted (cfg : gmap string string)
    (n1 n2 n3 n4 r1 r2 r3 r4 : string) :
  ConfigGet (server30 cfg) ("host_" +:+ n1) = EmptyString →
  ConfigGet (server30 cfg) ("host_" +:+ n2) = EmptyString →
  ConfigGet (server30 cfg) ("host_" +:+ n3) = EmptyString →
  ConfigGet (server30 cfg) ("host_" +:+ n4) = EmptyString →
  ∃ p0 p1 p2,
    initPool (server30 cfg) = Some p0 ∧
    serverIP p0 = "10.0.0.1"%string ∧
    assignedAt p0 "10.0.0.1" ≠ None ∧
    pickIP n1 r1 p0 = Some (Picked "10.0.0.2", p1) ∧
    pickIP n2 r2 p1 = Some (Picked "10.0.0.3", p2) ∧
    "10.0.0.2"%string ≠ "10.0.0.3"%string ∧
    pickIP n3 r3 p2 = Some (OutOfAddresses, p2) ∧
    ∀ x, assignedAt p2 x ≠ None →
      ∃ p3, pickIP n3 r3 (release x p2) = Some (Picked x, p3) ∧
            pickIP n4 r4 p3 = Some (OutOfAddresses, p3).
Proof.
  intros H1 H2 H3 H4.
  pose proof (initPool_30 cfg) as Hinit.
  match type of Hinit with _ = Some ?p => set (p0 := p) in * end.
  set (p1 := set_assigned "10.0.0.2" (Some (MkConnection "10.0.0.2" r1 n1)) p0).
  set (p2 := set_assigned "10.0.0.3" (Some (MkConnection "10.0.0.3" r2 n2)) p1).
  exists p0, p1, p2.
  split; [done|]. split; [done|]. split; [by vm_compute|].
  split; [rewrite pickIP_no_fixed by apply H1; vm_compute; reflexivity|].
  split; [rewrite pickIP_no_fixed by apply H2; vm_compute; reflexivity|].
  split; [done|].
  split; [rewrite pickIP_no_fixed by apply H3; vm_compute; reflexivity|].
  intros x Hx.
  assert (Hcases : x = "10.0.0.3"%string ∨ x = "10.0.0.2"%string
                   ∨ x = "10.0.0.1"%string).
  { unfold assignedAt, p2, p1, p0, set_assigned in Hx. simpl in Hx.
    destruct (decide (x = "10.0.0.3"%string)) as [E3|Hn3]; [by left|].
    destruct (decide (x = "10.0.0.2"%string)) as [E2|Hn2]; [by right; left|].
    destruct (decide (x = "10.0.0.1"%string)) as [E1|Hn1]; [by right; right|].
    exfalso. apply Hx.
    rewrite !lookup_insert_ne by done. by rewrite lookup_empty. }
  destruct Hcases as [-> | [-> | ->]].
  - eexists. split.
    + rewrite pickIP_no_fixed by apply H3. vm_compute. reflexivity.
    + rewrite pickIP_no_fixed by apply H4. vm_compute. reflexivity.
  - eexists. split.
    + rewrite pickIP_no_fixed by apply H3. vm_compute. reflexivity.
    + rewrite pickIP_no_fixed by apply H4. vm_compute. reflexivity.
  - eexists. split.
    + rewrite pickIP_no_fixed by apply H3. vm_compute. reflexivity.
    + rewrite pickIP_no_fixed by apply H4. vm_compute. reflexivity.
Qed.

(** ** The scenario with two Endpoints satisfies the invariants *)

Lemma sock_Forall (P : Socket → Prop) (w : World) :
  P inhabitant → map_Forall (λ _, P) (socks w) → ∀ v, P (sock w v).
Proof.
  intros Hd Hall v. unfold sock. rewrite lookup_total_alt.
  destruct (socks w !! v) as [k|] eqn:Hk; simpl; [|done].
  by apply (Hall v k).
Qed.

Lemma chanGuarded_twoEndpoints : chanGuarded twoEndpoints.
Proof.
  unfold chanGuarded.
  refine (sock_Forall chanGuard twoEndpoints _ _); [done|].
  unfold twoEndpoints. simpl.
  apply map_Forall_insert_2; [done|].
  apply map_Forall_insert_2; [done|].
  apply map_Forall_empty.
Qed.

Lemma tableOwned_twoEndpoints : tableOwned twoEndpoints.
Proof.
  intros m v Hl. unfold twoEndpoints in Hl. simpl in Hl.
  apply lookup_insert_Some in Hl as [[<- <-]|[_ Hl]]; [done|].
  apply lookup_insert_Some in Hl as [[<- <-]|[_ Hl]]; [done|].
  by rewrite lookup_empty in Hl.
Qed.

(** ** A frame for the address the receiver has just given up *)

(** C5, counterexample.  An entry in the switching table when the frame
    arrives does not make the frame go to the owner of the entry.
    Endpoint 1 has learned [macA], so the table maps [macA] to it; it now
    receives a frame from [macC] for [macA].  [setMACFrom] runs first: it
    deletes the entry under the old address [macA] and enters [macC].  The
    lookup of the destination then finds nothing: no transport is written
    to, and the frame goes to the tunnel interface of Endpoint 1 itself. *)
Theorem known_unicast_entry_lost_to_learning :
  let msg := frame macA macC in
  14 ≤ len msg ∧
  Util.GetSrcMAC msg = Some macC ∧ Util.GetDestMAC msg = Some macA ∧
  MACIsUnicast macA = true ∧
  chanGuarded twoEndpoints ∧ tableOwned twoEndpoints ∧
  macTable twoEndpoints !! macA = Some 1 ∧
  ∃ w',
    serveStep noHandlers 1 (ReadOk BinaryMessage msg) twoEndpoints
      = Ok Continue w' [IfaceWrite 1 (sl_data msg)] ∧
    macTable w' !! macA = None.
Proof.
  cbv zeta. split; [vm_compute; lia|].
  split; [reflexivity|]. split; [reflexivity|]. split; [reflexivity|].
  split; [apply chanGuarded_twoEndpoints|].
  split; [apply tableOwned_twoEndpoints|].
  split; [vm_compute; reflexivity|].
  assert (Hrun :
    match serveStep noHandlers 1 (ReadOk BinaryMessage (frame macA macC))
            twoEndpoints with
    | Ok c w' tr => Some (c, tr, macTable w' !! macA)
    | Panic => None
    end
    = Some (Continue, [IfaceWrite 1 (sl_data (frame macA macC))], None))
    by (vm_compute; reflexivity).
  destruct (serveStep noHandlers 1 (ReadOk BinaryMessage (frame macA macC))
              twoEndpoints) as [|c w' tr]; [discriminate Hrun|].
  injection Hrun as -> -> Hm. by exists w'.
Qed.

(** ** The theorems at concrete inputs *)

Lemma serve_unknown_unicast_witness :
  chanGuarded twoEndpoints ∧
  14 ≤ len (frame macC macA) ∧
  Util.GetSrcMAC (frame macC macA) = Some macA ∧
  Util.GetDestMAC (frame macC macA) = Some macC ∧
  MACIsUnicast macC = true ∧
  macTable (learnMAC 1 macA twoEndpoints) !! macC = None ∧
  serveStep noHandlers 1 (ReadOk BinaryMessage (frame macC macA)) twoEndpoints
    = Ok Continue (learnMAC 1 macA twoEndpoints)
        [IfaceWrite 1 (sl_data (frame macC macA))].
Proof.
  assert (H1 : 14 ≤ len (frame macC macA))
    by (unfold len, frame, bytes; simpl; lia).
  assert (H2 : macTable (learnMAC 1 macA twoEndpoints) !! macC = None)
    by (vm_compute; reflexivity).
  split; [apply chanGuarded_twoEndpoints|].
  split; [exact H1|]. split; [reflexivity|]. split; [reflexivity|].
  split; [reflexivity|]. split; [exact H2|].
  apply (serve_unknown_unicast_goes_to_own_iface noHandlers 1
           (frame macC macA) macA macC twoEndpoints
           chanGuarded_twoEndpoints H1 eq_refl eq_refl eq_refl H2).
Defined.

Lemma serve_known_unicast_witness :
  chanGuarded twoEndpoints ∧
  14 ≤ len (frame macB macA) ∧
  Util.GetSrcMAC (frame macB macA) = Some macA ∧
  Util.GetDestMAC (frame macB macA) = Some macB ∧
  MACIsUnicast macB = true ∧
  macTable (learnMAC 1 macA twoEndpoints) !! macB = Some 2 ∧
  ∃ w' tr,
    serveStep noHandlers 1 (ReadOk BinaryMessage (frame macB macA)) twoEndpoints
      = Ok Continue w' tr ∧
    connWrites 2 tr = [(BinaryMessage, sl_data (frame macB macA))] ∧
    (∀ v, v ≠ 2 → connWrites v tr = []) ∧
    (∀ v, ifaceWrites v tr = []).
Proof.
  assert (H1 : 14 ≤ len (frame macB macA))
    by (unfold len, frame, bytes; simpl; lia).
  assert (H2 : macTable (learnMAC 1 macA twoEndpoints) !! macB = Some 2)
    by (vm_compute; reflexivity).
  split; [apply chanGuarded_twoEndpoints|].
  split; [exact H1|]. split; [reflexivity|]. split; [reflexivity|].
  split; [reflexivity|]. split; [exact H2|].
  apply (serve_known_unicast_forwards_to_owner noHandlers 1 2
           (frame macB macA) macA macB twoEndpoints
           chanGuarded_twoEndpoints H1 eq_refl eq_refl eq_refl H2).
Defined.

Lemma serve_multicast_witness :
  chanGuarded twoEndpoints ∧
  14 ≤ len (frame defaultMac macA) ∧
  Util.GetSrcMAC (frame defaultMac macA) = Some macA ∧
  Util.GetDestMAC (frame defaultMac macA) = Some defaultMac ∧
  MACIsUnicast defaultMac = false ∧
  ∃ w' tr,
    serveStep noHandlers 1 (ReadOk BinaryMessage (frame defaultMac macA))
      twoEndpoints = Ok Continue w' tr ∧
    (∀ v, v ∈ allSockets twoEndpoints → v ≠ 1 →
          connWrites v tr
          = [(BinaryMessage, sl_data (frame defaultMac macA))]) ∧
    (∀ v, v ∉ allSockets twoEndpoints → connWrites v tr = []) ∧
    connWrites 1 tr = [].
Proof.
  assert (H1 : 14 ≤ len (frame defaultMac macA))
    by (unfold len, frame, bytes; simpl; lia).
  split; [apply chanGuarded_twoEndpoints|].
  split; [exact H1|]. split; [reflexivity|]. split; [reflexivity|].
  split; [reflexivity|].
  apply (serve_multicast_fans_out_once noHandlers 1
           (frame defaultMac macA) macA defaultMac twoEndpoints
           chanGuarded_twoEndpoints H1 eq_refl eq_refl eq_refl).
Defined.

Lemma Close_witness :
  chanGuarded twoEndpoints ∧ tableOwned twoEndpoints ∧
  ∃ w1 tr1 tr2,
    Close 1 twoEndpoints = Ok tt w1 tr1 ∧
    Close 1 w1 = Ok tt w1 tr2 ∧
    (∀ m, macTable w1 !! m ≠ Some 1) ∧
    mac (sock w1 1) = defaultMac ∧
    (1 ∉ allSockets w1) ∧
    (∀ ty data skip, ∃ w2 tr,
       BroadcastMessage ty data skip w1 = Ok tt w2 tr ∧ connWrites 1 tr = []) ∧
    closechan (sock w1 1) = ChanClosed ∧
    (chanCloseCount 1 tr1
     = if closechanopen (sock twoEndpoints 1) then 1 else 0) ∧
    chanCloseCount 1 tr2 = 0.
Proof.
  split; [apply chanGuarded_twoEndpoints|].
  split; [apply tableOwned_twoEndpoints|].
  apply (Close_idempotent_and_releases 1 twoEndpoints
           chanGuarded_twoEndpoints tableOwned_twoEndpoints).
Defined.

Lemma setMACFrom_witness :
  tableOwned twoEndpoints ∧
  14 ≤ len (frame macC macB) ∧
  Util.GetSrcMAC (frame macC macB) = Some macB ∧
  MACIsUnicast macB = true ∧
  macB ≠ mac (sock twoEndpoints 1) ∧
  ∃ w',
    setMACFrom 1 (frame macC macB) twoEndpoints = Ok tt w' [] ∧
    macTable w' !! macA = None ∧
    mac (sock w' 1) = macB ∧
    macTable w' !! macB = Some 1.
Proof.
  assert (H1 : 14 ≤ len (frame macC macB))
    by (unfold len, frame, bytes; simpl; lia).
  assert (Hne : macB ≠ mac (sock twoEndpoints 1))
    by (vm_compute; discriminate).
  split; [apply tableOwned_twoEndpoints|].
  split; [exact H1|]. split; [reflexivity|]. split; [reflexivity|].
  split; [exact Hne|].
  destruct (setMACFrom_learns_idempotently 1 (frame macC macB) macB
              twoEndpoints tableOwned_twoEndpoints H1 eq_refl eq_refl)
    as (w' & Hrun & _ & Hnew & _).
  destruct (Hnew Hne) as (Hgone & Hmac & Hin & _).
  exists w'. split; [exact Hrun|]. split; [|split; [exact Hmac|exact Hin]].
  apply Hgone. vm_compute. reflexivity.
Defined.

Lemma serve_text_witness :
  let msg := bytes (list_byte_of_string "7|status|now") in
  Split (string_of_list_byte (sl_data msg)) "|"
    = ["7"; "status"; "now"]%string ∧
  noHandlers 1 "status"%string = None ∧
  chanGuarded twoEndpoints ∧
  ∃ w' tr,
    serveStep noHandlers 1 (ReadOk TextMessage msg) twoEndpoints
      = Ok Continue w' tr ∧
    connWrites 1 tr
      = [(TextMessage, list_byte_of_string "7|reply|false")].
Proof.
  cbv zeta.
  split; [reflexivity|]. split; [reflexivity|].
  split; [apply chanGuarded_twoEndpoints|].
  destruct (serve_text_replies noHandlers 1
              (bytes (list_byte_of_string "7|status|now")) twoEndpoints)
    as (_ & _ & Hunknown & _).
  apply Hunknown.
  - vm_compute. lia.
  - vm_compute. discriminate.
  - reflexivity.
  - apply chanGuarded_twoEndpoints.
Defined.

Lemma SendCommand_witness :
  containsByte "|" "refresh-peers" = false ∧
  chanGuarded twoEndpoints ∧
  ∃ err w' tr,
    SendCommand 1 "refresh-peers" [] twoEndpoints = Ok err w' tr ∧
    lastCommandID w' = 1%N ∧
    connWrites 1 tr
      = [(TextMessage, list_byte_of_string "1|refresh-peers|")] ∧
    Split "1|refresh-peers|" "|"
      = ["1"; "refresh-peers"; EmptyString]%string.
Proof.
  split; [reflexivity|]. split; [apply chanGuarded_twoEndpoints|].
  destruct (SendCommand_no_args_yields_one_empty_arg 1 "refresh-peers"
              twoEndpoints eq_refl chanGuarded_twoEndpoints)
    as (err & w' & tr & Hs & Hl & Hw & Hsp & _).
  by exists err, w', tr.
Defined.

Lemma pool_30_witness :
  ConfigGet (server30 ∅) ("host_" +:+ "alice") = EmptyString ∧
  ConfigGet (server30 ∅) ("host_" +:+ "bob") = EmptyString ∧
  ConfigGet (server30 ∅) ("host_" +:+ "carol") = EmptyString ∧
  ConfigGet (server30 ∅) ("host_" +:+ "dave") = EmptyString ∧
  ∃ p0 p1 p2,
    initPool (server30 ∅) = Some p0 ∧
    pickIP "alice" "198.51.100.1" p0 = Some (Picked "10.0.0.2", p1) ∧
    pickIP "bob" "198.51.100.2" p1 = Some (Picked "10.0.0.3", p2) ∧
    pickIP "carol" "198.51.100.3" p2 = Some (OutOfAddresses, p2) ∧
    ∃ p3,
      pickIP "carol" "198.51.100.3" (release "10.0.0.2" p2)
        = Some (Picked "10.0.0.2", p3) ∧
      pickIP "dave" "198.51.100.4" p3 = Some (OutOfAddresses, p3).
Proof.
  assert (Ha0 : ConfigGet (server30 ∅) ("host_" +:+ "alice") = EmptyString)
    by reflexivity.
  assert (Hb0 : ConfigGet (server30 ∅) ("host_" +:+ "bob") = EmptyString)
    by reflexivity.
  assert (Hc0 : ConfigGet (server30 ∅) ("host_" +:+ "carol") = EmptyString)
    by reflexivity.
  assert (Hd0 : ConfigGet (server30 ∅) ("host_" +:+ "dave") = EmptyString)
    by reflexivity.
  split; [exact Ha0|]. split; [exact Hb0|].
  split; [exact Hc0|]. split; [exact Hd0|].
  destruct (pool_30_allocates_two_then_exhausted ∅
              "alice" "bob" "carol" "dave"
              "198.51.100.1" "198.51.100.2" "198.51.100.3" "198.51.100.4"
              Ha0 Hb0 Hc0 Hd0)
    as (p0 & p1 & p2 & Hi & _ & _ & Ha & Hb & _ & Hc & Hrel).
  exists p0, p1, p2.
  split; [exact Hi|]. split; [exact Ha|]. split; [exact Hb|].
  split; [exact Hc|].
  apply Hrel.
  injection Hi as <-. vm_compute in Ha. injection Ha as <-.
  vm_compute in Hb. injection Hb as <-. vm_compute. discriminate.
Defined.

(* ===================================================================== *)
(** * Further properties of the code *)
(* ===================================================================== *)

(** ** The frame classifier, at the bounds *)

Lemma length_copy_into_zeroed (n : nat) (src : slice) :
  length (copy_into_zeroed n src) = n.
Proof.
  unfold copy_into_zeroed, len.
  rewrite length_app, length_take, length_replicate. lia.
Qed.

Lemma subslice_None (p : slice) (lo hi : nat) :
  lo ≤ hi → (subslice p lo hi = None ↔ cap p < hi).
Proof.
  intros Hle. unfold subslice.
  destruct (lo <=? hi) eqn:E1; [|apply Nat.leb_gt in E1; lia].
  destruct (hi <=? cap p) eqn:E2; simpl.
  - apply Nat.leb_le in E2. split; [done|lia].
  - apply Nat.leb_gt in E2. split; [done|done].
Qed.

(** X1.  In the IPv4 layout [GetSrcMAC] panics exactly on a slice of
    capacity below 12 and [GetDestMAC] exactly on one of capacity below 6;
    whenever they return, the address has six bytes. *)
Theorem GetMAC_panics_iff_capacity_short (p : slice) :
  (Util.GetSrcMAC p = None ↔ cap p < 12) ∧
  (Util.GetDestMAC p = None ↔ cap p < 6) ∧
  (∀ m, Util.GetSrcMAC p = Some m → length m = 6) ∧
  (∀ m, Util.GetDestMAC p = Some m → length m = 6).
Proof.
  unfold Util.GetSrcMAC, Util.GetDestMAC.
  pose proof (subslice_None p 6 12 ltac:(lia)) as H1.
  pose proof (subslice_None p 0 6 ltac:(lia)) as H2.
  destruct (subslice p 6 12) as [s1|], (subslice p 0 6) as [s2|]; simpl.
  all: repeat split; try (intros; discriminate); try tauto;
       try (intros m [= <-]; apply length_copy_into_zeroed).
  all: try (intros Hc; apply H1 in Hc; discriminate).
  all: try (intros Hc; apply H2 in Hc; discriminate).
Qed.

(** X2.  Two frames that share their first 14 bytes yield the same source
    and the same destination address, whatever follows in the frame and
    whatever lies behind it in the buffer. *)
Theorem GetMAC_depends_on_header_only (hdr rest rest' sp sp' : list byte) :
  length hdr = 14 →
  Util.GetSrcMAC (MkSlice (hdr ++ rest) sp)
    = Util.GetSrcMAC (MkSlice (hdr ++ rest') sp') ∧
  Util.GetDestMAC (MkSlice (hdr ++ rest) sp)
    = Util.GetDestMAC (MkSlice (hdr ++ rest') sp') ∧
  Util.GetSrcMAC (MkSlice (hdr ++ rest) sp) = Some (take 6 (drop 6 hdr)) ∧
  Util.GetDestMAC (MkSlice (hdr ++ rest) sp) = Some (take 6 hdr).
Proof.
  intros Hh.
  destruct (GetMAC_reads_header_only hdr rest rest' sp sp' Hh) as [Hs Hd].
  split; [done|]. split; [done|].
  rewrite GetSrcMAC_in_bounds, GetDestMAC_in_bounds
    by (unfold len; simpl; rewrite length_app; lia).
  simpl. rewrite drop_app_le by lia. rewrite (take_app_le hdr) by lia.
  rewrite take_app_le by (rewrite length_drop; lia). done.
Qed.

Lemma GetMAC_depends_on_header_only_witness :
  length (macB ++ macA ++ [x08; x00]) = 14 ∧
  Util.GetSrcMAC (MkSlice ((macB ++ macA ++ [x08; x00]) ++ [x45; x00]) [])
    = Util.GetSrcMAC (MkSlice ((macB ++ macA ++ [x08; x00]) ++ []) [xff]) ∧
  Util.GetSrcMAC (MkSlice ((macB ++ macA ++ [x08; x00]) ++ [x45; x00]) [])
    = Some macA.
Proof.
  assert (H : length (macB ++ macA ++ [x08; x00]) = 14) by reflexivity.
  split; [exact H|].
  destruct (GetMAC_depends_on_header_only (macB ++ macA ++ [x08; x00])
              [x45; x00] [] [] [xff] H) as (Hs & _ & Hv & _).
  split; [exact Hs|exact Hv].
Defined.

(** ** The binary branch, for every message *)

Lemma closeTrace_writesNothing (s : sockid) (w : World) :
  Forall writesNothing (closeTrace s w).
Proof.
  unfold closeTrace.
  destruct (iface (sock w s)), (closechanopen (sock w s));
    repeat constructor.
Qed.

(** A write leaves the state as it is or closes the written Endpoint; its
    trace holds the one write and nothing else that writes. *)
Lemma WriteMessage_cases (s : sockid) (ty : msgtype) (data : list byte)
    (w : World) :
  chanGuarded w →
  ∃ err w' tr,
    WriteMessage s ty data w = Ok err w' tr ∧
    ((err = None ∧ w' = w) ∨ (err ≠ None ∧ w' = closedWorld s w)) ∧
    Forall (λ e, e = ConnWrite s ty data ∨ writesNothing e) tr.
Proof.
  intros Hg. rewrite WriteMessage_eq by apply Hg.
  destruct (writable (sock w s)).
  - eexists _, _, _. split; [reflexivity|]. split; [by left|].
    constructor; [by left|constructor].
  - eexists _, _, _. split; [reflexivity|]. split; [by right|].
    constructor; [by left|]. constructor; [by right|].
    eapply Forall_impl; [apply closeTrace_writesNothing|]. by right.
Qed.

Lemma forEach_WriteMessage_frame (ty : msgtype) (data : list byte)
    (l : list sockid) (w : World) :
  chanGuarded w →
  ∃ w' tr,
    forEach l (λ v, WriteMessage v ty data ;; ret tt) w = Ok tt w' tr ∧
    chanGuarded w' ∧ (tableOwned w → tableOwned w') ∧
    allSockets w' ⊆ allSockets w ∧
    lastCommandID w' = lastCommandID w ∧
    Forall (λ e, (∃ v, e = ConnWrite v ty data) ∨ writesNothing e) tr.
Proof.
  revert w. induction l as [|x l IH]; intros w Hg.
  - exists w, []. split; [reflexivity|].
    split; [done|]. split; [done|]. split; [done|]. split; [done|].
    constructor.
  - destruct (WriteMessage_cases x ty data w Hg)
      as (err & w1 & tr1 & Hw & Hcase & Htr1).
    assert (Hw1 : chanGuarded w1 ∧ (tableOwned w → tableOwned w1) ∧
                  allSockets w1 ⊆ allSockets w ∧
                  lastCommandID w1 = lastCommandID w).
    { destruct Hcase as [[_ ->]|[_ ->]]; [done|].
      split; [by apply chanGuarded_closedWorld|].
      split; [by apply tableOwned_closedWorld|].
      split; [|done]. rewrite allSockets_closedWorld.
      intros v. rewrite elem_of_difference. tauto. }
    destruct Hw1 as (Hg1 & Ht1 & Hs1 & Hl1).
    destruct (IH w1 Hg1) as (w2 & tr2 & Hr & Hg2 & Ht2 & Hs2 & Hl2 & Htr2).
    exists w2, (tr1 ++ tr2). split.
    { simpl. rewrite bind_bind, (bind_Ok _ _ _ _ _ _ Hw). mrun. by rewrite Hr. }
    split; [done|]. split; [auto|].
    split; [by etrans|]. split; [congruence|].
    apply Forall_app. split; [|done].
    eapply Forall_impl; [exact Htr1|].
    intros e [->|He]; [left; by eexists|by right].
Qed.

Lemma carriesFrame_of_write (d : list byte) (e : Event) :
  (∃ v, e = ConnWrite v BinaryMessage d) ∨ writesNothing e →
  carriesFrame d e.
Proof. intros [[v ->]|He]; [done|]. by destruct e. Qed.

(** X3.  A binary message shorter than 14 bytes, the empty one included,
    reaches neither the switching table nor any transport: the state is
    left as it is, the message is written to the own tunnel interface if
    one is bound, and the loop goes on.  Both revisions of [Serve] agree,
    whatever [ipv6] is. *)
Theorem serve_short_frame_bypasses_routing (hs : Handlers) (s : sockid)
    (msg : slice) (ipv6 : bool) (w : World) :
  len msg < 14 →
  let own := match iface (sock w s) with
             | Some _ => [IfaceWrite s (sl_data msg)] | None => [] end in
  serveStep hs s (ReadOk BinaryMessage msg) w = Ok Continue w own ∧
  serveBinary6 ipv6 s msg w = Ok tt w own.
Proof.
  intros Hlen own.
  assert (Hl : (14 <=? len msg) = false) by (apply Nat.leb_gt; lia).
  split.
  - apply serveStep_binary. unfold serveBinary. rewrite Hl. mrun.
    apply writeOwnIface_eq.
  - unfold serveBinary6. rewrite Hl. mrun. apply writeOwnIface_eq.
Qed.

Lemma serve_short_frame_witness :
  len (bytes [x01; x02; x03]) < 14 ∧
  serveStep noHandlers 1 (ReadOk BinaryMessage (bytes [x01; x02; x03]))
    twoEndpoints
  = Ok Continue twoEndpoints [IfaceWrite 1 [x01; x02; x03]].
Proof.
  assert (H : len (bytes [x01; x02; x03]) < 14)
    by (unfold len, bytes; simpl; lia).
  split; [exact H|].
  apply (serve_short_frame_bypasses_routing noHandlers 1
           (bytes [x01; x02; x03]) false twoEndpoints H).
Defined.

(** X4.  On a state that satisfies the invariants the binary branch never
    panics, whatever the message; it keeps the invariants, adds no
    Endpoint to the Global Endpoint Set, leaves the command counter alone,
    and every write it makes, to a transport or to a tunnel interface,
    carries the received bytes unchanged. *)
Theorem serveBinary_safe_and_verbatim (s : sockid) (msg : slice) (w : World) :
  chanGuarded w → tableOwned w →
  ∃ w' tr,
    serveBinary s msg w = Ok tt w' tr ∧
    chanGuarded w' ∧ tableOwned w' ∧
    allSockets w' ⊆ allSockets w ∧
    lastCommandID w' = lastCommandID w ∧
    Forall (carriesFrame (sl_data msg)) tr.
Proof.
  intros Hg Ht.
  assert (Hown : ∀ w0, Forall (carriesFrame (sl_data msg))
            (match iface (sock w0 s) with
             | Some _ => [IfaceWrite s (sl_data msg)] | None => [] end)).
  { intros w0. destruct (iface (sock w0 s)); repeat constructor. }
  destruct (decide (14 ≤ len msg)) as [Hlen|Hlen].
  - pose proof (GetSrcMAC_in_bounds msg Hlen) as Hs.
    pose proof (GetDestMAC_in_bounds msg Hlen) as Hd.
    set (src := take 6 (drop 6 (sl_data msg))) in *.
    set (dest := take 6 (sl_data msg)) in *.
    rewrite (serveBinary_routes s msg src dest w Hlen Hs Hd).
    pose proof (chanGuarded_learnMAC s src w Hg) as Hg1.
    pose proof (tableOwned_learnMAC s src w Ht) as Ht1.
    assert (Hl1 : lastCommandID (learnMAC s src w) = lastCommandID w).
    { unfold learnMAC.
      destruct (negb (MACIsUnicast src) || bool_decide (src = mac (sock w s)));
        [done|]. by destruct (decide (mac (sock w s) ≠ defaultMac)). }
    destruct (MACIsUnicast dest).
    + destruct (macTable (learnMAC s src w) !! dest) as [sd|].
      * destruct (forEach_WriteMessage_frame BinaryMessage (sl_data msg) [sd]
                    (learnMAC s src w) Hg1)
          as (w' & tr & Hr & Hg' & Ht' & Hs' & Hl' & Htr).
        exists w', tr. split.
        { simpl in Hr. rewrite bind_bind in Hr.
          unfold bind in *. destruct (WriteMessage _ _ _ _) as [|e w2 tr2];
            [done|]. simpl in *. by rewrite !app_nil_r in *. }
        split; [done|]. split; [auto|].
        split; [by rewrite <- (allSockets_learnMAC s src w)|].
        split; [congruence|].
        eapply Forall_impl; [exact Htr|]. apply carriesFrame_of_write.
      * rewrite writeOwnIface_eq. eexists _, _. split; [reflexivity|].
        split; [done|]. split; [done|].
        split; [by rewrite allSockets_learnMAC|]. split; [done|]. apply Hown.
    + unfold BroadcastMessage at 1. rewrite bind_bind, bind_get.
      destruct (forEach_WriteMessage_frame BinaryMessage (sl_data msg)
                  (filter (λ v, v ≠ s)
                     (elements (allSockets (learnMAC s src w))))
                  (learnMAC s src w) Hg1)
        as (w' & tr & Hr & Hg' & Ht' & Hs' & Hl' & Htr).
      rewrite (bind_Ok _ _ _ _ _ _ Hr), writeOwnIface_eq. simpl.
      eexists _, _. split; [reflexivity|].
      split; [done|]. split; [auto|].
      split; [by rewrite <- (allSockets_learnMAC s src w)|].
      split; [congruence|].
      apply Forall_app. split; [|apply Hown].
      eapply Forall_impl; [exact Htr|]. apply carriesFrame_of_write.
  - unfold serveBinary.
    assert (Hl : (14 <=? len msg) = false) by (apply Nat.leb_gt; lia).
    rewrite Hl. mrun. rewrite writeOwnIface_eq.
    eexists _, _. split; [reflexivity|].
    split; [done|]. split; [done|]. split; [done|]. split; [done|].
    apply Hown.
Qed.

Lemma serveBinary_safe_witness :
  chanGuarded twoEndpoints ∧ tableOwned twoEndpoints ∧
  ∃ w' tr,
    serveBinary 1 (frame defaultMac macC) twoEndpoints = Ok tt w' tr ∧
    chanGuarded w' ∧ tableOwned w' ∧
    Forall (carriesFrame (sl_data (frame defaultMac macC))) tr.
Proof.
  split; [apply chanGuarded_twoEndpoints|].
  split; [apply tableOwned_twoEndpoints|].
  destruct (serveBinary_safe_and_verbatim 1 (frame defaultMac macC)
              twoEndpoints chanGuarded_twoEndpoints tableOwned_twoEndpoints)
    as (w' & tr & Hr & Hg & Ht & _ & _ & Hf).
  by exists w', tr.
Defined.

(** ** An address that moves between Endpoints *)

(** X5.  When Endpoint [s] has taken over the address [m] that Endpoint [v]
    still remembers as its own, closing [v] deletes the entry of [m]
    although it belongs to [s]; [s] keeps [m] as its learned address, so
    further frames from [m] do not enter it again. *)
Theorem Close_drops_entry_taken_over (s v : sockid) (m : MacAddr) (w : World) :
  chanGuarded w →
  s ≠ v →
  mac (sock w v) = m → m ≠ defaultMac →
  macTable w !! m = Some s → mac (sock w s) = m →
  ∃ w1 tr,
    Close v w = Ok tt w1 tr ∧
    macTable w1 !! m = None ∧
    mac (sock w1 s) = m ∧
    ∀ msg, Util.GetSrcMAC msg = Some m → setMACFrom s msg w1 = Ok tt w1 [].
Proof.
  intros Hg Hsv Hv Hm Hl Hs.
  exists (closedWorld v w), (closeTrace v w).
  split; [apply Close_eq, Hg|].
  assert (Hmac : mac (sock (closedWorld v w) s) = m)
    by (by rewrite sock_closedWorld_ne).
  split; [|split; [done|]].
  - rewrite macTable_closedWorld, Hv. rewrite decide_True by done.
    apply lookup_delete_eq.
  - intros msg Hsrc. rewrite (setMACFrom_eq s msg m _ Hsrc).
    by rewrite learnMAC_same.
Qed.

Lemma Close_drops_entry_witness :
  let w := learnMAC 2 macA twoEndpoints in
  chanGuarded w ∧ 2 ≠ 1 ∧ mac (sock w 1) = macA ∧ macA ≠ defaultMac ∧
  macTable w !! macA = Some 2 ∧ mac (sock w 2) = macA ∧
  ∃ w1 tr,
    Close 1 w = Ok tt w1 tr ∧
    macTable w1 !! macA = None ∧
    setMACFrom 2 (frame macC macA) w1 = Ok tt w1 [].
Proof.
  cbv zeta.
  assert (Hg : chanGuarded (learnMAC 2 macA twoEndpoints))
    by apply chanGuarded_learnMAC, chanGuarded_twoEndpoints.
  assert (H1 : mac (sock (learnMAC 2 macA twoEndpoints) 1) = macA)
    by (vm_compute; reflexivity).
  assert (H2 : macA ≠ defaultMac) by discriminate.
  assert (H3 : macTable (learnMAC 2 macA twoEndpoints) !! macA = Some 2)
    by (vm_compute; reflexivity).
  assert (H4 : mac (sock (learnMAC 2 macA twoEndpoints) 2) = macA)
    by (vm_compute; reflexivity).
  assert (H5 : 2 ≠ 1) by lia.
  split; [exact Hg|]. split; [exact H5|]. split; [exact H1|].
  split; [exact H2|]. split; [exact H3|]. split; [exact H4|].
  destruct (Close_drops_entry_taken_over 2 1 macA _ Hg H5 H1 H2 H3 H4)
    as (w1 & tr & Hc & Hnone & _ & Hstay).
  exists w1, tr. split; [exact Hc|]. split; [exact Hnone|].
  apply Hstay. reflexivity.
Defined.

(** ** Binding a tunnel interface *)

(** X6.  [SetInterface] binds at most once: with an interface already bound
    it returns an error and changes nothing; with none bound it records the
    interface, counts one more goroutine to wait for, touches no other
    Endpoint, and every later [SetInterface] fails. *)
Theorem SetInterface_binds_once (s : sockid) (i : Interface) (w : World) :
  (iface (sock w s) ≠ None →
     ∃ e, SetInterface s i w = Ok (Some e) w []) ∧
  (iface (sock w s) = None →
     ∃ w',
       SetInterface s i w = Ok None w' [] ∧
       iface (sock w' s) = Some i ∧
       wg (sock w' s) = S (wg (sock w s)) ∧
       (∀ v, v ≠ s → sock w' v = sock w v) ∧
       macTable w' = macTable w ∧ allSockets w' = allSockets w ∧
       ∀ j, ∃ e, SetInterface s j w' = Ok (Some e) w' []).
Proof.
  split.
  - intros Hi. unfold SetInterface. rewrite bind_get.
    destruct (iface (sock w s)); [|done]. by eexists.
  - intros Hi. unfold SetInterface, tryServeIfaceRead, wg_Add.
    rewrite bind_get, Hi. mrun.
    eexists. split; [reflexivity|].
    rewrite !sock_set_sock. simpl.
    split; [done|]. split; [lia|].
    split; [intros v Hv; by rewrite !sock_set_sock_ne by done|].
    split; [done|]. split; [done|].
    intros j. rewrite bind_get. rewrite !sock_set_sock. simpl. by eexists.
Qed.

Lemma SetInterface_witness :
  let w := set_sock 1 (with_iface None) twoEndpoints in
  iface (sock w 1) = None ∧
  ∃ w',
    SetInterface 1 (MkInterface false) w = Ok None w' [] ∧
    iface (sock w' 1) = Some (MkInterface false) ∧
    ∃ e, SetInterface 1 (MkInterface false) w' = Ok (Some e) w' [].
Proof.
  cbv zeta.
  assert (H : iface (sock (set_sock 1 (with_iface None) twoEndpoints) 1) = None)
    by (vm_compute; reflexivity).
  split; [exact H|].
  destruct (SetInterface_binds_once 1 (MkInterface false)
              (set_sock 1 (with_iface None) twoEndpoints)) as [_ Hfree].
  destruct (Hfree H) as (w' & Hr & Hi & _ & _ & _ & _ & Hagain).
  exists w'. split; [exact Hr|]. split; [exact Hi|]. apply Hagain.
Defined.

(** ** Writing to a closed Endpoint *)

(** X7.  Once an Endpoint is closed it stays closed: every later
    [WriteMessage] on it still tries the transport, fails, and leaves the
    shared state exactly as [Close] left it. *)
Theorem write_after_Close_fails (s : sockid) (w : World) :
  chanGuarded w →
  ∃ w1 tr1,
    Close s w = Ok tt w1 tr1 ∧
    ∀ ty data, ∃ e tr,
      WriteMessage s ty data w1 = Ok (Some e) w1 tr ∧
      connWrites s tr = [(ty, data)].
Proof.
  intros Hg. exists (closedWorld s w), (closeTrace s w).
  split; [apply Close_eq, Hg|].
  intros ty data.
  rewrite WriteMessage_eq by apply chanGuarded_closedWorld, Hg.
  assert (Hw : writable (sock (closedWorld s w) s) = false).
  { rewrite sock_closedWorld. unfold writable, closedSocket. simpl.
    apply andb_false_r. }
  rewrite Hw, closedWorld_idemp. eexists _, _. split; [reflexivity|].
  change (connWrites s ([ConnWrite s ty data; Log s LogWriteError]
                        ++ closeTrace s (closedWorld s w)) = [(ty, data)]).
  rewrite connWrites_app.
  destruct (closeTrace_no_writes s s (closedWorld s w)) as [-> _].
  simpl. by rewrite decide_True.
Qed.

Lemma write_after_Close_witness :
  chanGuarded twoEndpoints ∧
  ∃ w1 tr1,
    Close 2 twoEndpoints = Ok tt w1 tr1 ∧
    ∃ e tr, WriteMessage 2 PingMessage [] w1 = Ok (Some e) w1 tr.
Proof.
  split; [apply chanGuarded_twoEndpoints|].
  destruct (write_after_Close_fails 2 twoEndpoints chanGuarded_twoEndpoints)
    as (w1 & tr1 & Hc & Hw).
  exists w1, tr1. split; [exact Hc|].
  destruct (Hw PingMessage []) as (e & tr & Hr & _). by exists e, tr.
Defined.

(** ** The life of an Endpoint *)

Lemma chanGuarded_set_sock (s : sockid) (f : Socket → Socket) (w : World) :
  chanGuarded w → chanGuard (f (sock w s)) → chanGuarded (set_sock s f w).
Proof.
  intros Hg Hf v. destruct (decide (s = v)) as [->|Hne].
  - by rewrite sock_set_sock.
  - rewrite sock_set_sock_ne by done. apply Hg.
Qed.

Lemma tableOwned_set_sock (s : sockid) (f : Socket → Socket) (w : World) :
  tableOwned w → mac (f (sock w s)) = mac (sock w s) →
  tableOwned (set_sock s f w).
Proof.
  intros Ht Hf m v Hl. destruct (Ht m v Hl) as [Hm Hd]. split; [|done].
  destruct (decide (s = v)) as [->|Hne].
  - rewrite sock_set_sock. congruence.
  - by rewrite sock_set_sock_ne.
Qed.

(** One [closeDone], with everything it leaves behind. *)
Lemma closeDone_full (s : sockid) (n : nat) (w : World) :
  chanGuarded w → tableOwned w → wg (sock w s) = S n →
  ∃ w' tr,
    closeDone s w = Ok tt w' tr ∧
    chanGuarded w' ∧ tableOwned w' ∧
    wg (sock w' s) = n ∧
    (s ∉ allSockets w') ∧ allSockets w' ⊆ allSockets w ∧
    reaper (sock w' s) = reaper (sock w s) ∧
    reaped (sock w' s) = reaped (sock w s) || reaper (sock w s) ∧
    (reapCount s tr
     = if reaper (sock w s) && negb (reaped (sock w s)) then 1 else 0) ∧
    Forall writesNothing tr.
Proof.
  intros Hg Ht Hwg. unfold closeDone, wg_Done. mrun. rewrite Hwg.
  set (w1 := set_sock s (with_wg n) w).
  assert (Hk1 : sock w1 s = with_wg n (sock w s)) by apply sock_set_sock.
  assert (Hg1 : chanGuarded w1).
  { apply chanGuarded_set_sock; [done|]. apply (Hg s). }
  assert (Ht1 : tableOwned w1) by (by apply tableOwned_set_sock).
  mrun. fold w1. rewrite (bind_Ok _ _ _ _ _ _ (Close_eq s w1 (Hg1 s))).
  rewrite bind_get.
  pose proof (chanGuarded_closedWorld s w1 Hg1) as Hg2.
  pose proof (tableOwned_closedWorld s w1 Ht1) as Ht2.
  assert (Hout : s ∉ allSockets (closedWorld s w1)).
  { rewrite allSockets_closedWorld, elem_of_difference, elem_of_singleton.
    by intros [_ ?]. }
  assert (Hsub : allSockets (closedWorld s w1) ⊆ allSockets w).
  { rewrite allSockets_closedWorld. intros v.
    rewrite elem_of_difference. tauto. }
  rewrite sock_closedWorld, Hk1.
  change (reaper (closedSocket (with_wg n (sock w s)))) with (reaper (sock w s)).
  change (reaped (closedSocket (with_wg n (sock w s)))) with (reaped (sock w s)).
  change (clientIP (closedSocket (with_wg n (sock w s))))
    with (clientIP (sock w s)).
  destruct (reaper (sock w s)) eqn:Hr, (reaped (sock w s)) eqn:Hd.
  all: rewrite ?bool_decide_eq_true_2 by done;
       rewrite ?bool_decide_eq_false_2 by done; cbn [andb].
  2: { rewrite bind_emit.
       unfold modify. unfold addTrace.
       eexists _, _. split; [reflexivity|].
       split; [apply chanGuarded_set_sock; [done|apply (Hg2 s)]|].
       split; [by apply tableOwned_set_sock|].
       rewrite !sock_set_sock, sock_closedWorld, Hk1. simpl.
       rewrite ?Hr, ?Hd.
       split; [done|]. split; [done|]. split; [done|].
       split; [done|]. split; [done|].
       split.
       - unfold reapCount.
         destruct (iface (sock w1 s)), (closechanopen (sock w1 s)); simpl;
           by rewrite bool_decide_eq_true_2.
       - destruct (iface (sock w1 s)), (closechanopen (sock w1 s));
           repeat constructor. }
  all: unfold ret, addTrace; eexists _, _; split; [reflexivity|].
  all: rewrite sock_closedWorld, Hk1; simpl; rewrite ?Hr, ?Hd, ?app_nil_r.
  all: split; [done|]; split; [done|]; split; [done|]; split; [done|];
       split; [done|]; split; [done|]; split; [done|];
       (split; [unfold reapCount|]);
       destruct (iface (sock w1 s)), (closechanopen (sock w1 s));
       simpl; repeat constructor.
Qed.

(** [closeDone], [j] times in a row on an Endpoint with at least [j]
    goroutines to wait for. *)
Lemma closeDone_sequence_full (s : sockid) (j : nat) (w : World) :
  chanGuarded w → tableOwned w → j ≤ wg (sock w s) →
  ∃ w' tr,
    forEach (replicate j s) closeDone w = Ok tt w' tr ∧
    chanGuarded w' ∧ tableOwned w' ∧
    wg (sock w' s) = wg (sock w s) - j ∧
    (0 < j → s ∉ allSockets w') ∧
    reaper (sock w' s) = reaper (sock w s) ∧
    (reapCount s tr
     = if reaper (sock w s) && negb (reaped (sock w s)) && bool_decide (0 < j)
       then 1 else 0) ∧
    Forall writesNothing tr.
Proof.
  revert w. induction j as [|j IH]; intros w Hg Ht Hj.
  - exists w, []. split; [reflexivity|].
    split; [done|]. split; [done|]. split; [lia|].
    split; [lia|]. split; [done|]. split; [|constructor].
    rewrite bool_decide_eq_false_2 by lia. by rewrite andb_false_r.
  - destruct (wg (sock w s)) as [|n] eqn:Hn; [lia|].
    destruct (closeDone_full s n w Hg Ht Hn)
      as (w1 & tr1 & Hc & Hg1 & Ht1 & Hwg1 & Hout1 & Hsub1 & Hr1 & Hd1
          & Hcnt1 & Hn1).
    destruct (IH w1 Hg1 Ht1) as
      (w2 & tr2 & Hf & Hg2 & Ht2 & Hwg2 & Hout2 & Hr2 & Hcnt2 & Hn2); [lia|].
    exists w2, (tr1 ++ tr2). split.
    { simpl. rewrite (bind_Ok _ _ _ _ _ _ Hc), Hf. reflexivity. }
    split; [done|]. split; [done|]. split; [lia|].
    split.
    { intros _. destruct j as [|j'].
      - simpl in Hf. injection Hf as <- <-. done.
      - apply Hout2. lia. }
    split; [congruence|].
    split; [|by apply Forall_app].
    rewrite reapCount_app, Hcnt1, Hcnt2, Hr1, Hd1.
    rewrite (bool_decide_eq_true_2 (0 < S j)) by lia.
    destruct (reaper (sock w s)), (reaped (sock w s)); simpl; try done.
    all: destruct (bool_decide (0 < j)); done.
Qed.

(** A [closeDone] on a counter that has reached zero panics. *)
Lemma closeDone_beyond_panics (s : sockid) (n : nat) (w w' : World)
    (tr : list Event) :
  forEach (replicate n s) closeDone w = Ok tt w' tr →
  wg (sock w' s) = 0 →
  forEach (replicate n s ++ [s]) closeDone w = Panic.
Proof.
  revert w tr. induction n as [|n IH]; intros w tr Hf Hz.
  - simpl in *. injection Hf as <- <-.
    unfold closeDone, wg_Done. mrun. by rewrite Hz.
  - simpl in *. unfold bind in *.
    destruct (closeDone s w) as [|[] w3 tr3]; [done|].
    destruct (forEach (replicate n s) closeDone w3) as [|[] w4 tr4] eqn:E;
      [done|].
    simpl in Hf. injection Hf as <- <-.
    by rewrite (IH w3 tr4 E Hz).
Qed.

(** X8.  An Endpoint from [MakeSocket] to the end.  [Serve] enters it into
    the Global Endpoint Set and counts the goroutines it starts: three with
    a tunnel interface, two without.  While fewer of them have run
    [closeDone], [Wait] does not return; the first [closeDone] takes the
    Endpoint out of the set; when all have run, in this order one after the
    other, the counter is zero and a non-nil reaper was invoked once.  A
    [closeDone] beyond that panics on the counter. *)
Theorem lifecycle_Serve_to_Wait (ip : string) (c : Conn)
    (i : option Interface) (fn : bool) (w : World) :
  chanGuarded w → tableOwned w →
  let k := match i with Some _ => 3 | None => 2 end in
  ∃ s w1,
    bind (newSocket ip c i fn) (λ s, Serve s ;; ret s) w = Ok s w1 [] ∧
    (s ∉ dom (socks w)) ∧ s ∈ allSockets w1 ∧
    wg (sock w1 s) = k ∧ chanGuarded w1 ∧ tableOwned w1 ∧
    (∀ j, j ≤ k →
       ∃ w2 tr,
         forEach (replicate j s) closeDone w1 = Ok tt w2 tr ∧
         waitReturns w2 s = bool_decide (j = k) ∧
         (0 < j → s ∉ allSockets w2) ∧
         reapCount s tr = (if fn && bool_decide (0 < j) then 1 else 0)) ∧
    forEach (replicate (S k) s) closeDone w1 = Panic.
Proof.
  intros Hg Ht k.
  set (s := fresh (dom (socks w))).
  assert (Hfresh : s ∉ dom (socks w)) by apply is_fresh.
  assert (Hdef : sock w s = inhabitant).
  { unfold sock. rewrite lookup_total_alt.
    apply not_elem_of_dom in Hfresh. by rewrite Hfresh. }
  set (w0 := {| socks := <[s := MakeSocket ip c i fn]> (socks w);
                macTable := macTable w; allSockets := allSockets w;
                lastCommandID := lastCommandID w |}).
  assert (Hs0 : sock w0 s = MakeSocket ip c i fn)
    by apply lookup_total_insert_eq.
  assert (Hne0 : ∀ v, v ≠ s → sock w0 v = sock w v).
  { intros v Hv. unfold sock, w0. simpl. by apply lookup_total_insert_ne. }
  assert (Hg0 : chanGuarded w0).
  { intros v. destruct (decide (v = s)) as [->|Hv].
    - by rewrite Hs0.
    - rewrite Hne0 by done. apply Hg. }
  assert (Ht0 : tableOwned w0).
  { intros m v Hl. destruct (Ht m v Hl) as [Hm Hd]. split; [|done].
    destruct (decide (v = s)) as [->|Hv]; [|by rewrite Hne0].
    exfalso. apply Hd. rewrite <- Hm, Hdef. reflexivity. }
  set (w1 := set_sock s (λ k0, with_wg k k0)
               (set_allSockets (λ X, {[s]} ∪ X) w0)).
  assert (Hrun : bind (newSocket ip c i fn) (λ s, Serve s ;; ret s) w
                 = Ok s w1 []).
  { unfold newSocket, Serve, wg_Add. mrun. fold s. fold w0.
    rewrite Hs0. simpl. subst w1 k.
    destruct i; mrun; unfold ret; f_equal; apply world_eq; try reflexivity.
    all: unfold set_sock, set_allSockets; simpl.
    all: unfold sock; simpl; rewrite ?lookup_total_insert_eq.
    all: rewrite ?insert_insert_eq; reflexivity. }
  assert (Hs1 : sock w1 s = with_wg k (MakeSocket ip c i fn)).
  { unfold w1. rewrite sock_set_sock, sock_set_allSockets, Hs0. done. }
  assert (Hg1 : chanGuarded w1).
  { apply chanGuarded_set_sock; [apply Hg0|].
    rewrite sock_set_allSockets, Hs0. done. }
  assert (Ht1 : tableOwned w1).
  { apply tableOwned_set_sock; [apply Ht0|done]. }
  exists s, w1.
  split; [exact Hrun|]. split; [exact Hfresh|].
  split; [unfold w1, set_sock, set_allSockets; simpl;
          apply elem_of_union_l, elem_of_singleton; reflexivity|].
  split; [by rewrite Hs1|]. split; [exact Hg1|]. split; [exact Ht1|].
  split.
  - intros j Hj.
    destruct (closeDone_sequence_full s j w1 Hg1 Ht1)
      as (w2 & tr & Hf & _ & _ & Hwg & Hout & _ & Hcnt & _).
    { rewrite Hs1. simpl. lia. }
    exists w2, tr. split; [exact Hf|]. split; [|split; [exact Hout|]].
    + unfold waitReturns. rewrite Hwg, Hs1. simpl.
      apply bool_decide_ext. lia.
    + rewrite Hcnt, Hs1. simpl. by rewrite andb_true_r.
  - destruct (closeDone_sequence_full s k w1 Hg1 Ht1)
      as (w2 & tr & Hf & _ & _ & Hwg & _).
    { rewrite Hs1. simpl. lia. }
    replace (S k) with (k + 1) by lia. rewrite replicate_add.
    assert (Hz : wg (sock w2 s) = 0) by (rewrite Hwg, Hs1; simpl; lia).
    by apply (closeDone_beyond_panics s k w1 w2 tr).
Qed.

Lemma lifecycle_witness :
  chanGuarded emptyWorld ∧ tableOwned emptyWorld ∧
  ∃ s w1,
    bind (newSocket "10.0.0.2" (MkConn true false) (Some (MkInterface false))
            true) (λ s, Serve s ;; ret s) emptyWorld = Ok s w1 [] ∧
    wg (sock w1 s) = 3 ∧
    ∃ w2 tr,
      forEach (replicate 3 s) closeDone w1 = Ok tt w2 tr ∧
      waitReturns w2 s = true ∧ reapCount s tr = 1.
Proof.
  assert (Hg : chanGuarded emptyWorld) by (intros v; done).
  split; [exact Hg|]. split; [apply tableOwned_empty|].
  destruct (lifecycle_Serve_to_Wait "10.0.0.2" (MkConn true false)
              (Some (MkInterface false)) true emptyWorld Hg tableOwned_empty)
    as (s & w1 & Hrun & _ & _ & Hwg & _ & _ & Hseq & _).
  exists s, w1. split; [exact Hrun|]. split; [exact Hwg|].
  destruct (Hseq 3 (le_n 3)) as (w2 & tr & Hf & Hw & _ & Hc).
  exists w2, tr. split; [exact Hf|]. split; [exact Hw|exact Hc].
Defined.

(** ** The tunnel-read pump *)

Lemma WriteMessage_writable (s : sockid) (ty : msgtype) (data : list byte)
    (w : World) :
  writable (sock w s) = true →
  WriteMessage s ty data w = Ok None w [ConnWrite s ty data].
Proof.
  intros Hw. unfold WriteMessage, writable in *. mrun. by rewrite Hw.
Qed.

Lemma writesNothing_no_writes (v : sockid) (tr : list Event) :
  Forall writesNothing tr → connWrites v tr = [] ∧ ifaceWrites v tr = [].
Proof.
  induction 1 as [|e tr He _ [IH1 IH2]]; [done|].
  unfold connWrites, ifaceWrites in *. simpl. rewrite IH1, IH2.
  by destruct e.
Qed.

(** X9.  While the transport accepts writes, the tunnel-read pump passes
    on every frame it reads, in the order read and byte for byte, as a
    binary message on its own transport, and changes nothing in the shared
    state; a read error ends the loop, and what the interface would have
    delivered after it is never read. *)
Theorem ifaceLoop_forwards_in_order (s : sockid) (frames : list (list byte))
    (rest : list IfaceRead) (w : World) :
  writable (sock w s) = true →
  ifaceLoop s (map IfaceReadOk frames) w
    = Ok Continue w (map (ConnWrite s BinaryMessage) frames) ∧
  ifaceLoop s (map IfaceReadOk frames ++ IfaceReadErr :: rest) w
    = Ok Return w (map (ConnWrite s BinaryMessage) frames
                   ++ [Log s LogTunReadError]).
Proof.
  intros Hw. induction frames as [|d frames [IH1 IH2]].
  - split; [reflexivity|]. simpl. mrun. reflexivity.
  - simpl. rewrite !(bind_Ok _ _ _ _ _ _ (WriteMessage_writable s _ d w Hw)).
    by rewrite IH1, IH2.
Qed.

Lemma ifaceLoop_forwards_witness :
  writable (sock twoEndpoints 1) = true ∧
  ifaceLoop 1 (map IfaceReadOk [[x01]; [x02; x03]] ++ [IfaceReadErr])
    twoEndpoints
  = Ok Return twoEndpoints
      [ConnWrite 1 BinaryMessage [x01]; ConnWrite 1 BinaryMessage [x02; x03];
       Log 1 LogTunReadError].
Proof.
  assert (H : writable (sock twoEndpoints 1) = true) by reflexivity.
  split; [exact H|].
  apply (ifaceLoop_forwards_in_order 1 [[x01]; [x02; x03]] [] twoEndpoints H).
Defined.

(** [closeDone] with the callback: everything up to the point where the
    callback is invoked. *)

Lemma bind_addTrace {A B} (m m' : M A) (k : A → M B) (w w1 : World)
    (pre : list Event) :
  m w = addTrace pre (m' w1) → bind m k w = addTrace pre (bind m' k w1).
Proof.
  intros H. unfold bind. rewrite H. destruct (m' w1) as [|a w2 tr]; [done|].
  simpl. by rewrite addTrace_addTrace.
Qed.

Lemma invokeReaper_not_pending (reap : Reaper) (s : sockid) (w : World) :
  reaper (sock w s) && negb (reaped (sock w s)) = false →
  invokeReaper reap s w = Ok tt w [].
Proof.
  intros H. unfold invokeReaper. rewrite bind_get.
  destruct (reaper (sock w s)), (reaped (sock w s)); try done.
Qed.

(** With a callback that does nothing [closeDoneWith] is [closeDone]. *)
Lemma closeDone_is_closeDoneWith (s : sockid) (w : World) :
  closeDoneWith (λ _ _, ret tt) s w = closeDone s w.
Proof.
  unfold closeDoneWith, closeDone, invokeReaper.
  apply bind_ext. intros _ w1. apply bind_ext. intros _ w2.
  apply bind_ext. intros w3 w4.
  destruct (_ && _); [|done]. apply bind_ext. intros _ w5.
  by rewrite bind_ret.
Qed.

Lemma closeDoneWith_eq (reap : Reaper) (s : sockid) (n : nat) (w : World) :
  chanGuarded w → tableOwned w → wg (sock w s) = S n →
  ∃ w1 pre,
    closeDoneWith reap s w = addTrace pre (invokeReaper reap s w1) ∧
    Forall writesNothing pre ∧
    allSockets w1 = allSockets w ∖ {[s]} ∧
    wg (sock w1 s) = n ∧
    lastCommandID w1 = lastCommandID w ∧
    (∀ v, v ≠ s → sock w1 v = sock w v) ∧
    reaper (sock w1 s) = reaper (sock w s) ∧
    reaped (sock w1 s) = reaped (sock w s) ∧
    clientIP (sock w1 s) = clientIP (sock w s) ∧
    chanGuarded w1 ∧ tableOwned w1.
Proof.
  intros Hg Ht Hwg.
  set (w0 := set_sock s (with_wg n) w).
  assert (Hk0 : sock w0 s = with_wg n (sock w s)) by apply sock_set_sock.
  assert (Hg0 : chanGuarded w0).
  { apply chanGuarded_set_sock; [done|]. apply (Hg s). }
  assert (Ht0 : tableOwned w0) by (by apply tableOwned_set_sock).
  exists (closedWorld s w0), (closeTrace s w0). split.
  { unfold closeDoneWith, wg_Done. mrun. rewrite Hwg. mrun. fold w0.
    by rewrite (bind_Ok _ _ _ _ _ _ (Close_eq s w0 (Hg0 s))). }
  split; [apply closeTrace_writesNothing|].
  split; [by rewrite allSockets_closedWorld|].
  rewrite sock_closedWorld, Hk0.
  split; [done|]. split; [done|]. split.
  { intros v Hv. rewrite sock_closedWorld_ne by done.
    unfold w0. by rewrite sock_set_sock_ne. }
  split; [done|]. split; [done|]. split; [done|].
  split; [by apply chanGuarded_closedWorld|by apply tableOwned_closedWorld].
Qed.

(** X10.  When the transport refuses a frame, the tunnel-read pump has
    written that frame once and, up to the reaper, writes no other: the
    Endpoint is closed and taken out of the Global Endpoint Set, the
    goroutine is counted off, no other Endpoint and not the command
    counter are touched, and the frames that follow are not read.  On that
    state a pending reaper is invoked, once; what else is written, the
    reaper writes.  With no reaper pending the pump returns there. *)
Theorem ifacePump_stops_at_failed_write (reap : Reaper) (s : sockid)
    (d : list byte) (rest : list IfaceRead) (n : nat) (w : World) :
  chanGuarded w → tableOwned w →
  writable (sock w s) = false → wg (sock w s) = S n →
  ∃ w1 pre,
    ifacePumpWith reap s (IfaceReadOk d :: rest) w
      = addTrace pre ((invokeReaper reap s ;; ret Return) w1) ∧
    (∀ v, connWrites v pre
          = if decide (v = s) then [(BinaryMessage, d)] else []) ∧
    (∀ v, ifaceWrites v pre = []) ∧
    allSockets w1 = allSockets w ∖ {[s]} ∧
    wg (sock w1 s) = n ∧
    lastCommandID w1 = lastCommandID w ∧
    (∀ v, v ≠ s → sock w1 v = sock w v) ∧
    reaper (sock w1 s) = reaper (sock w s) ∧
    reaped (sock w1 s) = reaped (sock w s) ∧
    chanGuarded w1 ∧ tableOwned w1 ∧
    (reaper (sock w s) && negb (reaped (sock w s)) = false →
     ifacePumpWith reap s (IfaceReadOk d :: rest) w = Ok Return w1 pre).
Proof.
  intros Hg Ht Hw Hwg.
  pose proof (WriteMessage_eq s BinaryMessage d w (Hg s)) as Hwm.
  rewrite Hw in Hwm.
  assert (Hk : sock (closedWorld s w) s = closedSocket (sock w s))
    by apply sock_closedWorld.
  destruct (closeDoneWith_eq reap s n (closedWorld s w))
    as (w1 & pre & Hc & Hn & Hall & Hwg1 & Hl & Hoth & Hr & Hd & _ & Hg1 & Ht1).
  { by apply chanGuarded_closedWorld. }
  { by apply tableOwned_closedWorld. }
  { by rewrite Hk. }
  rewrite Hk in Hr, Hd. simpl in Hr, Hd.
  assert (Hrun : ifacePumpWith reap s (IfaceReadOk d :: rest) w
                 = addTrace ([ConnWrite s BinaryMessage d; Log s LogWriteError]
                               ++ closeTrace s w ++ pre)
                     ((invokeReaper reap s ;; ret Return) w1)).
  { unfold ifacePumpWith.
    change (ifaceLoop s (IfaceReadOk d :: rest))
      with (do err <- WriteMessage s BinaryMessage d;
            match err with
            | Some _ => ret Return
            | None => ifaceLoop s rest
            end).
    rewrite bind_bind, (bind_Ok _ _ _ _ _ _ Hwm). cbv beta iota.
    rewrite bind_ret. cbv beta iota.
    rewrite (bind_addTrace _ _ _ _ _ _ Hc), addTrace_addTrace.
    reflexivity. }
  exists w1, ([ConnWrite s BinaryMessage d; Log s LogWriteError]
              ++ closeTrace s w ++ pre).
  split; [exact Hrun|]. split.
  { intros v. rewrite !connWrites_app.
    destruct (closeTrace_no_writes s v w) as [-> _].
    destruct (writesNothing_no_writes v pre Hn) as [-> _].
    simpl. destruct (decide (s = v)) as [->|Hne].
    - by rewrite decide_True.
    - by rewrite decide_False by done. }
  split.
  { intros v. rewrite !ifaceWrites_app.
    destruct (closeTrace_no_writes s v w) as [_ ->].
    destruct (writesNothing_no_writes v pre Hn) as [_ ->]. done. }
  split.
  { rewrite Hall, allSockets_closedWorld. apply set_eq. intros v.
    rewrite !elem_of_difference. tauto. }
  split; [done|]. split; [done|]. split.
  { intros v Hv. rewrite Hoth by done. by apply sock_closedWorld_ne. }
  split; [done|]. split; [done|]. split; [done|]. split; [done|].
  intros Hnp. rewrite Hrun.
  assert (Hnp1 : reaper (sock w1 s) && negb (reaped (sock w1 s)) = false)
    by (by rewrite Hr, Hd).
  rewrite (bind_Ok _ _ _ _ _ _ (invokeReaper_not_pending reap s w1 Hnp1)).
  unfold ret, addTrace. by rewrite !app_nil_r.
Qed.

Lemma ifacePump_stops_witness :
  let reap : Reaper := λ _ x, BroadcastCommand "update-peers" [x] ;; ret tt in
  let w := set_sock 1 (with_conn (MkConn false false)) twoEndpoints in
  chanGuarded w ∧ tableOwned w ∧
  writable (sock w 1) = false ∧ wg (sock w 1) = 3 ∧
  (∃ w1 pre,
     ifacePumpWith reap 1 [IfaceReadOk [x01]; IfaceReadOk [x02]] w
       = addTrace pre ((invokeReaper reap 1 ;; ret Return) w1) ∧
     connWrites 1 pre = [(BinaryMessage, [x01])] ∧
     connWrites 2 pre = []) ∧
  ∃ w' tr,
    ifacePumpWith reap 1 [IfaceReadOk [x01]; IfaceReadOk [x02]] w
      = Ok Return w' tr ∧
    connWrites 1 tr = [(BinaryMessage, [x01])] ∧
    connWrites 2 tr
      = [(TextMessage, list_byte_of_string "1|update-peers|10.0.0.2")].
Proof.
  cbv zeta.
  set (reap := (λ _ x, BroadcastCommand "update-peers" [x] ;; ret tt) : Reaper).
  set (w := set_sock 1 (with_conn (MkConn false false)) twoEndpoints).
  assert (Hg : chanGuarded w).
  { apply chanGuarded_set_sock; [apply chanGuarded_twoEndpoints|].
    apply (chanGuarded_twoEndpoints 1). }
  assert (Ht : tableOwned w).
  { apply tableOwned_set_sock; [apply tableOwned_twoEndpoints|done]. }
  assert (Hw : writable (sock w 1) = false) by (vm_compute; reflexivity).
  assert (Hn : wg (sock w 1) = 3) by (vm_compute; reflexivity).
  split; [exact Hg|]. split; [exact Ht|]. split; [exact Hw|].
  split; [exact Hn|]. split.
  - destruct (ifacePump_stops_at_failed_write reap 1 [x01] [IfaceReadOk [x02]]
                2 w Hg Ht Hw Hn) as (w1 & pre & Hr & Hc & _).
    exists w1, pre. split; [exact Hr|]. by rewrite !Hc.
  - assert (Hrun :
      match ifacePumpWith reap 1 [IfaceReadOk [x01]; IfaceReadOk [x02]] w with
      | Ok c _ tr => Some (c, connWrites 1 tr, connWrites 2 tr)
      | Panic => None
      end
      = Some (Return, [(BinaryMessage, [x01])],
              [(TextMessage, list_byte_of_string "1|update-peers|10.0.0.2")]))
      by (vm_compute; reflexivity).
    destruct (ifacePumpWith reap 1 [IfaceReadOk [x01]; IfaceReadOk [x02]] w)
      as [|c w' tr]; [discriminate Hrun|].
    injection Hrun as -> H1 H2. by exists w', tr.
Defined.

(** ** The end of the transport-read pump *)

Lemma serveLoop_stops_at_error (hs : Handlers) (s : sockid)
    (pre rest : list ReadResult) (u : bool) (w : World) :
  serveLoop hs s (pre ++ ReadErr u :: rest) w
  = serveLoop hs s (pre ++ [ReadErr u]) w.
Proof.
  revert w. induction pre as [|r pre IH]; intros w.
  - cbn [app serveLoop serveStep]. unfold when. destruct u; mrun; reflexivity.
  - cbn [app serveLoop]. apply bind_ext. intros c w1.
    destruct c; [apply IH|done].
Qed.

(** X11.  A read error ends the transport-read pump: nothing that would
    have been read after it is processed, an unexpected error is logged
    and the expected going-away close is not, and the deferred [closeDone]
    closes the Endpoint, takes it out of the Global Endpoint Set and
    counts the goroutine off without writing to any transport or tunnel
    interface and without touching another Endpoint or the command
    counter.  On that state a pending reaper is invoked, once; what is
    written after the read error, the reaper writes.  With no reaper
    pending the pump returns there. *)
Theorem readPump_ends_at_read_error (reap : Reaper) (hs : Handlers)
    (s : sockid) (unexpected : bool) (rest : list ReadResult) (n : nat)
    (w : World) :
  chanGuarded w → tableOwned w → wg (sock w s) = S n →
  ∃ w1 pre,
    readPumpWith reap hs s (ReadErr unexpected :: rest) w
      = addTrace ((if unexpected then [Log s LogWsReadError] else []) ++ pre)
          ((invokeReaper reap s ;; ret Return) w1) ∧
    Forall writesNothing pre ∧
    allSockets w1 = allSockets w ∖ {[s]} ∧
    wg (sock w1 s) = n ∧
    lastCommandID w1 = lastCommandID w ∧
    (∀ v, v ≠ s → sock w1 v = sock w v) ∧
    reaper (sock w1 s) = reaper (sock w s) ∧
    reaped (sock w1 s) = reaped (sock w s) ∧
    chanGuarded w1 ∧ tableOwned w1 ∧
    (reaper (sock w s) && negb (reaped (sock w s)) = false →
     readPumpWith reap hs s (ReadErr unexpected :: rest) w
       = Ok Return w1
           ((if unexpected then [Log s LogWsReadError] else []) ++ pre)).
Proof.
  intros Hg Ht Hwg.
  destruct (closeDoneWith_eq reap s n w Hg Ht Hwg)
    as (w1 & pre & Hc & Hn & Hall & Hwg1 & Hl & Hoth & Hr & Hd & _ & Hg1 & Ht1).
  assert (Hloop : serveLoop hs s (ReadErr unexpected :: rest) w
                  = Ok Return w
                      (if unexpected then [Log s LogWsReadError] else [])).
  { change (ReadErr unexpected :: rest)
      with ([] ++ ReadErr unexpected :: rest).
    rewrite (serveLoop_stops_at_error hs s [] rest unexpected w).
    cbn [app serveLoop serveStep]. unfold when.
    destruct unexpected; mrun; reflexivity. }
  assert (Hrun : readPumpWith reap hs s (ReadErr unexpected :: rest) w
                 = addTrace
                     ((if unexpected then [Log s LogWsReadError] else [])
                        ++ pre)
                     ((invokeReaper reap s ;; ret Return) w1)).
  { unfold readPumpWith. rewrite (bind_Ok _ _ _ _ _ _ Hloop). cbv beta iota.
    by rewrite (bind_addTrace _ _ _ _ _ _ Hc), addTrace_addTrace. }
  exists w1, pre. split; [exact Hrun|].
  split; [done|]. split; [done|]. split; [done|]. split; [done|].
  split; [done|]. split; [done|]. split; [done|]. split; [done|].
  split; [done|].
  intros Hnp. rewrite Hrun.
  assert (Hnp1 : reaper (sock w1 s) && negb (reaped (sock w1 s)) = false)
    by (by rewrite Hr, Hd).
  rewrite (bind_Ok _ _ _ _ _ _ (invokeReaper_not_pending reap s w1 Hnp1)).
  unfold ret, addTrace. by rewrite !app_nil_r.
Qed.

Lemma readPump_ends_witness :
  let reap : Reaper := λ _ x, BroadcastCommand "update-peers" [x] ;; ret tt in
  chanGuarded twoEndpoints ∧ tableOwned twoEndpoints ∧
  wg (sock twoEndpoints 1) = 3 ∧
  (∃ w1 pre,
     readPumpWith reap noHandlers 1
       [ReadErr false; ReadOk BinaryMessage (frame macB macA)] twoEndpoints
       = addTrace pre ((invokeReaper reap 1 ;; ret Return) w1) ∧
     Forall writesNothing pre ∧
     allSockets w1 = allSockets twoEndpoints ∖ {[1]}) ∧
  ∃ w' tr,
    readPumpWith reap noHandlers 1
      [ReadErr false; ReadOk BinaryMessage (frame macB macA)] twoEndpoints
      = Ok Return w' tr ∧
    connWrites 1 tr = [] ∧
    connWrites 2 tr
      = [(TextMessage, list_byte_of_string "1|update-peers|10.0.0.2")].
Proof.
  cbv zeta.
  set (reap := (λ _ x, BroadcastCommand "update-peers" [x] ;; ret tt) : Reaper).
  assert (Hn : wg (sock twoEndpoints 1) = 3) by reflexivity.
  split; [apply chanGuarded_twoEndpoints|].
  split; [apply tableOwned_twoEndpoints|]. split; [exact Hn|]. split.
  - destruct (readPump_ends_at_read_error reap noHandlers 1 false
                [ReadOk BinaryMessage (frame macB macA)] 2 twoEndpoints
                chanGuarded_twoEndpoints tableOwned_twoEndpoints Hn)
      as (w1 & pre & Hr & Hnw & Hall & _).
    exists w1, pre. split; [exact Hr|]. split; [exact Hnw|exact Hall].
  - assert (Hrun :
      match readPumpWith reap noHandlers 1
              [ReadErr false; ReadOk BinaryMessage (frame macB macA)]
              twoEndpoints with
      | Ok c _ tr => Some (c, connWrites 1 tr, connWrites 2 tr)
      | Panic => None
      end
      = Some (Return, [],
              [(TextMessage, list_byte_of_string "1|update-peers|10.0.0.2")]))
      by (vm_compute; reflexivity).
    destruct (readPumpWith reap noHandlers 1
                [ReadErr false; ReadOk BinaryMessage (frame macB macA)]
                twoEndpoints) as [|c w' tr]; [discriminate Hrun|].
    injection Hrun as -> H1 H2. by exists w', tr.
Defined.

(** ** The keepalive supervisor *)

(** X12.  A timer tick that comes more than 30 seconds after the last
    acknowledgement ends the keepalive supervisor without a probe: the
    timeout is logged, the Endpoint is closed and taken out of the Global
    Endpoint Set without a write to any transport or tunnel interface, and
    later events are not looked at; a pending reaper is then invoked, and
    what is written after the timeout, the reaper writes.  A tick at 30
    seconds or less is no timeout: the probe, a ping with no payload, is
    written first. *)
Theorem keepalive_timeout_sends_no_ping (reap : Reaper) (s : sockid)
    (lastResponse now : Z) (rest : list KeepaliveEvent) (n : nat)
    (w : World) :
  chanGuarded w → tableOwned w → wg (sock w s) = S n →
  ((keepaliveTimeout < now - lastResponse)%Z →
     ∃ w1 pre,
       keepalivePumpWith reap s lastResponse (Tick now :: rest) w
         = addTrace (Log s LogPingTimeout :: pre)
             ((invokeReaper reap s ;; ret Return) w1) ∧
       Forall writesNothing pre ∧
       allSockets w1 = allSockets w ∖ {[s]} ∧
       wg (sock w1 s) = n ∧
       lastCommandID w1 = lastCommandID w ∧
       (∀ v, v ≠ s → sock w1 v = sock w v) ∧
       reaper (sock w1 s) = reaper (sock w s) ∧
       reaped (sock w1 s) = reaped (sock w s) ∧
       (reaper (sock w s) && negb (reaped (sock w s)) = false →
        keepalivePumpWith reap s lastResponse (Tick now :: rest) w
          = Ok Return w1 (Log s LogPingTimeout :: pre))) ∧
  ((now - lastResponse ≤ keepaliveTimeout)%Z →
     ∃ c w' tr,
       keepaliveLoop s lastResponse [Tick now] w
         = Ok c w' (ConnWrite s PingMessage [] :: tr)).
Proof.
  intros Hg Ht Hwg. split.
  - intros Hlate.
    destruct (closeDoneWith_eq reap s n w Hg Ht Hwg)
      as (w1 & pre & Hc & Hn & Hall & Hwg1 & Hl & Hoth & Hr & Hd & _).
    assert (Hrun : keepalivePumpWith reap s lastResponse (Tick now :: rest) w
                   = addTrace (Log s LogPingTimeout :: pre)
                       ((invokeReaper reap s ;; ret Return) w1)).
    { unfold keepalivePumpWith. cbn [keepaliveLoop].
      apply Z.ltb_lt in Hlate. rewrite Hlate. mrun.
      by rewrite (bind_addTrace _ _ _ _ _ _ Hc), addTrace_addTrace. }
    exists w1, pre. split; [exact Hrun|].
    split; [done|]. split; [done|]. split; [done|]. split; [done|].
    split; [done|]. split; [done|]. split; [done|].
    intros Hnp. rewrite Hrun.
    assert (Hnp1 : reaper (sock w1 s) && negb (reaped (sock w1 s)) = false)
      by (by rewrite Hr, Hd).
    rewrite (bind_Ok _ _ _ _ _ _ (invokeReaper_not_pending reap s w1 Hnp1)).
    unfold ret, addTrace. by rewrite !app_nil_r.
  - intros Hin.
    assert (Hb : (keepaliveTimeout <? now - lastResponse)%Z = false)
      by (apply Z.ltb_ge; lia).
    cbn [keepaliveLoop]. rewrite Hb.
    pose proof (WriteMessage_eq s PingMessage [] w (Hg s)) as Hwm.
    destruct (writable (sock w s)).
    + rewrite (bind_Ok _ _ _ _ _ _ Hwm). by eexists _, _, _.
    + rewrite (bind_Ok _ _ _ _ _ _ Hwm). by eexists _, _, _.
Qed.

Lemma keepalive_timeout_witness :
  let reap : Reaper := λ _ x, BroadcastCommand "update-peers" [x] ;; ret tt in
  chanGuarded twoEndpoints ∧ tableOwned twoEndpoints ∧
  wg (sock twoEndpoints 1) = 3 ∧
  (keepaliveTimeout < 45000000000 - 0)%Z ∧
  (∃ w1 pre,
     keepalivePumpWith reap 1 0 [Tick 45000000000; Tick 60000000000]
       twoEndpoints
       = addTrace (Log 1 LogPingTimeout :: pre)
           ((invokeReaper reap 1 ;; ret Return) w1) ∧
     Forall writesNothing pre ∧
     allSockets w1 = allSockets twoEndpoints ∖ {[1]}) ∧
  ∃ w' tr,
    keepalivePumpWith reap 1 0 [Tick 45000000000; Tick 60000000000]
      twoEndpoints = Ok Return w' tr ∧
    connWrites 1 tr = [] ∧
    connWrites 2 tr
      = [(TextMessage, list_byte_of_string "1|update-peers|10.0.0.2")].
Proof.
  cbv zeta.
  set (reap := (λ _ x, BroadcastCommand "update-peers" [x] ;; ret tt) : Reaper).
  assert (Hn : wg (sock twoEndpoints 1) = 3) by reflexivity.
  assert (Hl : (keepaliveTimeout < 45000000000 - 0)%Z)
    by (unfold keepaliveTimeout; lia).
  split; [apply chanGuarded_twoEndpoints|].
  split; [apply tableOwned_twoEndpoints|]. split; [exact Hn|].
  split; [exact Hl|]. split.
  - destruct (keepalive_timeout_sends_no_ping reap 1 0 45000000000
                [Tick 60000000000] 2 twoEndpoints
                chanGuarded_twoEndpoints tableOwned_twoEndpoints Hn)
      as [Hlate _].
    destruct (Hlate Hl) as (w1 & pre & Hr & Hnw & Hall & _).
    exists w1, pre. split; [exact Hr|]. split; [exact Hnw|exact Hall].
  - assert (Hrun :
      match keepalivePumpWith reap 1 0 [Tick 45000000000; Tick 60000000000]
              twoEndpoints with
      | Ok c _ tr => Some (c, connWrites 1 tr, connWrites 2 tr)
      | Panic => None
      end
      = Some (Return, [],
              [(TextMessage, list_byte_of_string "1|update-peers|10.0.0.2")]))
      by (vm_compute; reflexivity).
    destruct (keepalivePumpWith reap 1 0 [Tick 45000000000; Tick 60000000000]
                twoEndpoints) as [|c w' tr]; [discriminate Hrun|].
    injection Hrun as -> H1 H2. by exists w', tr.
Defined.

(** X13.  As long as every tick comes within 30 seconds of the
    acknowledgement before it and the transport accepts writes, the
    keepalive supervisor keeps running and leaves the shared state alone:
    what it writes is one ping with no payload per tick, on its own
    transport. *)
Theorem keepalive_pings_once_per_tick (s : sockid) (lastResponse : Z)
    (events : list KeepaliveEvent) (w : World) :
  writable (sock w s) = true →
  ticksInTime lastResponse events = true →
  keepaliveLoop s lastResponse events w
  = Ok Continue w
      (map (λ _, ConnWrite s PingMessage []) (List.filter isTick events)).
Proof.
  intros Hw. revert lastResponse.
  induction events as [|e events IH]; intros lastResponse Hin.
  - reflexivity.
  - destruct e as [now|now|]; cbn [ticksInTime] in Hin.
    + apply andb_true_iff in Hin as [Hnow Hrest].
      assert (Hb : (keepaliveTimeout <? now - lastResponse)%Z = false)
        by (apply Z.ltb_ge; by apply Z.leb_le).
      cbn [keepaliveLoop List.filter isTick map]. rewrite Hb.
      rewrite (bind_Ok _ _ _ _ _ _ (WriteMessage_writable s _ [] w Hw)).
      cbv beta iota. by rewrite (IH lastResponse Hrest).
    + cbn [keepaliveLoop List.filter isTick]. by apply IH.
    + discriminate Hin.
Qed.

Lemma keepalive_pings_witness :
  writable (sock twoEndpoints 1) = true ∧
  ticksInTime 0 [Tick 15000000000; Pong 15000001000; Tick 30000000000;
                 Tick 45000000000] = true ∧
  keepaliveLoop 1 0 [Tick 15000000000; Pong 15000001000; Tick 30000000000;
                     Tick 45000000000] twoEndpoints
  = Ok Continue twoEndpoints
      [ConnWrite 1 PingMessage []; ConnWrite 1 PingMessage [];
       ConnWrite 1 PingMessage []].
Proof.
  assert (Hw : writable (sock twoEndpoints 1) = true) by reflexivity.
  assert (Ht : ticksInTime 0 [Tick 15000000000; Pong 15000001000;
                              Tick 30000000000; Tick 45000000000] = true)
    by reflexivity.
  split; [exact Hw|]. split; [exact Ht|].
  apply (keepalive_pings_once_per_tick 1 0 _ twoEndpoints Hw Ht).
Defined.

(** ** Splitting and joining *)

(** X14.  Splitting never loses anything: joining the fields of any text
    with the separator gives the text back, and the number of fields is
    one more than the number of separators in the text, so there is always
    at least one field. *)
Theorem Join_Split_identity (sep : ascii) (s : string) :
  Join (Split s sep) (String sep EmptyString) = s ∧
  length (Split s sep) = S (countByte sep s).
Proof.
  induction s as [|c s [IHj IHl]]; [done|].
  cbn [Split countByte]. destruct (Ascii.eqb c sep) eqn:E.
  - apply Ascii.eqb_eq in E as ->. split; [|cbn [length]; by rewrite IHl].
    destruct (Split s sep) as [|f fs] eqn:Hs;
      [exfalso; by apply (Split_nonempty sep s)|].
    change (Join (EmptyString :: f :: fs) (String sep EmptyString))
      with (String sep (Join (f :: fs) (String sep EmptyString))).
    by rewrite IHj.
  - destruct (Split s sep) as [|f fs] eqn:Hs;
      [exfalso; by apply (Split_nonempty sep s)|].
    split; [|cbn [length] in *; lia].
    rewrite <- IHj. by destruct fs.
Qed.

Lemma Split_Join (sep : ascii) (fields : list string) :
  fields ≠ [] →
  Forall (λ f, containsByte sep f = false) fields →
  Split (Join fields (String sep EmptyString)) sep = fields.
Proof.
  intros Hne Hall. induction Hall as [|f fs Hf Hfs IH]; [done|].
  destruct fs as [|g fs].
  - simpl. by apply Split_no_sep.
  - change (Join (f :: g :: fs) (String sep EmptyString))
      with (f +:+ String sep (Join (g :: fs) (String sep EmptyString))).
    rewrite Split_app_sep by done. by rewrite IH.
Qed.

(** X15.  Joining fields none of which holds the separator and splitting
    the result gives the fields back, the empty ones included; only the
    empty list does not come back, it becomes one empty field. *)
Theorem Split_Join_roundtrip (sep : ascii) (fields : list string) :
  Forall (λ f, containsByte sep f = false) fields →
  Split (Join fields (String sep EmptyString)) sep
  = match fields with [] => [EmptyString] | _ => fields end.
Proof.
  intros Hall. destruct fields as [|f fs]; [done|].
  by apply Split_Join.
Qed.

Lemma Split_Join_roundtrip_witness :
  Forall (λ f, containsByte "|" f = false)
    ["10.137.248.0/24"; ""; "1500"]%string ∧
  Split (Join ["10.137.248.0/24"; ""; "1500"]%string "|") "|"
  = ["10.137.248.0/24"; ""; "1500"]%string.
Proof.
  assert (H : Forall (λ f, containsByte "|" f = false)
                ["10.137.248.0/24"; ""; "1500"]%string)
    by (repeat constructor).
  split; [exact H|].
  apply (Split_Join_roundtrip "|" ["10.137.248.0/24"; ""; "1500"]%string H).
Defined.

(** ** Sending commands *)

Lemma encodeCommand_Join (commandId command : string) (args : list string) :
  encodeCommand commandId command args
  = Join (commandId :: command ::
            match args with [] => [EmptyString] | _ => args end) "|".
Proof. unfold encodeCommand. by destruct args. Qed.

(** The fields of an encoded command. *)
Lemma Split_encodeCommand (commandId command : string) (args : list string) :
  containsByte "|" commandId = false → containsByte "|" command = false →
  Forall (λ a, containsByte "|" a = false) args →
  Split (encodeCommand commandId command args) "|"
  = commandId :: command ::
      match args with [] => [EmptyString] | _ => args end.
Proof.
  intros Hi Hc Ha. rewrite encodeCommand_Join.
  apply Split_Join; [done|].
  constructor; [done|]. constructor; [done|].
  destruct args; [by constructor|done].
Qed.

(** One [SendCommand]: the counter moves on by one, modulo 2^64, also when
    the write fails; one text message goes to the transport of [s]. *)
Lemma SendCommand_full (s : sockid) (command : string) (args : list string)
    (w : World) :
  chanGuarded w →
  ∃ err w' tr,
    SendCommand s command args w = Ok err w' tr ∧
    chanGuarded w' ∧ (tableOwned w → tableOwned w') ∧
    allSockets w' ⊆ allSockets w ∧
    lastCommandID w' = ((lastCommandID w + 1) mod 2 ^ 64)%N ∧
    (∀ v, connWrites v tr
          = if decide (v = s)
            then [(TextMessage,
                   list_byte_of_string
                     (encodeCommand
                        (Sprintf_d ((lastCommandID w + 1) mod 2 ^ 64)%N)
                        command args))]
            else []).
Proof.
  intros Hg.
  set (n := ((lastCommandID w + 1) mod 2 ^ 64)%N).
  set (w0 := set_lastCommandID n w).
  assert (Hg0 : chanGuarded w0) by apply Hg.
  set (data := list_byte_of_string (encodeCommand (Sprintf_d n) command args)).
  destruct (WriteMessage_spec s TextMessage data w0 Hg0)
    as (err & w' & tr & Hw & Hg' & Ht' & _ & Hc & _).
  destruct (WriteMessage_cases s TextMessage data w0 Hg0)
    as (err2 & w2 & tr2 & Hw2 & Hcase & _).
  rewrite Hw in Hw2. injection Hw2 as <- <- <-.
  exists err, w', tr. split.
  { unfold SendCommand, nextCommandID, rawSendCommand. mrun.
    fold n. fold w0. fold data. by rewrite Hw. }
  split; [done|]. split; [apply Ht'|].
  split; [|split; [|done]].
  - destruct Hcase as [[_ ->]|[_ ->]]; [done|].
    rewrite allSockets_closedWorld. intros v. rewrite elem_of_difference.
    tauto.
  - by destruct Hcase as [[_ ->]|[_ ->]].
Qed.

(** X16.  A command sent with at least one argument arrives as it was sent:
    when neither the name nor any argument holds the delimiter and the
    name is not [reply], [SendCommand] moves the command counter on by
    one, modulo 2^64, and writes one text message whose fields are the new
    value of the counter in decimal, the name and the arguments; an
    Endpoint that receives it and has a handler registered for the name
    runs that handler on exactly these arguments, then replies under the
    same number. *)
Theorem SendCommand_delivers_arguments (s : sockid) (command : string)
    (args : list string) (w : World) :
  containsByte "|" command = false →
  command ≠ "reply"%string →
  Forall (λ a, containsByte "|" a = false) args →
  args ≠ [] →
  chanGuarded w →
  let commandId := Sprintf_d ((lastCommandID w + 1) mod 2 ^ 64)%N in
  ∃ err w' tr,
    SendCommand s command args w = Ok err w' tr ∧
    lastCommandID w' = ((lastCommandID w + 1) mod 2 ^ 64)%N ∧
    connWrites s tr
      = [(TextMessage,
          list_byte_of_string (encodeCommand commandId command args))] ∧
    Split (encodeCommand commandId command args) "|"
      = commandId :: command :: args ∧
    ∀ (hs : Handlers) (r : sockid) (msg : slice) handler (wr : World),
      sl_data msg
        = list_byte_of_string (encodeCommand commandId command args) →
      hs r command = Some handler →
      serveText hs r msg wr
        = bind (handler args) (replyTo r commandId command) wr.
Proof.
  intros Hc Hnr Ha Hne Hg. cbv zeta.
  destruct (SendCommand_full s command args w Hg)
    as (err & w' & tr & Hs & _ & _ & _ & Hl & Hw).
  set (commandId := Sprintf_d ((lastCommandID w + 1) mod 2 ^ 64)%N) in *.
  assert (Hsp : Split (encodeCommand commandId command args) "|"
                = commandId :: command :: args).
  { rewrite Split_encodeCommand; [|apply Sprintf_d_no_bar|done|done].
    by destruct args. }
  exists err, w', tr.
  split; [done|]. split; [done|].
  split; [by rewrite Hw, decide_True|]. split; [done|].
  intros hs r msg handler wr Hdata Hh.
  rewrite (serveText_dispatch hs r msg commandId command args);
    [by rewrite Hh| |done].
  by rewrite Hdata, string_of_list_byte_of_string.
Qed.

Lemma SendCommand_delivers_witness :
  let args := ["10.0.0.0/30"; "10.0.0.2"; "1280"; "10.0.0.1"]%string in
  containsByte "|" "init" = false ∧ "init"%string ≠ "reply"%string ∧
  Forall (λ a, containsByte "|" a = false) args ∧ args ≠ [] ∧
  chanGuarded twoEndpoints ∧
  ∃ err w' tr,
    SendCommand 1 "init" args twoEndpoints = Ok err w' tr ∧
    lastCommandID w' = 1%N ∧
    Split (encodeCommand "1" "init" args) "|"
      = "1"%string :: "init"%string :: args.
Proof.
  cbv zeta.
  assert (Ha : Forall (λ a, containsByte "|" a = false)
                 ["10.0.0.0/30"; "10.0.0.2"; "1280"; "10.0.0.1"]%string)
    by (repeat constructor).
  assert (Hne : ["10.0.0.0/30"; "10.0.0.2"; "1280"; "10.0.0.1"]%string ≠ [])
    by discriminate.
  assert (Hnr : "init"%string ≠ "reply"%string) by discriminate.
  split; [reflexivity|]. split; [exact Hnr|]. split; [exact Ha|].
  split; [exact Hne|]. split; [apply chanGuarded_twoEndpoints|].
  destruct (SendCommand_delivers_arguments 1 "init" _ twoEndpoints
              eq_refl Hnr Ha Hne chanGuarded_twoEndpoints)
    as (err & w' & tr & Hs & Hl & _ & Hsp & _).
  by exists err, w', tr.
Defined.

(** Sending one command to each Endpoint of a duplicate-free list. *)
Lemma forEach_SendCommand (command : string) (args : list string)
    (l : list sockid) (w : World) :
  chanGuarded w → NoDup l → (lastCommandID w < 2 ^ 64)%N →
  ∃ w' tr,
    forEach l (λ v, SendCommand v command args ;; ret tt) w = Ok tt w' tr ∧
    chanGuarded w' ∧ (tableOwned w → tableOwned w') ∧
    allSockets w' ⊆ allSockets w ∧
    lastCommandID w'
      = ((lastCommandID w + N.of_nat (length l)) mod 2 ^ 64)%N ∧
    (∀ v i, l !! i = Some v →
       connWrites v tr
       = [(TextMessage,
           list_byte_of_string
             (encodeCommand
                (Sprintf_d ((lastCommandID w + 1 + N.of_nat i) mod 2 ^ 64)%N)
                command args))]) ∧
    (∀ v, v ∉ l → connWrites v tr = []).
Proof.
  intros Hg Hnd. revert w Hg.
  induction l as [|x l IH]; intros w Hg Hlt.
  - exists w, []. split; [reflexivity|].
    split; [done|]. split; [done|]. split; [done|].
    split; [|split; [by intros v i ?|done]].
    simpl. rewrite N.add_0_r. by rewrite N.mod_small.
  - apply NoDup_cons in Hnd as [Hx Hnd].
    destruct (SendCommand_full x command args w Hg)
      as (err & w1 & tr1 & Hs & Hg1 & Ht1 & Hsub1 & Hl1 & Hc1).
    assert (Hlt1 : (lastCommandID w1 < 2 ^ 64)%N).
    { rewrite Hl1. apply N.mod_lt. done. }
    destruct (IH Hnd w1 Hg1 Hlt1)
      as (w2 & tr2 & Hr & Hg2 & Ht2 & Hsub2 & Hl2 & Hin2 & Hout2).
    exists w2, (tr1 ++ tr2). split.
    { simpl. rewrite bind_bind, (bind_Ok _ _ _ _ _ _ Hs). mrun. by rewrite Hr. }
    split; [done|]. split; [auto|]. split; [by etrans|].
    split; [|split].
    + rewrite Hl2, Hl1. rewrite N.Div0.add_mod_idemp_l.
      f_equal. simpl length. lia.
    + intros v i Hi. rewrite connWrites_app, Hc1.
      destruct i as [|i]; simpl in Hi.
      * injection Hi as ->. rewrite decide_True by done.
        rewrite Hout2 by done. simpl. rewrite N.add_0_r. done.
      * assert (Hvx : v ≠ x).
        { intros ->. apply Hx. by eapply list_elem_of_lookup_2. }
        rewrite decide_False by done. simpl.
        rewrite (Hin2 v i Hi), Hl1.
        assert (Hid : (((lastCommandID w + 1) mod 2 ^ 64 + 1 + N.of_nat i)
                         mod 2 ^ 64
                       = (lastCommandID w + 1 + N.of_nat (S i)) mod 2 ^ 64)%N).
        { rewrite <- N.add_assoc, N.Div0.add_mod_idemp_l. f_equal. lia. }
        by rewrite Hid.
    + intros v Hv. rewrite connWrites_app, Hc1.
      rewrite decide_False by (intros ->; apply Hv; by left).
      rewrite Hout2; [done|]. intros Hin. apply Hv. by right.
Qed.

(** The range of [BroadcastCommand] in the order of [elements] is one of
    the orders the runtime may pick. *)
Lemma BroadcastCommand_in_model_order (command : string) (args : list string)
    (w : World) :
  BroadcastCommand command args w
  = BroadcastCommandIn (elements (allSockets w)) command args w.
Proof.
  unfold BroadcastCommand. by rewrite bind_get.
Qed.

(** X17.  [BroadcastCommand] sends the command once to every Endpoint of
    the Global Endpoint Set, the one that broadcasts included, each under
    a command number of its own.  Whatever the order in which the range
    over the set yields the Endpoints, the numbers are the ones after the
    current counter, in that order, and the counter ends up advanced by
    the size of the set, modulo 2^64.  Nothing goes to an Endpoint outside
    the set, and the result is nil even when writes fail. *)
Theorem BroadcastCommand_once_each_with_fresh_id (targetList : list sockid)
    (command : string) (args : list string) (w : World) :
  targetList ≡ₚ elements (allSockets w) →
  chanGuarded w → (lastCommandID w < 2 ^ 64)%N →
  ∃ w' tr,
    BroadcastCommandIn targetList command args w = Ok None w' tr ∧
    chanGuarded w' ∧ (tableOwned w → tableOwned w') ∧
    lastCommandID w'
      = ((lastCommandID w + N.of_nat (size (allSockets w))) mod 2 ^ 64)%N ∧
    (∀ v i, targetList !! i = Some v →
       connWrites v tr
       = [(TextMessage,
           list_byte_of_string
             (encodeCommand
                (Sprintf_d ((lastCommandID w + 1 + N.of_nat i) mod 2 ^ 64)%N)
                command args))]) ∧
    (∀ v, v ∈ allSockets w → ∃ i, targetList !! i = Some v) ∧
    (∀ v, v ∉ allSockets w → connWrites v tr = []).
Proof.
  intros Hp Hg Hlt.
  assert (Hnd : NoDup targetList) by (rewrite Hp; apply NoDup_elements).
  destruct (forEach_SendCommand command args targetList w Hg Hnd Hlt)
    as (w' & tr & Hr & Hg' & Ht' & _ & Hl & Hin & Hout).
  exists w', tr. split.
  { unfold BroadcastCommandIn.
    rewrite (bind_Ok _ _ _ _ _ _ Hr). unfold ret, addTrace.
    by rewrite app_nil_r. }
  split; [done|]. split; [done|]. split.
  { rewrite Hl. by rewrite (Permutation_length Hp). }
  split; [exact Hin|]. split.
  - intros v Hv. apply list_elem_of_lookup_1. rewrite Hp.
    by apply elem_of_elements.
  - intros v Hv. apply Hout. by rewrite Hp, elem_of_elements.
Qed.

Lemma BroadcastCommand_witness :
  [1; 2] ≡ₚ elements (allSockets twoEndpoints) ∧
  chanGuarded twoEndpoints ∧ (lastCommandID twoEndpoints < 2 ^ 64)%N ∧
  ∃ w' tr,
    BroadcastCommandIn [1; 2] "update-peers" ["10.0.0.1"]%string
      twoEndpoints = Ok None w' tr ∧
    lastCommandID w' = 2%N ∧
    connWrites 1 tr
      = [(TextMessage, list_byte_of_string "1|update-peers|10.0.0.1")] ∧
    connWrites 2 tr
      = [(TextMessage, list_byte_of_string "2|update-peers|10.0.0.1")].
Proof.
  assert (He : elements (allSockets twoEndpoints) = [2; 1])
    by (vm_compute; reflexivity).
  assert (Hp : [1; 2] ≡ₚ elements (allSockets twoEndpoints))
    by (rewrite He; apply perm_swap).
  assert (Hlt : (lastCommandID twoEndpoints < 2 ^ 64)%N) by reflexivity.
  split; [exact Hp|].
  split; [apply chanGuarded_twoEndpoints|]. split; [exact Hlt|].
  destruct (BroadcastCommand_once_each_with_fresh_id [1; 2] "update-peers"
              ["10.0.0.1"]%string twoEndpoints Hp
              chanGuarded_twoEndpoints Hlt)
    as (w' & tr & Hr & _ & _ & Hl & Hin & _).
  exists w', tr. split; [exact Hr|]. split; [rewrite Hl; reflexivity|].
  split; [exact (Hin 1 0 eq_refl)|exact (Hin 2 1 eq_refl)].
Defined.

(** ** The peer list *)

(** What [connectedFrom] keeps of the records of a map, whatever the
    order: one entry for each key bound to a record. *)
Lemma connectedFrom_bound (m : gmap string (option Server.connection))
    (clients : list (option Server.connection)) :
  clients ≡ₚ (map_to_list m).*2 →
  ∃ bound : list (string * Server.connection),
    NoDup bound.*1 ∧
    (∀ k c, (k, c) ∈ bound ↔ m !! k = Some (Some c)) ∧
    connectedFrom clients ≡ₚ (λ kc, peerEntry kc.2) <$> bound.
Proof.
  intros Hp.
  pose (f := λ kv : string * option Server.connection,
               (λ c, (kv.1, c)) <$> kv.2).
  exists (omap f (map_to_list m)).
  assert (Hsub : ∀ (l : list (string * option Server.connection)) k,
             k ∈ (omap f l).*1 → k ∈ l.*1).
  { intros l k Hk. apply list_elem_of_fmap in Hk as [[k' c] [-> Hin]].
    apply list_elem_of_omap in Hin as [[k2 oc] [Hin Hf]].
    apply list_elem_of_fmap. exists (k2, oc). split; [|done].
    unfold f in Hf. destruct oc as [c2|]; simpl in Hf; [|done].
    by injection Hf as -> _. }
  split; [|split].
  - pose proof (NoDup_fst_map_to_list m) as Hnd. revert Hnd.
    generalize (map_to_list m). intros l.
    induction l as [|[k oc] l IH]; intros Hnd; [constructor|].
    apply NoDup_cons in Hnd as [Hk Hnd].
    destruct oc as [c|]; [|by apply IH].
    change (NoDup (k :: (omap f l).*1)).
    apply NoDup_cons. split; [|by apply IH].
    intros Hin. apply Hk. by apply Hsub.
  - intros k c. rewrite list_elem_of_omap. split.
    + intros [[k' oc] [Hin Hf]]. apply elem_of_map_to_list in Hin.
      unfold f in Hf. destruct oc as [c'|]; simpl in Hf; [|done].
      by injection Hf as -> ->.
    + intros Hl. exists (k, Some c). split; [|done].
      by apply elem_of_map_to_list.
  - unfold connectedFrom. rewrite Hp.
    generalize (map_to_list m). intros l.
    induction l as [|[k oc] l IH]; [done|].
    destruct oc as [c|]; [|exact IH].
    change (peerEntry c :: omap (λ client, peerEntry <$> client) l.*2
            ≡ₚ peerEntry c :: ((λ kc, peerEntry kc.2) <$> omap f l)).
    by constructor.
Qed.

(** X18.  On the server a [refresh-peers] command, whatever its arguments,
    makes one [update-peers] command go to every Endpoint of the Global
    Endpoint Set, each under its own command number, and all with the same
    list of entries; then the sender gets a [reply] with [true] under the
    number of its request.  The handler cannot fail, so the reply is never
    [false].  This holds whatever the order in which the two ranges, over
    the pool and over the set, yield their elements; the numbers follow
    the order of the second, the entries that of the first.  The list
    holds exactly one entry for each key of the pool that is bound to a
    record, and none for a free one. *)
Theorem refresh_peers_updates_all_then_replies (p : Server.serverCmd)
    (clients : list (option Server.connection)) (targetList : list sockid)
    (s : sockid) (msg : slice) (commandId : string) (args : list string)
    (w : World) :
  clients ≡ₚ (map_to_list (Server.assigned p)).*2 →
  targetList ≡ₚ elements (allSockets w) →
  Split (string_of_list_byte (sl_data msg)) "|"
    = commandId :: "refresh-peers"%string :: args →
  chanGuarded w → (lastCommandID w < 2 ^ 64)%N →
  let update (i : nat) :=
    (TextMessage,
     list_byte_of_string
       (encodeCommand (Sprintf_d ((lastCommandID w + 1 + N.of_nat i) mod 2 ^ 64)%N)
          "update-peers" (connectedFrom clients))) in
  let reply :=
    (TextMessage, list_byte_of_string (commandId +:+ "|reply|true")) in
  (∃ w' tr,
     serveStep (serverHandlersIn clients targetList) s
       (ReadOk TextMessage msg) w = Ok Continue w' tr ∧
     (∀ v i, targetList !! i = Some v →
        connWrites v tr
        = update i :: (if decide (v = s) then [reply] else [])) ∧
     (∀ v, v ∈ allSockets w → ∃ i, targetList !! i = Some v) ∧
     (∀ v, v ∉ allSockets w →
        connWrites v tr = if decide (v = s) then [reply] else [])) ∧
  (∃ bound : list (string * Server.connection),
     NoDup bound.*1 ∧
     (∀ k c, (k, c) ∈ bound ↔ Server.assigned p !! k = Some (Some c)) ∧
     connectedFrom clients ≡ₚ (λ kc, peerEntry kc.2) <$> bound).
Proof.
  intros Hpc Hpt Hsp Hg Hlt update reply. split.
  - assert (Hnd : NoDup targetList) by (rewrite Hpt; apply NoDup_elements).
    destruct (forEach_SendCommand "update-peers" (connectedFrom clients)
                targetList w Hg Hnd Hlt)
      as (w1 & tr1 & Hr & Hg1 & _ & _ & _ & Hin & Hout).
    destruct (replyTo_spec s commandId "refresh-peers" None w1 Hg1)
      as (w2 & tr2 & Hrep & _ & Hc2).
    exists w2, (tr1 ++ tr2). split.
    { apply serveStep_text.
      rewrite (serveText_dispatch (serverHandlersIn clients targetList) s msg
                 commandId "refresh-peers" args w Hsp) by discriminate.
      unfold serverHandlersIn. simpl String.eqb. cbv iota.
      unfold refreshPeersIn, BroadcastCommandIn.
      rewrite !bind_bind.
      rewrite (bind_Ok _ _ _ _ _ _ Hr). rewrite !bind_ret.
      by rewrite Hrep. }
    split; [|split].
    + intros v i Hi. rewrite connWrites_app, (Hin v i Hi), Hc2. done.
    + intros v Hv. apply list_elem_of_lookup_1. rewrite Hpt.
      by apply elem_of_elements.
    + intros v Hv. rewrite connWrites_app, Hc2, Hout; [done|].
      by rewrite Hpt, elem_of_elements.
  - by apply connectedFrom_bound.
Qed.

Lemma refresh_peers_witness :
  let alice := Server.MkConnection "10.0.0.2" "198.51.100.1" "alice" in
  let server := Server.MkConnection "10.0.0.1" "10.0.0.1" "vpn-server" in
  let clients := [Some alice; Some server; None] in
  let msg := bytes (list_byte_of_string "7|refresh-peers|now") in
  clients ≡ₚ (map_to_list (Server.assigned poolOfTwo)).*2 ∧
  [1; 2] ≡ₚ elements (allSockets twoEndpoints) ∧
  Split (string_of_list_byte (sl_data msg)) "|"
    = ["7"; "refresh-peers"; "now"]%string ∧
  chanGuarded twoEndpoints ∧ (lastCommandID twoEndpoints < 2 ^ 64)%N ∧
  ∃ w' tr,
    serveStep (serverHandlersIn clients [1; 2]) 1
      (ReadOk TextMessage msg) twoEndpoints = Ok Continue w' tr ∧
    connWrites 1 tr
      = [(TextMessage,
          list_byte_of_string
            (encodeCommand "1" "update-peers"
               [peerEntry alice; peerEntry server]));
         (TextMessage, list_byte_of_string "7|reply|true")] ∧
    connWrites 2 tr
      = [(TextMessage,
          list_byte_of_string
            (encodeCommand "2" "update-peers"
               [peerEntry alice; peerEntry server]))] ∧
    connWrites 3 tr = [].
Proof.
  cbv zeta.
  set (alice := Server.MkConnection "10.0.0.2" "198.51.100.1" "alice").
  set (server := Server.MkConnection "10.0.0.1" "10.0.0.1" "vpn-server").
  assert (Hm : (map_to_list (Server.assigned poolOfTwo)).*2
               = [None; Some server; Some alice])
    by (vm_compute; reflexivity).
  assert (Hpc : [Some alice; Some server; None]
                ≡ₚ (map_to_list (Server.assigned poolOfTwo)).*2)
    by (rewrite Hm; apply (Permutation_rev [Some alice; Some server; None])).
  assert (He : elements (allSockets twoEndpoints) = [2; 1])
    by (vm_compute; reflexivity).
  assert (Hpt : [1; 2] ≡ₚ elements (allSockets twoEndpoints))
    by (rewrite He; apply perm_swap).
  assert (Hsp : Split (string_of_list_byte
                         (sl_data (bytes (list_byte_of_string
                                            "7|refresh-peers|now")))) "|"
                = ["7"; "refresh-peers"; "now"]%string) by reflexivity.
  assert (Hlt : (lastCommandID twoEndpoints < 2 ^ 64)%N) by reflexivity.
  split; [exact Hpc|]. split; [exact Hpt|]. split; [exact Hsp|].
  split; [apply chanGuarded_twoEndpoints|]. split; [exact Hlt|].
  destruct (refresh_peers_updates_all_then_replies poolOfTwo
              [Some alice; Some server; None] [1; 2] 1
              _ "7" ["now"]%string twoEndpoints Hpc Hpt Hsp
              chanGuarded_twoEndpoints Hlt)
    as [(w' & tr & Hr & Hin & _ & Hout) _].
  exists w', tr. split; [exact Hr|].
  split; [exact (Hin 1 0 eq_refl)|].
  split; [exact (Hin 2 1 eq_refl)|].
  rewrite Hout; [reflexivity|].
  rewrite <- elem_of_elements, He. intros Hin3.
  apply list_elem_of_In in Hin3. simpl in Hin3. intuition discriminate.
Defined.

Lemma containsByte_app (c : ascii) (a b : string) :
  containsByte c (a +:+ b) = containsByte c a || containsByte c b.
Proof.
  induction a as [|x a IH]; simpl; [done|]. by rewrite IH, orb_assoc.
Qed.

Lemma Split_at_least_two (sep : ascii) (s : string) :
  containsByte sep s = true → ∃ f g fs, Split s sep = f :: g :: fs.
Proof.
  induction s as [|c s IH]; simpl; [done|].
  destruct (Ascii.eqb c sep) eqn:E; simpl.
  - intros _. destruct (Split s sep) as [|g fs] eqn:Hs;
      [exfalso; by apply (Split_nonempty sep s)|].
    by exists EmptyString, g, fs.
  - intros Hc. destruct (IH Hc) as (f & g & fs & ->).
    by exists (String c f), g, fs.
Qed.

(** X19.  What the client makes of a peer entry.  An entry without a tab
    cannot be taken apart: the index [out[1]] is out of range; every other
    entry can.  The entries the server builds always have a tab, and when
    neither the address nor the name holds one, the client gets back
    exactly the name and the address the server put in. *)
Theorem parsePeer_of_server_entry (c : Server.connection) :
  (∀ ent, parsePeer ent = None ↔ containsByte tab ent = false) ∧
  parsePeer (peerEntry c) ≠ None ∧
  (containsByte tab (Server.localIP c) = false →
   containsByte tab (Server.name c) = false →
   parsePeer (peerEntry c) = Some (Server.name c, Server.localIP c)).
Proof.
  assert (Hiff : ∀ ent, parsePeer ent = None ↔ containsByte tab ent = false).
  { intros ent. unfold parsePeer. split.
    - intros Hn. destruct (containsByte tab ent) eqn:Hc; [|done].
      destruct (Split_at_least_two tab ent Hc) as (f & g & fs & Hs).
      by rewrite Hs in Hn.
    - intros Hc. by rewrite Split_no_sep. }
  split; [exact Hiff|]. split.
  - rewrite Hiff. unfold peerEntry. rewrite containsByte_app.
    cbn [containsByte]. rewrite Ascii.eqb_refl. simpl.
    by rewrite orb_true_r.
  - intros Hip Hname. unfold parsePeer, peerEntry.
    rewrite Split_app_sep by done. by rewrite Split_no_sep.
Qed.

Lemma parsePeer_witness :
  let c := Server.MkConnection "10.0.0.2" "198.51.100.1" "alice" in
  containsByte tab (Server.localIP c) = false ∧
  containsByte tab (Server.name c) = false ∧
  parsePeer (peerEntry c) = Some ("alice", "10.0.0.2")%string.
Proof.
  cbv zeta. split; [reflexivity|]. split; [reflexivity|].
  destruct (parsePeer_of_server_entry
              (Server.MkConnection "10.0.0.2" "198.51.100.1" "alice"))
    as (_ & _ & H).
  apply H; reflexivity.
Defined.

(** ** The address pool, in general *)

Lemma assignedAt_set_assigned (k x : string) (c : option connection)
    (p : serverCmd) :
  assignedAt (set_assigned x c p) k
  = if decide (x = k) then c else assignedAt p k.
Proof.
  unfold assignedAt, set_assigned. simpl.
  destruct (decide (x = k)) as [->|Hne].
  - by rewrite lookup_insert_eq.
  - by rewrite lookup_insert_ne.
Qed.

(** What the scan of [pickIP] can end with. *)
Lemma pickLoop_cases (fuel : nat) (nm remote : string) (a : list byte)
    (p : serverCmd) (r : picked) (p' : serverCmd) :
  pickLoop fuel nm remote a p = Some (r, p') →
  match r with
  | Picked s =>
      assignedAt p s = None ∧ HasSuffix s ".0" = false ∧
      (∃ a', s = IPString a' ∧ Contains (subnet p) a' = true) ∧
      p' = set_assigned s (Some (MkConnection s remote nm)) p
  | OutOfAddresses => p' = p
  end.
Proof.
  revert a. induction fuel as [|fuel IH]; intros a; simpl.
  - destruct (Contains (subnet p) a); [done|]. by intros [= <- <-].
  - destruct (Contains (subnet p) a) eqn:Hc; [|by intros [= <- <-]].
    destruct (HasSuffix (IPString a) ".0") eqn:Hs; [apply IH|].
    destruct (bool_decide (assignedAt p (IPString a) = None)) eqn:Hf;
      [|apply IH].
    intros [= <- <-]. apply bool_decide_eq_true_1 in Hf.
    split; [done|]. split; [done|]. split; [by exists a|done].
Qed.

Lemma length_incIP_from_last (r : list byte) :
  length (incIP_from_last r) = length r.
Proof.
  induction r as [|b r IH]; [done|]. cbn [incIP_from_last].
  destruct (bool_decide _); cbn [length]; by rewrite ?IH.
Qed.

Lemma length_incIP (a : list byte) : length (incIP a) = length a.
Proof.
  unfold incIP. by rewrite length_rev, length_incIP_from_last, length_rev.
Qed.

Lemma length_IPMask_4 (a mask r : list byte) :
  length mask = 4 → IPMask a mask = Some r → length r = 4.
Proof.
  intros Hm. unfold IPMask.
  rewrite (bool_decide_eq_false_2 (length mask = 16 ∧ _)) by lia.
  destruct (bool_decide (length mask = 4 ∧ _)).
  all: destruct (bool_decide (_ = length mask)) eqn:E; [|done].
  all: apply bool_decide_eq_true in E; intros [= <-].
  all: rewrite length_zip_with; lia.
Qed.

(** The addresses the scan of [pickIP] looks at are as long as the one it
    starts from. *)
Lemma pickLoop_length (fuel : nat) (nm remote : string) (a : list byte)
    (p : serverCmd) (s : string) (p' : serverCmd) :
  pickLoop fuel nm remote a p = Some (Picked s, p') →
  ∃ a', s = IPString a' ∧ length a' = length a ∧
        Contains (subnet p) a' = true.
Proof.
  revert a. induction fuel as [|fuel IH]; intros a; simpl.
  - by destruct (Contains (subnet p) a).
  - destruct (Contains (subnet p) a) eqn:Hc; [|done].
    assert (Hrec : pickLoop fuel nm remote (incIP a) p = Some (Picked s, p') →
                   ∃ a', s = IPString a' ∧ length a' = length a ∧
                         Contains (subnet p) a' = true).
    { intros H. destruct (IH _ H) as (a' & -> & Hl & Hc').
      exists a'. by rewrite Hl, length_incIP. }
    destruct (HasSuffix (IPString a) ".0"); [exact Hrec|].
    destruct (bool_decide (assignedAt p (IPString a) = None)); [|exact Hrec].
    intros [= <- _]. by exists a.
Qed.

(** X20.  [pickIP] on an IPv4 network never hands out an address that is
    bound.  When it returns an address, that address was free; it is now
    bound to the given name and remote address, and no other record has
    changed; the address is the one fixed for the name in the
    configuration, or the dotted form of a four-byte address of the subnet
    that does not end in [.0].  When it reports that no address is left,
    the pool is as it was. *)
Theorem pickIP_hands_out_free_address (nm remote : string) (p : serverCmd)
    (r : picked) (p' : serverCmd) :
  length (Mask (subnet p)) = 4 →
  pickIP nm remote p = Some (r, p') →
  match r with
  | Picked a =>
      assignedAt p a = None ∧
      assignedAt p' a = Some (MkConnection a remote nm) ∧
      (∀ k, k ≠ a → assignedAt p' k = assignedAt p k) ∧
      Config p' = Config p ∧
      (a = ConfigGet p ("host_" +:+ nm) ∨
       (HasSuffix a ".0" = false ∧
        ∃ a', a = IPString a' ∧ length a' = 4 ∧
              Contains (subnet p) a' = true))
  | OutOfAddresses => p' = p
  end.
Proof.
  intros Hv4. unfold pickIP.
  destruct (negb (String.eqb (ConfigGet p ("host_" +:+ nm)) EmptyString)
            && bool_decide (assignedAt p (ConfigGet p ("host_" +:+ nm)) = None))
    eqn:Hfix.
  - intros [= <- <-]. apply andb_true_iff in Hfix as [_ Hfree].
    apply bool_decide_eq_true_1 in Hfree.
    split; [done|].
    split; [by rewrite assignedAt_set_assigned, decide_True|].
    split; [|split; [done|by left]].
    intros k Hk. by rewrite assignedAt_set_assigned, decide_False.
  - destruct (IPMask (ip p) (Mask (subnet p))) as [a0|] eqn:Hm;
      [|by intros [= <- <-]].
    intros Hl. pose proof (pickLoop_cases _ _ _ _ _ _ _ Hl) as Hcs.
    destruct r as [a|]; [|done].
    destruct Hcs as (Hfree & Hs & _ & ->).
    destruct (pickLoop_length _ _ _ _ _ _ _ Hl) as (a' & Ha & Hlen & Hc).
    rewrite (length_IPMask_4 _ _ _ Hv4 Hm) in Hlen.
    split; [done|].
    split; [by rewrite assignedAt_set_assigned, decide_True|].
    split; [|split; [done|right; split; [done|by exists a']]].
    intros k Hk. by rewrite assignedAt_set_assigned, decide_False.
Qed.

Lemma pool_30_first_pick :
  ∃ p0 p1,
    initPool (server30 ∅) = Some p0 ∧
    pickIP "alice" "198.51.100.1" p0 = Some (Picked "10.0.0.2", p1).
Proof.
  eexists _, _. split; [apply initPool_30|]. vm_compute. reflexivity.
Qed.

Lemma pickIP_hands_out_witness :
  ∃ p0 p1,
    initPool (server30 ∅) = Some p0 ∧
    length (Mask (subnet p0)) = 4 ∧
    pickIP "alice" "198.51.100.1" p0 = Some (Picked "10.0.0.2", p1) ∧
    assignedAt p0 "10.0.0.2" = None ∧
    assignedAt p1 "10.0.0.2"
      = Some (MkConnection "10.0.0.2" "198.51.100.1" "alice").
Proof.
  destruct pool_30_first_pick as (p0 & p1 & Hi & Hp).
  assert (Hv4 : length (Mask (subnet p0)) = 4).
  { pose proof (initPool_30 ∅) as Hi'. rewrite Hi in Hi'.
    injection Hi' as ->. reflexivity. }
  exists p0, p1. split; [exact Hi|]. split; [exact Hv4|]. split; [exact Hp|].
  pose proof (pickIP_hands_out_free_address "alice" "198.51.100.1" p0
                (Picked "10.0.0.2") p1 Hv4 Hp) as (Hfree & Hbound & _).
  split; [exact Hfree|exact Hbound].
Defined.

(** X21.  A fixed address is honoured and kept.  When the configuration
    fixes an address for a name and that address is free, [pickIP] gives
    it to the name, whether or not it lies in the subnet; and whoever asks
    next, under whatever name, gets another address or none, and the
    record of the fixed address stays with the first name. *)
Theorem fixed_address_honoured_and_kept (nm remote fixed : string)
    (p : serverCmd) :
  ConfigGet p ("host_" +:+ nm) = fixed → fixed ≠ EmptyString →
  assignedAt p fixed = None →
  ∃ p1,
    pickIP nm remote p = Some (Picked fixed, p1) ∧
    ∀ nm2 remote2 r2 p2,
      pickIP nm2 remote2 p1 = Some (r2, p2) →
      r2 ≠ Picked fixed ∧
      assignedAt p2 fixed = Some (MkConnection fixed remote nm).
Proof.
  intros Hcfg Hne Hfree.
  set (p1 := set_assigned fixed (Some (MkConnection fixed remote nm)) p).
  assert (Hb : assignedAt p1 fixed = Some (MkConnection fixed remote nm)).
  { unfold p1. by rewrite assignedAt_set_assigned, decide_True. }
  exists p1. split.
  - unfold pickIP. rewrite Hcfg.
    apply String.eqb_neq in Hne. rewrite Hne.
    by rewrite (bool_decide_eq_true_2 _ Hfree).
  - intros nm2 remote2 r2 p2 Hp.
    assert (Hcases : match r2 with
                     | Picked a =>
                         assignedAt p1 a = None ∧
                         p2 = set_assigned a
                                (Some (MkConnection a remote2 nm2)) p1
                     | OutOfAddresses => p2 = p1
                     end).
    { revert Hp. unfold pickIP.
      destruct (negb (String.eqb (ConfigGet p1 ("host_" +:+ nm2)) EmptyString)
                && bool_decide
                     (assignedAt p1 (ConfigGet p1 ("host_" +:+ nm2)) = None))
        eqn:Hfix.
      - intros [= <- <-]. apply andb_true_iff in Hfix as [_ Hf].
        by apply bool_decide_eq_true_1 in Hf.
      - destruct (IPMask (ip p1) (Mask (subnet p1))) as [a0|];
          [|by intros [= <- <-]].
        intros Hl. apply pickLoop_cases in Hl.
        destruct r2 as [a|]; [|done]. by destruct Hl as (? & _ & _ & ?). }
    destruct r2 as [a|].
    + destruct Hcases as [Hfa ->].
      assert (Haf : a ≠ fixed) by (intros ->; congruence).
      split; [congruence|].
      by rewrite assignedAt_set_assigned, decide_False.
    + subst p2. split; [discriminate|done].
Qed.

Lemma fixed_address_witness :
  let cfg : gmap string string := {[ "host_alice"%string := "10.0.0.3"%string ]} in
  ∃ p0 p1,
    initPool (server30 cfg) = Some p0 ∧
    ConfigGet p0 ("host_" +:+ "alice") = "10.0.0.3"%string ∧
    assignedAt p0 "10.0.0.3" = None ∧
    pickIP "alice" "198.51.100.1" p0 = Some (Picked "10.0.0.3", p1) ∧
    ∀ r2 p2, pickIP "bob" "198.51.100.2" p1 = Some (r2, p2) →
             r2 ≠ Picked "10.0.0.3".
Proof.
  cbv zeta.
  set (cfg := {[ "host_alice"%string := "10.0.0.3"%string ]} : gmap string string).
  pose proof (initPool_30 cfg) as Hi.
  match type of Hi with _ = Some ?q => set (p0 := q) in * end.
  assert (Hc : ConfigGet p0 ("host_" +:+ "alice") = "10.0.0.3"%string)
    by (vm_compute; reflexivity).
  assert (Hne : "10.0.0.3"%string ≠ EmptyString) by discriminate.
  assert (Hf : assignedAt p0 "10.0.0.3" = None) by (vm_compute; reflexivity).
  destruct (fixed_address_honoured_and_kept "alice" "198.51.100.1" "10.0.0.3"
              p0 Hc Hne Hf) as (p1 & Hp & Hkeep).
  exists p0, p1. split; [exact Hi|]. split; [exact Hc|]. split; [exact Hf|].
  split; [exact Hp|].
  intros r2 p2 H2. by destruct (Hkeep "bob" "198.51.100.2" r2 p2 H2).
Defined.

(** X22.  Releasing an address frees that address and no other, releasing
    it again or releasing a free address changes nothing, and an address
    that [pickIP] has just handed out is free again after its release,
    with every lookup in the pool as before the allocation. *)
Theorem release_frees_only_that_address (x : string) (p : serverCmd) :
  assignedAt (release x p) x = None ∧
  (∀ k, k ≠ x → assignedAt (release x p) k = assignedAt p k) ∧
  release x (release x p) = release x p ∧
  (assignedAt p x = None → release x p = p) ∧
  (∀ nm remote p',
     pickIP nm remote p = Some (Picked x, p') →
     ∀ k, assignedAt (release x p') k = assignedAt p k).
Proof.
  assert (H1 : ∀ q, assignedAt (release x q) x = None).
  { intros q. unfold release.
    destruct (decide (assignedAt q x = None)) as [Hn|Hb].
    - by rewrite bool_decide_eq_false_2 by (by intros ?).
    - rewrite bool_decide_eq_true_2 by done.
      by rewrite assignedAt_set_assigned, decide_True. }
  assert (H2 : ∀ q k, k ≠ x → assignedAt (release x q) k = assignedAt q k).
  { intros q k Hk. unfold release.
    destruct (bool_decide (assignedAt q x ≠ None)); [|done].
    by rewrite assignedAt_set_assigned, decide_False. }
  assert (H3 : ∀ q, assignedAt q x = None → release x q = q).
  { intros q Hn. unfold release.
    by rewrite bool_decide_eq_false_2 by (by intros ?). }
  split; [apply H1|]. split; [apply H2|].
  split; [apply H3, H1|]. split; [apply H3|].
  intros nm remote p' Hp k.
  assert (Hfree : assignedAt p x = None ∧
                  ∀ k, k ≠ x → assignedAt p' k = assignedAt p k).
  { revert Hp. unfold pickIP.
    destruct (negb (String.eqb (ConfigGet p ("host_" +:+ nm)) EmptyString)
              && bool_decide
                   (assignedAt p (ConfigGet p ("host_" +:+ nm)) = None))
      eqn:Hfix.
    - intros [= <- <-]. apply andb_true_iff in Hfix as [_ Hf].
      apply bool_decide_eq_true_1 in Hf. split; [done|].
      intros k' Hk'. by rewrite assignedAt_set_assigned, decide_False.
    - destruct (IPMask (ip p) (Mask (subnet p))) as [a0|]; [|done].
      intros Hl. apply pickLoop_cases in Hl.
      destruct Hl as (Hf & _ & _ & ->). split; [done|].
      intros k' Hk'. by rewrite assignedAt_set_assigned, decide_False. }
  destruct Hfree as [Hf Hoth].
  destruct (decide (k = x)) as [->|Hk].
  - by rewrite H1, Hf.
  - by rewrite H2, Hoth.
Qed.

Lemma release_witness :
  ∃ p0 p1,
    initPool (server30 ∅) = Some p0 ∧
    pickIP "alice" "198.51.100.1" p0 = Some (Picked "10.0.0.2", p1) ∧
    ∀ k, assignedAt (release "10.0.0.2" p1) k = assignedAt p0 k.
Proof.
  destruct pool_30_first_pick as (p0 & p1 & Hi & Hp).
  exists p0, p1. split; [exact Hi|]. split; [exact Hp|].
  destruct (release_frees_only_that_address "10.0.0.2" p0)
    as (_ & _ & _ & _ & Hround).
  apply (Hround "alice" "198.51.100.1" p1 Hp).
Defined.

(** ** Counting addresses up *)

Lemma byte_inc_to_N (b : byte) :
  Byte.to_N (byte_inc b) = ((Byte.to_N b + 1) mod 256)%N.
Proof. destruct b; reflexivity. Qed.

Lemma leValue_bound (r : list byte) : (leValue r < 256 ^ N.of_nat (length r))%N.
Proof.
  induction r as [|b r IH]; [simpl; lia|].
  cbn [leValue length]. rewrite Nat2N.inj_succ, N.pow_succ_r'.
  pose proof (Byte.to_N_bounded b). lia.
Qed.

Lemma incIP_from_last_spec (r : list byte) :
  length (incIP_from_last r) = length r ∧
  leValue (incIP_from_last r)
  = ((leValue r + 1) mod 256 ^ N.of_nat (length r))%N.
Proof.
  induction r as [|b r [IHl IHv]]; [done|].
  cbn [incIP_from_last].
  pose proof (byte_inc_to_N b) as Hinc.
  pose proof (Byte.to_N_bounded b) as Hb.
  pose proof (leValue_bound r) as Hr.
  assert (Hpow : (256 ^ N.of_nat (length (b :: r))
                  = 256 * 256 ^ N.of_nat (length r))%N).
  { cbn [length]. by rewrite Nat2N.inj_succ, N.pow_succ_r'. }
  destruct (bool_decide (byte_inc b = x00)) eqn:Hz.
  - apply bool_decide_eq_true_1 in Hz. rewrite Hz in Hinc.
    assert (Hb255 : Byte.to_N b = 255%N).
    { change (Byte.to_N x00) with 0%N in Hinc.
      destruct (decide (Byte.to_N b = 255%N)) as [|Hne]; [done|].
      rewrite N.mod_small in Hinc by lia. lia. }
    split; [cbn [length]; by rewrite IHl|].
    cbn [leValue]. rewrite IHv, Hpow, Hb255.
    change (Byte.to_N x00) with 0%N.
    replace (255 + 256 * leValue r + 1)%N with (256 * (leValue r + 1))%N
      by lia.
    rewrite N.Div0.mul_mod_distr_l. lia.
  - apply bool_decide_eq_false_1 in Hz.
    assert (Hlt : (Byte.to_N b + 1 < 256)%N).
    { destruct (decide (Byte.to_N b = 255%N)) as [He|Hne]; [|lia].
      exfalso. apply Hz. rewrite He in Hinc. simpl in Hinc.
      apply (f_equal Byte.of_N) in Hinc. rewrite Byte.of_to_N in Hinc.
      by injection Hinc as ->. }
    rewrite N.mod_small in Hinc by done.
    split; [done|].
    cbn [leValue]. rewrite Hinc, Hpow.
    rewrite N.mod_small; [lia|]. nia.
Qed.

(** X23.  [incIP] counts an address up by one: read as a number with the
    most significant byte first, the result is the successor, and the
    address after the last one of its length is all zeroes again; the
    length never changes. *)
Theorem incIP_is_successor (a : list byte) :
  length (incIP a) = length a ∧
  ipValue (incIP a) = ((ipValue a + 1) mod 256 ^ N.of_nat (length a))%N.
Proof.
  unfold incIP, ipValue.
  destruct (incIP_from_last_spec (rev a)) as [Hl Hv].
  rewrite length_rev in *. rewrite rev_involutive. by rewrite Hl.
Qed.

(** ** The walks over the subnet end *)

Lemma pickLoop_returns (k fuel : nat) (nm remote : string) (a : list byte)
    (p : serverCmd) :
  k ≤ fuel → Contains (subnet p) (Nat.iter k incIP a) = false →
  ∃ r p', pickLoop fuel nm remote a p = Some (r, p') ∧
          subnet p' = subnet p ∧ ip p' = ip p.
Proof.
  revert fuel a. induction k as [|k IH]; intros fuel a Hk Hc.
  - simpl in Hc. destruct fuel; simpl; rewrite Hc; eauto.
  - destruct fuel as [|fuel]; [lia|]. rewrite Nat.iter_succ_r in Hc.
    simpl. destruct (Contains (subnet p) a); [|eauto].
    destruct (HasSuffix (IPString a) ".0"); [apply IH; [lia|done]|].
    destruct (bool_decide _); [eauto|]. apply IH; [lia|done].
Qed.

Lemma initLoop_returns (k fuel : nat) (a : list byte) (p : serverCmd) :
  k ≤ fuel → Contains (subnet p) (Nat.iter k incIP a) = false →
  ∃ p', initLoop fuel a p = Some p' ∧ subnet p' = subnet p ∧ ip p' = ip p.
Proof.
  revert fuel a p. induction k as [|k IH]; intros fuel a p Hk Hc.
  - simpl in Hc. destruct fuel; simpl; rewrite Hc; eauto.
  - destruct fuel as [|fuel]; [lia|]. rewrite Nat.iter_succ_r in Hc.
    simpl. destruct (Contains (subnet p) a); [|eauto].
    destruct (HasSuffix (IPString a) ".0"); [apply IH; [lia|done]|].
    destruct (String.eqb (serverIP p) EmptyString).
    + edestruct IH as (p' & Hp & Hs & Hi); [| |exists p'; split; [exact Hp|]];
        [lia|exact Hc|done].
    + edestruct IH as (p' & Hp & Hs & Hi); [| |exists p'; split; [exact Hp|]];
        [lia|exact Hc|done].
Qed.

Lemma in_allBytes (b : byte) : In b allBytes.
Proof.
  apply in_map_iff. exists (N.to_nat (Byte.to_N b)). split.
  - by rewrite N2Nat.id, Byte.of_to_N.
  - apply in_seq. pose proof (Byte.to_N_bounded b). lia.
Qed.

Lemma byte2_check (P : byte → byte → bool) :
  forallb (λ x, forallb (P x) allBytes) allBytes = true →
  ∀ x y, P x y = true.
Proof.
  intros H x y. rewrite forallb_forall in H.
  specialize (H x (in_allBytes x)). rewrite forallb_forall in H.
  apply H, in_allBytes.
Qed.

Lemma incIP_from_last_head (k : nat) (c : byte) (r : list byte) :
  ∃ r', Nat.iter k incIP_from_last (c :: r) = Nat.iter k byte_inc c :: r'.
Proof.
  induction k as [|k [r' IH]]; [by exists r|].
  cbn [Nat.iter nat_rect] in *. unfold Nat.iter in *. simpl. rewrite IH. cbn [incIP_from_last].
  destruct (bool_decide _) eqn:E.
  - apply bool_decide_eq_true in E. rewrite E. eauto.
  - eauto.
Qed.

Lemma byte_to_N_inj (x y : byte) : Byte.to_N x = Byte.to_N y → x = y.
Proof.
  intros H. pose proof (Byte.of_to_N x) as Hx. rewrite H, Byte.of_to_N in Hx.
  by injection Hx.
Qed.

Lemma iter_byte_inc_to_N (k : nat) (c : byte) :
  Byte.to_N (Nat.iter k byte_inc c) = ((Byte.to_N c + N.of_nat k) mod 256)%N.
Proof.
  induction k as [|k IH].
  - simpl. pose proof (Byte.to_N_bounded c). rewrite N.add_0_r.
    symmetry. apply N.mod_small. lia.
  - rewrite Nat.iter_succ, byte_inc_to_N, IH, N.Div0.add_mod_idemp_l.
    f_equal. lia.
Qed.

Lemma incIP_from_last_no_carry (k : nat) (c : byte) (r : list byte) :
  (Byte.to_N c + N.of_nat k <= 255)%N →
  Nat.iter k incIP_from_last (c :: r) = Nat.iter k byte_inc c :: r.
Proof.
  induction k as [|k IH]; intros Hk; [done|].
  rewrite !Nat.iter_succ, IH by lia. cbn [incIP_from_last].
  rewrite bool_decide_eq_false_2; [done|].
  intros H. apply (f_equal Byte.to_N) in H.
  rewrite byte_inc_to_N, iter_byte_inc_to_N, N.Div0.add_mod_idemp_l in H.
  rewrite N.mod_small in H by lia. simpl in H. lia.
Qed.

Lemma incIP_from_last_256 (c : byte) (r : list byte) :
  Nat.iter 256 incIP_from_last (c :: r) = c :: incIP_from_last r.
Proof.
  pose proof (Byte.to_N_bounded c) as Hc.
  set (n := N.to_nat (Byte.to_N c)).
  replace 256 with (n + S (255 - n)) by lia.
  rewrite Nat.iter_add, Nat.iter_succ.
  rewrite incIP_from_last_no_carry by lia.
  assert (Hff : Nat.iter (255 - n) byte_inc c = xff).
  { apply byte_to_N_inj. rewrite iter_byte_inc_to_N.
    replace (Byte.to_N c + N.of_nat (255 - n))%N with 255%N by lia. done. }
  rewrite Hff. cbn [incIP_from_last].
  rewrite bool_decide_eq_true_2 by reflexivity.
  rewrite incIP_from_last_no_carry by (simpl; lia).
  f_equal. apply byte_to_N_inj. rewrite iter_byte_inc_to_N.
  simpl Byte.to_N. rewrite N.add_0_l. subst n. rewrite N2Nat.id.
  apply N.mod_small. lia.
Qed.

Lemma incIP_from_last_256_times (k : nat) (c : byte) (r : list byte) :
  Nat.iter (256 * k) incIP_from_last (c :: r)
  = c :: Nat.iter k incIP_from_last r.
Proof.
  revert r. induction k as [|k IH]; intros r.
  - by rewrite Nat.mul_0_r.
  - rewrite Nat.mul_succ_r, Nat.iter_add, incIP_from_last_256, IH.
    by rewrite Nat.iter_succ_r.
Qed.

Lemma lowestBit_step_leaves (m c : byte) :
  m ≠ x00 →
  lowestBit m ≤ 2 ^ zeroBits m ∧
  byte_and (Nat.iter (lowestBit m) byte_inc c) m ≠ byte_and c m.
Proof.
  intros Hm.
  pose (add := λ (c : byte) (k : nat),
          default x00 (Byte.of_N ((Byte.to_N c + N.of_nat k) mod 256))).
  assert (Hadd : ∀ k, Nat.iter k byte_inc c = add c k).
  { intros k. apply byte_to_N_inj. rewrite iter_byte_inc_to_N. unfold add.
    destruct (Byte.of_N _) as [b|] eqn:E.
    - symmetry. by apply Byte.to_of_N.
    - exfalso. apply Byte.of_N_None_iff in E.
      pose proof (N.mod_upper_bound (Byte.to_N c + N.of_nat k) 256). lia. }
  rewrite Hadd.
  pose (P := λ (m c : byte),
          bool_decide (m = x00)
          || ((lowestBit m <=? 2 ^ zeroBits m)
              && negb (bool_decide (byte_and (add c (lowestBit m)) m
                                    = byte_and c m)))).
  assert (HP : P m c = true).
  { apply byte2_check. vm_compute. reflexivity. }
  unfold P in HP. rewrite bool_decide_eq_false_2 in HP by done.
  simpl in HP. apply andb_prop in HP as [H1 H2].
  apply Nat.leb_le in H1. apply negb_true_iff, bool_decide_eq_false in H2.
  done.
Qed.

Lemma length_iter_incIP_from_last (k : nat) (r : list byte) :
  length (Nat.iter k incIP_from_last r) = length r.
Proof.
  induction k as [|k IH]; [done|].
  rewrite Nat.iter_succ. by rewrite (proj1 (incIP_from_last_spec _)).
Qed.

Lemma walk_leaves_rev (mr r : list byte) :
  length r = length mr → Exists (λ m, m ≠ x00) mr →
  ∃ k, k ≤ 2 ^ list_sum (map zeroBits mr) ∧
       zip_with byte_and (Nat.iter k incIP_from_last r) mr
       ≠ zip_with byte_and r mr.
Proof.
  revert r. induction mr as [|m mr IH]; intros r Hlen Hex.
  { inversion Hex. }
  destruct r as [|c r]; [done|]. injection Hlen as Hlen.
  change (list_sum (map zeroBits (m :: mr)))
    with (zeroBits m + list_sum (map zeroBits mr)).
  rewrite Nat.pow_add_r.
  destruct (decide (m = x00)) as [->|Hm].
  - inversion Hex as [? ? Hh|? ? Ht]; subst; [done|].
    destruct (IH r Hlen Ht) as (k & Hk & Hne).
    exists (256 * k). split.
    + change (2 ^ zeroBits x00) with 256. by apply Nat.mul_le_mono_l.
    + rewrite incIP_from_last_256_times. cbn [zip_with].
      intros [= H]. done.
  - destruct (lowestBit_step_leaves m c Hm) as [Hk Hne].
    exists (lowestBit m). split.
    + etrans; [exact Hk|]. rewrite <- (Nat.mul_1_r (2 ^ zeroBits m)) at 1.
      apply Nat.mul_le_mono_l.
      assert (2 ^ list_sum (map zeroBits mr) ≠ 0)
        by (by apply Nat.pow_nonzero). lia.
    + destruct (incIP_from_last_head (lowestBit m) c r) as [r' ->].
      cbn [zip_with]. intros [= H _]. done.
Qed.

Lemma iter_incIP (k : nat) (a : list byte) :
  Nat.iter k incIP a = rev (Nat.iter k incIP_from_last (rev a)).
Proof.
  induction k as [|k IH]; [simpl; by rewrite rev_involutive|].
  rewrite !Nat.iter_succ, IH. unfold incIP. by rewrite rev_involutive.
Qed.

Lemma zip_with_rev {A B C} (f : A → B → C) (a : list A) (b : list B) :
  length a = length b →
  zip_with f (rev a) (rev b) = rev (zip_with f a b).
Proof.
  revert b. induction a as [|x a IH]; intros [|y b] Hlen; try done.
  injection Hlen as Hlen. cbn [rev zip_with].
  rewrite zip_with_app by (by rewrite !length_rev). by rewrite IH.
Qed.

Lemma list_sum_rev (l : list nat) : list_sum (rev l) = list_sum l.
Proof.
  induction l as [|x l IH]; [done|].
  cbn [rev]. rewrite list_sum_app, IH. simpl. lia.
Qed.

Lemma walk_leaves (a mask : list byte) :
  length a = length mask → Exists (λ m, m ≠ x00) mask →
  ∃ k, k ≤ 2 ^ list_sum (map zeroBits mask) ∧
       length (Nat.iter k incIP a) = length a ∧
       zip_with byte_and (Nat.iter k incIP a) mask ≠ zip_with byte_and a mask.
Proof.
  intros Hlen Hex.
  destruct (walk_leaves_rev (rev mask) (rev a)) as (k & Hk & Hne).
  { by rewrite !length_rev. }
  { by apply List.Exists_rev. }
  exists k. rewrite map_rev, list_sum_rev in Hk. split; [exact Hk|].
  rewrite iter_incIP. split.
  { by rewrite length_rev, length_iter_incIP_from_last, length_rev. }
  intros H. apply Hne.
  rewrite (zip_with_rev _ a mask Hlen), <- H.
  rewrite <- (rev_involutive mask) at 2.
  rewrite zip_with_rev; [by rewrite rev_involutive|].
  by rewrite length_iter_incIP_from_last, !length_rev.
Qed.

Lemma Contains_false (n : IPNet) (a : list byte) :
  length a = length (IP n) →
  zip_with byte_and a (Mask n) ≠ zip_with byte_and (IP n) (Mask n) →
  Contains n a = false.
Proof.
  intros Hlen Hne. unfold Contains, To4.
  destruct (bool_decide (length a = 16 ∧ take 12 a = v4InV6Prefix)) eqn:E.
  - apply bool_decide_eq_true in E as [H16 _].
    rewrite (bool_decide_eq_false_2 (length (drop 12 a) = _)); [done|].
    rewrite length_drop. lia.
  - apply andb_false_iff. right. apply bool_decide_eq_false. congruence.
Qed.

(** X24.  The walks over the subnet end.  For a network as [net.ParseCIDR]
    returns it (the address is the masked one and as long as the mask) whose
    mask is not all zero, counting up from the first address leaves the
    network within two to the number of zero bits of the mask steps: the
    pool initialisation of [Execute] and every call of [pickIP] return, for
    an IPv4 as for an IPv6 network, whatever is bound in the pool, and the
    network they walk stays the same. *)
Theorem pool_walks_end (p : serverCmd) :
  IPMask (ip p) (Mask (subnet p)) = Some (IP (subnet p)) →
  length (IP (subnet p)) = length (Mask (subnet p)) →
  Exists (λ m, m ≠ x00) (Mask (subnet p)) →
  (∃ p', initPool p = Some p' ∧ subnet p' = subnet p ∧ ip p' = ip p) ∧
  (∀ nm remote, ∃ r p',
     pickIP nm remote p = Some (r, p') ∧
     subnet p' = subnet p ∧ ip p' = ip p).
Proof.
  intros Hmask Hlen Hex.
  destruct (walk_leaves (IP (subnet p)) (Mask (subnet p)) Hlen Hex)
    as (k & Hk & Hl & Hne).
  pose proof (Contains_false (subnet p) _ Hl Hne) as Hc.
  split.
  - unfold initPool. cbn [ip subnet]. rewrite Hmask.
    exact (initLoop_returns k _ _
             {| assigned := ∅; Config := Config p; serverIP := serverIP p;
                ip := ip p; subnet := subnet p |} Hk Hc).
  - intros nm remote. unfold pickIP.
    destruct (negb _ && bool_decide _); [eauto|].
    rewrite Hmask. by apply (pickLoop_returns k).
Qed.

Lemma pool_walks_end_witness :
  IPMask (ip (server30 ∅)) (Mask (subnet (server30 ∅)))
    = Some (IP (subnet (server30 ∅))) ∧
  length (IP (subnet (server30 ∅))) = length (Mask (subnet (server30 ∅))) ∧
  Exists (λ m, m ≠ x00) (Mask (subnet (server30 ∅))) ∧
  ∃ p', initPool (server30 ∅) = Some p' ∧
        ∀ nm remote, ∃ r p'', pickIP nm remote (server30 ∅) = Some (r, p'').
Proof.
  assert (H1 : IPMask (ip (server30 ∅)) (Mask (subnet (server30 ∅)))
               = Some (IP (subnet (server30 ∅)))) by reflexivity.
  assert (H2 : length (IP (subnet (server30 ∅)))
               = length (Mask (subnet (server30 ∅)))) by reflexivity.
  assert (H3 : Exists (λ m, m ≠ x00) (Mask (subnet (server30 ∅))))
    by (apply Exists_cons_hd; discriminate).
  split; [exact H1|]. split; [exact H2|]. split; [exact H3|].
  destruct (pool_walks_end (server30 ∅) H1 H2 H3)
    as [(p' & Hp & _) Hpick].
  exists p'. split; [exact Hp|].
  intros nm remote. destruct (Hpick nm remote) as (r & p'' & Hr & _).
  by exists r, p''.
Defined.

(** ** The invariants in every reachable state *)

Lemma preserves_ret {A} (a : A) : preserves (ret a).
Proof. intros w a' w' tr Hi [= _ <- _]. done. Qed.

Lemma preserves_panic {A} : preserves (panic : M A).
Proof. intros w a w' tr _ H. discriminate H. Qed.

Lemma preserves_emit (e : Event) : preserves (emit e).
Proof. intros w a w' tr Hi [= _ <- _]. done. Qed.

Lemma preserves_get : preserves get.
Proof. intros w a w' tr Hi [= _ <- _]. done. Qed.

Lemma preserves_modify (f : World → World) :
  (∀ w, invariants w → invariants (f w)) → preserves (modify f).
Proof. intros Hf w a w' tr Hi [= _ <- _]. by apply Hf. Qed.

Lemma preserves_bind {A B} (m : M A) (k : A → M B) :
  preserves m → (∀ a, preserves (k a)) → preserves (bind m k).
Proof.
  intros Hm Hk w b w' tr Hi. unfold bind.
  destruct (m w) as [|a w1 tr1] eqn:E; [done|].
  destruct (k a w1) as [|b' w2 tr2] eqn:E2; [done|].
  simpl. intros [= _ <- _].
  eapply Hk; [|exact E2]. eapply Hm; [exact Hi|exact E].
Qed.

Lemma preserves_when (b : bool) (m : M unit) :
  preserves m → preserves (when b m).
Proof. intros Hm. destruct b; [done|apply preserves_ret]. Qed.

Lemma preserves_forEach {A} (l : list A) (body : A → M unit) :
  (∀ v, preserves (body v)) → preserves (forEach l body).
Proof.
  intros Hb. induction l as [|v l IH]; [apply preserves_ret|].
  simpl. apply preserves_bind; [apply Hb|]. by intros _.
Qed.

Lemma invariants_set_sock (s : sockid) (f : Socket → Socket) (w : World) :
  (∀ k, chanGuard k → chanGuard (f k)) → (∀ k, mac (f k) = mac k) →
  invariants w → invariants (set_sock s f w).
Proof.
  intros Hc Hm (Hg & Ht & Hl). split; [|split; [|done]].
  - apply chanGuarded_set_sock; [done|]. apply Hc, Hg.
  - by apply tableOwned_set_sock.
Qed.

Lemma preserves_wg_Add (s : sockid) (n : nat) : preserves (wg_Add s n).
Proof. apply preserves_modify. intros w. by apply invariants_set_sock. Qed.

Lemma preserves_wg_Done (s : sockid) : preserves (wg_Done s).
Proof.
  unfold wg_Done. apply preserves_bind; [apply preserves_get|]. intros w0.
  destruct (wg (sock w0 s)); [apply preserves_panic|].
  apply preserves_modify. intros w. by apply invariants_set_sock.
Qed.

Lemma preserves_Close (s : sockid) : preserves (Close s).
Proof.
  intros w a w' tr (Hg & Ht & Hl) Hc.
  rewrite (Close_eq s w (Hg s)) in Hc. injection Hc as _ <- _.
  split; [by apply chanGuarded_closedWorld|].
  split; [by apply tableOwned_closedWorld|done].
Qed.

Lemma preserves_WriteMessage (s : sockid) (ty : msgtype) (data : list byte) :
  preserves (WriteMessage s ty data).
Proof.
  unfold WriteMessage. apply preserves_bind; [apply preserves_emit|].
  intros _. apply preserves_bind; [apply preserves_get|]. intros w0.
  destruct (conn_up (conn (sock w0 s)) && negb (conn_closed (conn (sock w0 s))));
    [apply preserves_ret|].
  apply preserves_bind; [apply preserves_emit|]. intros _.
  apply preserves_bind; [apply preserves_Close|]. intros _.
  apply preserves_ret.
Qed.

Lemma preserves_BroadcastMessage (ty : msgtype) (data : list byte)
    (skip : sockid) : preserves (BroadcastMessage ty data skip).
Proof.
  unfold BroadcastMessage. apply preserves_bind; [apply preserves_get|].
  intros w0. apply preserves_forEach. intros v.
  apply preserves_bind; [apply preserves_WriteMessage|]. intros _.
  apply preserves_ret.
Qed.

Lemma lastCommandID_learnMAC (s : sockid) (src : MacAddr) (w : World) :
  lastCommandID (learnMAC s src w) = lastCommandID w.
Proof.
  unfold learnMAC.
  destruct (negb (MACIsUnicast src) || bool_decide (src = mac (sock w s)));
    [done|]. by destruct (decide (mac (sock w s) ≠ defaultMac)).
Qed.

Lemma preserves_setMACFrom (s : sockid) (msg : slice) :
  preserves (setMACFrom s msg).
Proof.
  unfold setMACFrom. destruct (Util.GetSrcMAC msg) as [src|];
    [|apply preserves_panic].
  apply preserves_modify. intros w (Hg & Ht & Hl).
  split; [by apply chanGuarded_learnMAC|].
  split; [by apply tableOwned_learnMAC|]. by rewrite lastCommandID_learnMAC.
Qed.

Lemma preserves_writeOwnIface (s : sockid) (msg : slice) :
  preserves (writeOwnIface s msg).
Proof.
  unfold writeOwnIface. apply preserves_bind; [apply preserves_get|].
  intros w0. destruct (iface (sock w0 s));
    [apply preserves_emit|apply preserves_ret].
Qed.

Lemma preserves_serveBinary (s : sockid) (msg : slice) :
  preserves (serveBinary s msg).
Proof.
  unfold serveBinary. apply preserves_bind.
  - destruct (14 <=? len msg); [|apply preserves_ret].
    apply preserves_bind; [apply preserves_setMACFrom|]. intros _.
    destruct (Util.GetDestMAC msg) as [dest|]; [|apply preserves_panic].
    destruct (MACIsUnicast dest).
    + unfold FindSocketByMAC. apply preserves_bind.
      * apply preserves_bind; [apply preserves_get|]. intros w0.
        apply preserves_ret.
      * intros [sd|]; [|apply preserves_ret].
        apply preserves_bind; [apply preserves_WriteMessage|]. intros _.
        apply preserves_ret.
    + apply preserves_bind; [apply preserves_BroadcastMessage|]. intros _.
      apply preserves_ret.
  - intros [|]; [apply preserves_ret|apply preserves_writeOwnIface].
Qed.

Lemma preserves_SendCommand (s : sockid) (command : string)
    (args : list string) : preserves (SendCommand s command args).
Proof.
  unfold SendCommand, nextCommandID, rawSendCommand.
  apply preserves_bind.
  - apply preserves_bind; [apply preserves_get|]. intros w0.
    apply preserves_bind; [|intros _; apply preserves_ret].
    apply preserves_modify. intros w (Hg & Ht & Hl).
    split; [done|]. split; [done|]. apply N.mod_lt. done.
  - intros n. apply preserves_WriteMessage.
Qed.

Lemma preserves_BroadcastCommand (command : string) (args : list string) :
  preserves (BroadcastCommand command args).
Proof.
  unfold BroadcastCommand. apply preserves_bind; [apply preserves_get|].
  intros w0. apply preserves_bind; [|intros _; apply preserves_ret].
  apply preserves_forEach. intros v.
  apply preserves_bind; [apply preserves_SendCommand|]. intros _.
  apply preserves_ret.
Qed.

Lemma preserves_closeDone (s : sockid) : preserves (closeDone s).
Proof.
  unfold closeDone. apply preserves_bind; [apply preserves_wg_Done|].
  intros _. apply preserves_bind; [apply preserves_Close|]. intros _.
  apply preserves_bind; [apply preserves_get|]. intros w0.
  destruct (reaper (sock w0 s) && bool_decide (reaped (sock w0 s) = false));
    [|apply preserves_ret].
  apply preserves_bind; [apply preserves_emit|]. intros _.
  apply preserves_modify. intros w. by apply invariants_set_sock.
Qed.

Lemma preserves_serveText (hs : Handlers) (s : sockid) (msg : slice) :
  handlersPreserve hs → preserves (serveText hs s msg).
Proof.
  intros Hhs. unfold serveText.
  destruct (length (Split (string_of_list_byte (sl_data msg)) "|") <? 2);
    [apply preserves_emit|].
  destruct (String.eqb _ "reply"); [apply preserves_emit|].
  apply preserves_bind.
  - destruct (hs s _) as [handler|] eqn:Hh; [|apply preserves_ret].
    eapply Hhs, Hh.
  - intros err. unfold replyTo, rawSendCommand.
    apply preserves_bind; [apply preserves_when, preserves_emit|]. intros _.
    apply preserves_bind; [apply preserves_WriteMessage|]. intros _.
    apply preserves_ret.
Qed.

Lemma preserves_serveLoop (hs : Handlers) (s : sockid)
    (reads : list ReadResult) :
  handlersPreserve hs → preserves (serveLoop hs s reads).
Proof.
  intros Hhs. induction reads as [|r reads IH]; [apply preserves_ret|].
  cbn [serveLoop]. apply preserves_bind.
  - destruct r as [u|ty msg]; cbn [serveStep].
    + apply preserves_bind; [apply preserves_when, preserves_emit|].
      intros _. apply preserves_ret.
    + destruct ty; try apply preserves_ret.
      * apply preserves_bind; [by apply preserves_serveText|].
        intros _. apply preserves_ret.
      * apply preserves_bind; [apply preserves_serveBinary|].
        intros _. apply preserves_ret.
  - intros [|]; [exact IH|apply preserves_ret].
Qed.

Lemma preserves_ifaceLoop (s : sockid) (reads : list IfaceRead) :
  preserves (ifaceLoop s reads).
Proof.
  induction reads as [|r reads IH]; [apply preserves_ret|].
  destruct r as [|data]; cbn [ifaceLoop].
  - apply preserves_bind; [apply preserves_emit|]. intros _.
    apply preserves_ret.
  - apply preserves_bind; [apply preserves_WriteMessage|].
    intros [e|]; [apply preserves_ret|exact IH].
Qed.

Lemma preserves_keepaliveLoop (s : sockid) (lastResponse : Z)
    (events : list KeepaliveEvent) :
  preserves (keepaliveLoop s lastResponse events).
Proof.
  revert lastResponse.
  induction events as [|e events IH]; intros lastResponse;
    [apply preserves_ret|].
  destruct e as [now|now|]; cbn [keepaliveLoop].
  - destruct (keepaliveTimeout <? now - lastResponse)%Z.
    + apply preserves_bind; [apply preserves_emit|]. intros _.
      apply preserves_ret.
    + apply preserves_bind; [apply preserves_WriteMessage|].
      intros [e|]; [apply preserves_ret|apply IH].
  - apply IH.
  - apply preserves_ret.
Qed.

Lemma preserves_newSocket (ip : string) (c : Conn) (i : option Interface)
    (fn : bool) : preserves (newSocket ip c i fn).
Proof.
  intros w a w' tr (Hg & Ht & Hl) Hrun.
  unfold newSocket in Hrun. rewrite bind_get in Hrun. cbv zeta in Hrun.
  rewrite bind_modify in Hrun. injection Hrun as _ <- _.
  set (s := fresh (dom (socks w))).
  assert (Hfresh : s ∉ dom (socks w)) by apply is_fresh.
  assert (Hdef : sock w s = inhabitant).
  { unfold sock. rewrite lookup_total_alt.
    apply not_elem_of_dom in Hfresh. by rewrite Hfresh. }
  set (w0 := {| socks := <[s := MakeSocket ip c i fn]> (socks w);
                macTable := macTable w; allSockets := allSockets w;
                lastCommandID := lastCommandID w |}).
  assert (Hs0 : sock w0 s = MakeSocket ip c i fn)
    by apply lookup_total_insert_eq.
  assert (Hne0 : ∀ v, v ≠ s → sock w0 v = sock w v).
  { intros v Hv. unfold sock, w0. simpl. by apply lookup_total_insert_ne. }
  split; [|split; [|done]].
  - intros v. destruct (decide (v = s)) as [->|Hv].
    + by rewrite Hs0.
    + rewrite Hne0 by done. apply Hg.
  - intros m v Hlk. destruct (Ht m v Hlk) as [Hm Hd]. split; [|done].
    destruct (decide (v = s)) as [->|Hv]; [|by rewrite Hne0].
    exfalso. apply Hd. rewrite <- Hm, Hdef. reflexivity.
Qed.

Lemma preserves_runOp (hs : Handlers) (o : Op) :
  handlersPreserve hs → preserves (runOp hs o).
Proof.
  intros Hhs. destruct o; cbn [runOp].
  - apply preserves_bind; [apply preserves_newSocket|].
    intros _. apply preserves_ret.
  - unfold Serve. apply preserves_bind.
    + apply preserves_bind; [apply preserves_get|]. intros w0.
      destruct (iface (sock w0 s)); [apply preserves_wg_Add|apply preserves_ret].
    + intros _. apply preserves_bind.
      * apply preserves_modify. by intros w (Hg & Ht & Hl).
      * intros _. apply preserves_bind; [apply preserves_wg_Add|].
        intros _. apply preserves_wg_Add.
  - apply preserves_bind; [|intros _; apply preserves_ret].
    unfold SetInterface. apply preserves_bind; [apply preserves_get|].
    intros w0. destruct (iface (sock w0 s)); [apply preserves_ret|].
    apply preserves_bind.
    + apply preserves_modify. intros w. by apply invariants_set_sock.
    + intros _. apply preserves_bind; [|intros _; apply preserves_ret].
      unfold tryServeIfaceRead.
      apply preserves_bind; [apply preserves_get|]. intros w1.
      destruct (iface (sock w1 s)); [apply preserves_wg_Add|apply preserves_ret].
  - apply preserves_Close.
  - apply preserves_bind; [apply preserves_WriteMessage|].
    intros _. apply preserves_ret.
  - apply preserves_BroadcastMessage.
  - apply preserves_bind; [apply preserves_SendCommand|].
    intros _. apply preserves_ret.
  - apply preserves_bind; [apply preserves_BroadcastCommand|].
    intros _. apply preserves_ret.
  - apply preserves_bind; [|intros _; apply preserves_ret].
    unfold readPump. apply preserves_bind; [by apply preserves_serveLoop|].
    intros [|]; [apply preserves_ret|].
    apply preserves_bind; [apply preserves_closeDone|].
    intros _. apply preserves_ret.
  - apply preserves_bind; [|intros _; apply preserves_ret].
    unfold ifacePump. apply preserves_bind; [apply preserves_ifaceLoop|].
    intros [|]; [apply preserves_ret|].
    apply preserves_bind; [apply preserves_closeDone|].
    intros _. apply preserves_ret.
  - apply preserves_bind; [|intros _; apply preserves_ret].
    unfold keepalivePump.
    apply preserves_bind; [apply preserves_keepaliveLoop|].
    intros [|]; [apply preserves_ret|].
    apply preserves_bind; [apply preserves_closeDone|].
    intros _. apply preserves_ret.
  - apply preserves_modify. intros w. by apply invariants_set_sock.
Qed.

Lemma handlersPreserve_serverHandlers (p : serverCmd) :
  handlersPreserve (serverHandlers p).
Proof.
  intros s command handler args. unfold serverHandlers.
  destruct (String.eqb command "refresh-peers"); [|done].
  intros [= <-]. unfold refreshPeers.
  apply preserves_bind; [apply preserves_BroadcastCommand|].
  intros _. apply preserves_ret.
Qed.

(** X25.  The invariants the other properties assume hold in every state
    the code can reach.  Starting with no Endpoint at all, after any
    sequence of [MakeSocket], [Serve], [SetInterface], [Close],
    [WriteMessage], [BroadcastMessage], [SendCommand], [BroadcastCommand],
    runs of the three goroutines on whatever they read, and transports
    going down, one after the other, [closechanopen] mirrors the channel,
    every table entry is filed under the learned address of its Endpoint,
    and the counter is below 2^64; provided the registered handlers keep
    these invariants, as the one of the server does. *)
Theorem invariants_hold_in_every_reachable_state (hs : Handlers)
    (ops : list Op) (w : World) (tr : list Event) :
  handlersPreserve hs →
  runOps hs ops emptyWorld = Ok tt w tr →
  invariants w.
Proof.
  intros Hhs Hrun.
  assert (H0 : invariants emptyWorld).
  { split; [by intros v|]. split; [apply tableOwned_empty|done]. }
  assert (Hp : preserves (runOps hs ops)).
  { apply preserves_forEach. intros o. by apply preserves_runOp. }
  exact (Hp emptyWorld tt w tr H0 Hrun).
Qed.

Lemma invariants_reachable_witness :
  let ops :=
    [OpMakeSocket "10.0.0.2" (MkConn true false) (Some (MkInterface false))
       true;
     OpMakeSocket "10.0.0.3" (MkConn true false) (Some (MkInterface false))
       true;
     OpServe 0; OpServe 1;
     OpReadPump 0 [ReadOk BinaryMessage (frame macB macA)];
     OpReadPump 1
       [ReadOk BinaryMessage (frame macA macB);
        ReadOk TextMessage (bytes (list_byte_of_string "7|refresh-peers"));
        ReadErr false];
     OpConnDown 0; OpBroadcastCommand "update-peers" ["10.0.0.2"]%string] in
  handlersPreserve (serverHandlers (Server.server30 ∅)) ∧
  ∃ w tr,
    runOps (serverHandlers (Server.server30 ∅)) ops emptyWorld = Ok tt w tr ∧
    invariants w.
Proof.
  cbv zeta. split; [apply handlersPreserve_serverHandlers|].
  match goal with
  | |- ∃ w tr, ?m = _ ∧ _ => destruct m as [|[] w tr] eqn:E
  end.
  - vm_compute in E. discriminate E.
  - exists w, tr. split; [reflexivity|].
    exact (invariants_hold_in_every_reachable_state _ _ w tr
             (handlersPreserve_serverHandlers _) E).
Defined.
